(** * Knowledge-base categorisation pipeline (src/index.ts)

    A shallow embedding of the resumable ingestion-and-labelling script:
    the content cache with its JSONL persistence, the passage assembler,
    the capped ingestion loop with its checkpoints, the category
    synthesiser and the labelling driver.

    JavaScript strings are sequences of UTF-16 code units; they are
    modelled as lists of [N].  The external collaborators (content store,
    blob store, summarise / extract / label capabilities) are fields of a
    [World] record: the code only calls them, so the model only asks what
    they answer.

    The cache is declared as a [Map<string, string>], and every function
    but one keeps it so.  restoreCache fills it from JSON.parse, which
    returns [any]: it is modelled on a Map of any values
    ([Any.restoreCache]), and [restoreCache] hands the store on to the
    typed functions when the Map it leaves holds strings only. *)

From Stdlib Require Import NArith ZArith Ascii String ZifyNat ZifyN.
From stdpp Require Import base option list gmap sorting.

Set Warnings "-register-all".

(** ** JavaScript strings *)

Abbreviation code_unit := N (only parsing).
Abbreviation js_string := (list N) (only parsing).

(** An ASCII literal as a JavaScript string. *)
Definition lit (s : string) : js_string :=
  map N_of_ascii (list_ascii_of_string s).

Definition LF : code_unit := 10%N.
Definition UNDERSCORE : code_unit := 95%N.

(** [Array.prototype.join] on an array of strings. *)
Fixpoint join (sep : js_string) (xs : list js_string) : js_string :=
  match xs with
  | [] => []
  | [x] => x
  | x :: rest => x ++ sep ++ join sep rest
  end.

(** [x.split("\n")]: the separator is the single code unit LF. *)
Fixpoint split_lines (x : js_string) : list js_string :=
  match x with
  | [] => [[]]
  | c :: rest =>
      if (c =? LF)%N then [] :: split_lines rest
      else match split_lines rest with
           | l :: ls => (c :: l) :: ls
           | [] => [[c]]
           end
  end.

(** ** Slugs (labelFilesFromCategories, lines 142-145) *)

Definition in_range (lo hi c : code_unit) : bool :=
  ((lo <=? c) && (c <=? hi))%N.

(** The character class [A-Za-z0-9]. *)
Definition is_alnum (c : code_unit) : bool :=
  in_range 65 90 c || in_range 97 122 c || in_range 48 57 c.

(** [x.replace(/[^A-Za-z0-9]/g, "_")] *)
Definition replace_non_alnum (x : js_string) : js_string :=
  map (fun c => if is_alnum c then c else UNDERSCORE) x.

(** [x.replace(/_+/g, "_")]: of a run of underscores only the last one
    stays. *)
Fixpoint collapse_underscores (x : js_string) : js_string :=
  match x with
  | [] => []
  | c :: rest =>
      match rest with
      | d :: _ =>
          if ((c =? UNDERSCORE) && (d =? UNDERSCORE))%N
          then collapse_underscores rest
          else c :: collapse_underscores rest
      | [] => [c]
      end
  end.

Definition slug (x : js_string) : js_string :=
  collapse_underscores (replace_non_alnum x).

(** The slug as the specification words it: every maximal run of
    non-alphanumeric code units becomes one separator.  [in_run] tells
    whether the previous code unit belonged to such a run. *)
Fixpoint collapse_runs (in_run : bool) (x : js_string) : js_string :=
  match x with
  | [] => []
  | c :: rest =>
      if is_alnum c then c :: collapse_runs false rest
      else if in_run then collapse_runs true rest
      else UNDERSCORE :: collapse_runs true rest
  end.

Definition slug_by_runs (x : js_string) : js_string := collapse_runs false x.

(** ** Trimming (generateListOfCategories, line 129) *)

(** ECMAScript WhiteSpace and LineTerminator code points, the set that
    [String.prototype.trim] strips. *)
Definition is_white_space (c : code_unit) : bool :=
  in_range 9 13 c            (* TAB, LF, VT, FF, CR *)
  || (c =? 32)%N             (* SPACE *)
  || (c =? 160)%N            (* NO-BREAK SPACE *)
  || (c =? 5760)%N           (* U+1680 *)
  || in_range 8192 8202 c    (* U+2000 .. U+200A *)
  || in_range 8232 8233 c    (* U+2028, U+2029 *)
  || (c =? 8239)%N           (* U+202F *)
  || (c =? 8287)%N           (* U+205F *)
  || (c =? 12288)%N          (* U+3000 *)
  || (c =? 65279)%N.         (* U+FEFF *)

Fixpoint trim_start (x : js_string) : js_string :=
  match x with
  | [] => []
  | c :: rest => if is_white_space c then trim_start rest else x
  end.

Definition trim (x : js_string) : js_string :=
  rev (trim_start (rev (trim_start x))).

(** [Boolean(s)] for a string: only the empty string is falsy. *)
Definition truthy (x : js_string) : bool :=
  match x with [] => false | _ => true end.

(** ** The cache: an insertion-ordered [Map<string, string>] *)

Abbreviation Cache := (list (js_string * js_string)) (only parsing).

Fixpoint map_has (k : js_string) (m : Cache) : bool :=
  match m with
  | [] => false
  | (k', _) :: m' => if decide (k = k') then true else map_has k m'
  end.

(** [Map.prototype.set]: an existing key keeps its place and takes the new
    value, a new key goes last. *)
Fixpoint map_set (k v : js_string) (m : Cache) : Cache :=
  match m with
  | [] => [(k, v)]
  | (k', v') :: m' =>
      if decide (k = k') then (k, v) :: m' else (k', v') :: map_set k v m'
  end.

(** ** JSON text *)

Inductive json :=
  | JNull
  | JBool (b : bool)
  | JNumber (lexeme : js_string)   (* its value: [number_value] below *)
  | JString (s : js_string)
  | JArray (items : list json)
  | JObject (members : list (js_string * json)).

Definition QUOTE : code_unit := 34%N.
Definition BACKSLASH : code_unit := 92%N.
Definition LBRACE : code_unit := 123%N.
Definition RBRACE : code_unit := 125%N.
Definition LBRACKET : code_unit := 91%N.
Definition RBRACKET : code_unit := 93%N.
Definition COLON : code_unit := 58%N.
Definition COMMA : code_unit := 44%N.

(** *** JSON.stringify on strings (QuoteJSONString) *)

Definition hex_digit (n : N) : code_unit :=
  (if n <? 10 then 48 + n else 87 + n)%N.       (* 0-9, a-f *)

(** [\uXXXX] with lowercase hexadecimal digits. *)
Definition unicode_escape (c : code_unit) : js_string :=
  [BACKSLASH; 117%N;
   hex_digit ((c / 4096) mod 16); hex_digit ((c / 256) mod 16);
   hex_digit ((c / 16) mod 16); hex_digit (c mod 16)].

Definition is_lead_surrogate (c : code_unit) : bool := in_range 55296 56319 c.
Definition is_trail_surrogate (c : code_unit) : bool := in_range 56320 57343 c.

(** A code unit that is not a surrogate. *)
Definition quote_unit (c : code_unit) : js_string :=
  (if c =? 8 then [BACKSLASH; 98]              (* \b *)
   else if c =? 9 then [BACKSLASH; 116]        (* \t *)
   else if c =? 10 then [BACKSLASH; 110]       (* \n *)
   else if c =? 12 then [BACKSLASH; 102]       (* \f *)
   else if c =? 13 then [BACKSLASH; 114]       (* \r *)
   else if c =? QUOTE then [BACKSLASH; QUOTE]
   else if c =? BACKSLASH then [BACKSLASH; BACKSLASH]
   else if c <? 32 then unicode_escape c
   else [c])%N.

(** Surrogate pairs go through unchanged, lone surrogates are escaped
    (well-formed JSON.stringify). *)
Fixpoint quote_chars (x : js_string) : js_string :=
  match x with
  | [] => []
  | c :: rest =>
      if is_lead_surrogate c then
        match rest with
        | d :: rest' =>
            if is_trail_surrogate d then c :: d :: quote_chars rest'
            else unicode_escape c ++ quote_chars rest
        | [] => unicode_escape c
        end
      else if is_trail_surrogate c then unicode_escape c ++ quote_chars rest
      else quote_unit c ++ quote_chars rest
  end.

Definition stringify_string (x : js_string) : js_string :=
  QUOTE :: quote_chars x ++ [QUOTE].

(** [JSON.stringify({ key, content })] for two strings: property names
    are quoted like any string, members are separated by a comma, there is
    no white space. *)
Definition stringify_entry (e : js_string * js_string) : js_string :=
  [LBRACE] ++ stringify_string (lit "key") ++ [COLON] ++ stringify_string e.1
  ++ [COMMA] ++ stringify_string (lit "content") ++ [COLON]
  ++ stringify_string e.2 ++ [RBRACE].

(** *** JSON.parse *)

Definition is_json_ws (c : code_unit) : bool :=
  ((c =? 32) || (c =? 9) || (c =? 10) || (c =? 13))%N.

Fixpoint skip_ws (x : js_string) : js_string :=
  match x with
  | [] => []
  | c :: rest => if is_json_ws c then skip_ws rest else x
  end.

Definition is_digit (c : code_unit) : bool := in_range 48 57 c.

(** Value of a hexadecimal digit, upper or lower case. *)
Definition hex_value (c : code_unit) : option N :=
  (if is_digit c then Some (c - 48)
   else if in_range 97 102 c then Some (c - 87)
   else if in_range 65 70 c then Some (c - 55)
   else None)%N.

Definition hex4 (a b c d : code_unit) : option code_unit :=
  match hex_value a, hex_value b, hex_value c, hex_value d with
  | Some a, Some b, Some c, Some d => Some (a * 4096 + b * 256 + c * 16 + d)%N
  | _, _, _, _ => None
  end.

(** The single-character escapes of the JSON grammar. *)
Definition simple_escape (e : code_unit) : option code_unit :=
  (if e =? QUOTE then Some QUOTE
   else if e =? BACKSLASH then Some BACKSLASH
   else if e =? 47 then Some 47                (* \/ *)
   else if e =? 98 then Some 8                 (* \b *)
   else if e =? 102 then Some 12               (* \f *)
   else if e =? 110 then Some 10               (* \n *)
   else if e =? 114 then Some 13               (* \r *)
   else if e =? 116 then Some 9                (* \t *)
   else None)%N.

Definition cons_fst {A B} (a : A) (r : list A * B) : list A * B :=
  (a :: r.1, r.2).

(** The characters of a string literal after its opening quote, up to and
    including the closing quote; the rest of the input is returned. *)
Fixpoint parse_string_chars (x : js_string) : option (js_string * js_string) :=
  match x with
  | [] => None
  | c :: rest =>
      if (c =? QUOTE)%N then Some ([], rest)
      else if (c =? BACKSLASH)%N then
        match rest with
        | [] => None
        | e :: rest1 =>
            if (e =? 117)%N then                (* \uXXXX *)
              match rest1 with
              | h1 :: h2 :: h3 :: h4 :: rest2 =>
                  match hex4 h1 h2 h3 h4 with
                  | Some u => cons_fst u <$> parse_string_chars rest2
                  | None => None
                  end
              | _ => None
              end
            else
              match simple_escape e with
              | Some u => cons_fst u <$> parse_string_chars rest1
              | None => None
              end
        end
      else if (c <? 32)%N then None             (* raw control character *)
      else cons_fst c <$> parse_string_chars rest
  end.

Fixpoint take_digits (x : js_string) : js_string * js_string :=
  match x with
  | c :: rest => if is_digit c then cons_fst c (take_digits rest) else ([], x)
  | [] => ([], [])
  end.

(** One or more digits. *)
Definition parse_digits1 (x : js_string) : option (js_string * js_string) :=
  match take_digits x with
  | ([], _) => None
  | r => Some r
  end.

(** An optional minus sign, then 0 or a non-zero digit with more digits,
    then an optional fraction (a dot and digits) and an optional exponent
    (e or E, an optional sign, digits); the lexeme is kept as it is. *)
Definition parse_number (x : js_string) : option (js_string * js_string) :=
  let '(sign, x) :=
    match x with
    | c :: rest => if (c =? 45)%N then ([c], rest) else ([], x)
    | [] => ([], x)
    end in
  '(int, x) ←
    match x with
    | c :: rest =>
        if (c =? 48)%N then Some ([c], rest)
        else if in_range 49 57 c then Some (cons_fst c (take_digits rest))
        else None
    | [] => None
    end;
  '(frac, x) ←
    match x with
    | c :: rest =>
        if (c =? 46)%N then cons_fst c <$> parse_digits1 rest else Some ([], x)
    | [] => Some ([], x)
    end;
  '(exp, x) ←
    match x with
    | c :: rest =>
        if ((c =? 101) || (c =? 69))%N then
          match rest with
          | s :: rest' =>
              if ((s =? 43) || (s =? 45))%N
              then cons_fst c <$> (cons_fst s <$> parse_digits1 rest')
              else cons_fst c <$> parse_digits1 rest
          | [] => None
          end
        else Some ([], x)
    | [] => Some ([], x)
    end;
  Some (sign ++ int ++ frac ++ exp, x).

(** [strip_prefix p x] is the rest of [x] after the literal [p]. *)
Fixpoint strip_prefix (p x : js_string) : option js_string :=
  match p, x with
  | [], _ => Some x
  | a :: p', b :: x' => if (a =? b)%N then strip_prefix p' x' else None
  | _ :: _, [] => None
  end.

(** A JSON value, with leading white space; [fuel] bounds the number of
    nested calls. *)
Fixpoint parse_value (fuel : nat) (x : js_string) : option (json * js_string) :=
  match fuel with
  | O => None
  | S fuel =>
      match skip_ws x with
      | [] => None
      | c :: rest =>
          if (c =? QUOTE)%N then
            '(s, rest) ← parse_string_chars rest; Some (JString s, rest)
          else if (c =? LBRACE)%N then
            match skip_ws rest with
            | c' :: rest' =>
                if (c' =? RBRACE)%N then Some (JObject [], rest')
                else '(ms, r) ← parse_members fuel (c' :: rest'); Some (JObject ms, r)
            | [] => None
            end
          else if (c =? LBRACKET)%N then
            match skip_ws rest with
            | c' :: rest' =>
                if (c' =? RBRACKET)%N then Some (JArray [], rest')
                else '(vs, r) ← parse_elements fuel (c' :: rest'); Some (JArray vs, r)
            | [] => None
            end
          else if (c =? 116)%N then
            r ← strip_prefix (lit "true") (c :: rest); Some (JBool true, r)
          else if (c =? 102)%N then
            r ← strip_prefix (lit "false") (c :: rest); Some (JBool false, r)
          else if (c =? 110)%N then
            r ← strip_prefix (lit "null") (c :: rest); Some (JNull, r)
          else
            '(n, r) ← parse_number (c :: rest); Some (JNumber n, r)
      end
  end
with parse_elements (fuel : nat) (x : js_string) : option (list json * js_string) :=
  match fuel with
  | O => None
  | S fuel =>
      '(v, r) ← parse_value fuel x;
      match skip_ws r with
      | c :: r' =>
          if (c =? COMMA)%N then cons_fst v <$> parse_elements fuel r'
          else if (c =? RBRACKET)%N then Some ([v], r')
          else None
      | [] => None
      end
  end
with parse_members (fuel : nat) (x : js_string)
    : option (list (js_string * json) * js_string) :=
  match fuel with
  | O => None
  | S fuel =>
      match skip_ws x with
      | c :: r =>
          if (c =? QUOTE)%N then
            '(name, r) ← parse_string_chars r;
            match skip_ws r with
            | c1 :: r1 =>
                if (c1 =? COLON)%N then
                  '(v, r2) ← parse_value fuel r1;
                  match skip_ws r2 with
                  | c2 :: r3 =>
                      if (c2 =? COMMA)%N
                      then cons_fst (name, v) <$> parse_members fuel r3
                      else if (c2 =? RBRACE)%N then Some ([(name, v)], r3)
                      else None
                  | [] => None
                  end
                else None
            | [] => None
            end
          else None
      | [] => None
      end
  end.

(** Every nested call consumes input, at most two calls per code unit:
    this fuel is enough for every text that has a parse at all. *)
Definition parse_fuel (x : js_string) : nat := 2 * length x + 2.

(** [JSON.parse(text)]: one value, then only white space.  [None] is the
    SyntaxError. *)
Definition JSON_parse (x : js_string) : option json :=
  '(v, r) ← parse_value (parse_fuel x) x;
  match skip_ws r with
  | [] => Some v
  | _ :: _ => None
  end.

(** [obj.name] for a value that came out of JSON.parse: the last member of
    that name for an object (a repeated name overwrites), [undefined]
    ([None]) when the object has no such member and for arrays, strings,
    numbers and booleans. *)
Definition get_property (name : js_string) (j : json) : option json :=
  match j with
  | JObject members =>
      fold_left (fun found m => if decide (m.1 = name) then Some m.2 else found)
                members None
  | _ => None
  end.

(** ** What JSON.parse hands to the script *)

(** A Number that a JSON text can denote: zero (the two zeros are the same
    Map key), [m * 2^e] with a sign, or an infinity.  For a finite number
    [2^52 <= m < 2^53] and [-1074 <= e <= 971], or [0 < m < 2^52] and
    [e = -1074]: every double has one representation. *)
Inductive double :=
  | DZero
  | DFinite (negative : bool) (m e : Z)
  | DInfinity (negative : bool).

Global Instance double_eq_dec : EqDecision double.
Proof. solve_decision. Defined.

Definition digits_value (ds : js_string) : Z :=
  fold_left (fun n c => (10 * n + (Z.of_N c - 48))%Z) ds 0%Z.

(** Sign, digits and decimal exponent of a number lexeme: the number is
    [digits * 10^exponent], negated when the sign is set. *)
Definition number_parts (lexeme : js_string) : bool * Z * Z :=
  let '(negative, x) :=
    match lexeme with
    | c :: rest => if (c =? 45)%N then (true, rest) else (false, lexeme)
    | [] => (false, [])
    end in
  let '(int, x) := take_digits x in
  let '(frac, x) :=
    match x with
    | c :: rest => if (c =? 46)%N then take_digits rest else ([], x)
    | [] => ([], [])
    end in
  let exp :=
    match x with
    | _ :: s :: rest =>
        if (s =? 45)%N then (- digits_value rest)%Z
        else if (s =? 43)%N then digits_value rest
        else digits_value (s :: rest)
    | _ => 0%Z
    end in
  (negative, digits_value (int ++ frac), (exp - Z.of_nat (length frac))%Z).

(** The double nearest to [digits * 10^exponent], ties to the even
    significand; beyond the largest double it is an infinity. *)
Definition round_to_double (negative : bool) (digits exponent : Z) : double :=
  (if digits =? 0 then DZero
   else
     let num := if 0 <=? exponent then digits * 10 ^ exponent else digits in
     let den := if 0 <=? exponent then 1 else 10 ^ (- exponent) in
     let l0 := Z.log2 num - Z.log2 den in
     let above :=
       if 0 <=? l0 then den * 2 ^ l0 <=? num else den <=? num * 2 ^ (- l0) in
     let l := if above then l0 else l0 - 1 in     (* 2^l <= num/den < 2^(l+1) *)
     let e := Z.max (l - 52) (-1074) in
     let n' := if e <? 0 then num * 2 ^ (- e) else num in
     let d' := if e <? 0 then den else den * 2 ^ e in
     let q := n' / d' in
     let r := n' mod d' in
     let m := if (d' <? 2 * r) || ((d' =? 2 * r) && Z.odd q) then q + 1 else q in
     let e' := if m =? 2 ^ 53 then e + 1 else e in
     let m' := if m =? 2 ^ 53 then 2 ^ 52 else m in
     if m' =? 0 then DZero
     else if 971 <? e' then DInfinity negative
     else DFinite negative m' e')%Z.

Definition number_value (lexeme : js_string) : double :=
  let '(negative, digits, exponent) := number_parts lexeme in
  round_to_double negative digits exponent.

(** The values the script can get hold of through JSON.parse. *)
Inductive value :=
  | VUndefined
  | VNull
  | VBool (b : bool)
  | VNumber (d : double)
  | VString (s : js_string)
  | VObject (j : json).      (* an array or an object, a new one for every parse *)

Definition value_of (j : json) : value :=
  match j with
  | JNull => VNull
  | JBool b => VBool b
  | JNumber lexeme => VNumber (number_value lexeme)
  | JString s => VString s
  | JArray _ | JObject _ => VObject j
  end.

(** [const { name } = j] *)
Definition member (name : js_string) (j : json) : value :=
  from_option value_of VUndefined (get_property name j).

(** SameValueZero, the comparison of Map keys.  Two objects are the same
    only if they are one object, and the script never uses an object out of
    JSON.parse as a key twice. *)
Definition same_value_zero (a b : value) : bool :=
  match a, b with
  | VUndefined, VUndefined => true
  | VNull, VNull => true
  | VBool x, VBool y => bool_decide (x = y)
  | VNumber x, VNumber y => bool_decide (x = y)
  | VString x, VString y => bool_decide (x = y)
  | _, _ => false
  end.

(** The Map as it is at run time: JSON.parse returns [any], so keys and
    values can be whatever a cache file holds. *)
Abbreviation AnyCache := (list (value * value)) (only parsing).

(** [Map.prototype.set] *)
Fixpoint any_set (k v : value) (m : AnyCache) : AnyCache :=
  match m with
  | [] => [(k, v)]
  | (k', v') :: m' =>
      if same_value_zero k k' then (k', v) :: m' else (k', v') :: any_set k v m'
  end.

(** An entry that fits the declared [Map<string, string>]. *)
Definition as_strings (e : value * value) : option (js_string * js_string) :=
  match e with
  | (VString k, VString v) => Some (k, v)
  | _ => None
  end.

Definition typed_cache (m : AnyCache) : option Cache := mapM as_strings m.

Definition untyped_cache (cache : Cache) : AnyCache :=
  map (fun e => (VString e.1, VString e.2)) cache.

(** ** The document assembler's sort (fetchAllContent, line 97) *)

Record Passage := { content : js_string; meta_position : option Z }.

Record File := { file_id : js_string; file_key : js_string }.

(** [(a, b) => (a.meta?.position ?? 0) - (b.meta?.position ?? 0)] *)
Definition position_or_0 (p : Passage) : Z := default 0%Z (meta_position p).

Definition compare_position (a b : Passage) : Z :=
  (position_or_0 a - position_or_0 b)%Z.

(** [Array.prototype.sort(cmp)].  The sort is stable (ECMAScript 2019), so
    for a consistent comparator the outcome does not depend on the
    algorithm; it is computed by insertion from the right, an element
    going in front of the first one that it does not exceed. *)
Fixpoint insert_sorted {A} (cmp : A -> A -> Z) (a : A) (xs : list A) : list A :=
  match xs with
  | [] => [a]
  | b :: rest =>
      if (cmp a b <=? 0)%Z then a :: xs else b :: insert_sorted cmp a rest
  end.

Definition js_sort {A} (cmp : A -> A -> Z) (xs : list A) : list A :=
  foldr (insert_sorted cmp) [] xs.

(** Lines 95-99: sort the passages, then [map(p => p.content).join("\n")]. *)
Definition assemble (passages : list Passage) : js_string :=
  join [LF] (map content (js_sort compare_position passages)).

(** ** The outside world and the state of a run *)

(** The calls to external services that have completed, with what the
    script sent. *)
Inductive Call :=
  | GetFile                                   (* client.getFile({ id: cacheKey }) *)
  | FetchText (url : js_string)               (* fetch(file.url).then(x => x.text()) *)
  | UploadFile (fileContent : js_string)      (* client.uploadFile({ key: cacheKey, ... }) *)
  | ListFiles                                 (* client.list.files({...}).collect() *)
  | FilePassages (id : js_string)             (* client.list.filePassages({ id }).collect() *)
  | Summarize (allContent : js_string)        (* zai.summarize *)
  | Extract (categoriesAsText : js_string)    (* zai.extract *)
  | Label (content : js_string) (candidates : gmap js_string js_string)   (* zai.label *)
  | UpdateFileMetadata (id : js_string) (categories : list (js_string * js_string)).

(** What the services answer; [None] is a rejected promise.  An answer may
    depend on the calls completed so far. *)
Record World := {
  getFile : list Call -> option js_string;
  fetchText : list Call -> js_string -> option js_string;
  uploadFile : list Call -> js_string -> option unit;
  listFiles : list Call -> option (list File);
  filePassages : list Call -> js_string -> option (list Passage);
  summarize : list Call -> js_string -> nat -> option js_string;
  extract : list Call -> js_string -> option (list js_string);
  label : list Call -> js_string -> gmap js_string js_string
          -> option (gmap js_string bool);
  updateFileMetadata : list Call -> js_string -> list (js_string * js_string)
                       -> option unit
}.

(** The console.log lines of the script. *)
Inductive Message :=
  | CacheSaved (items : nat)
  | CacheRestored (items : nat)
  | TotalFiles (n : nat)
  | ReachedMaxFiles
  | ProcessingFile (fileCount total : nat) (key : js_string)
  | AlreadyProcessed (key : js_string)
  | ProcessedNewFiles (n : nat)
  | FoundCategories (categories : list js_string)
  | FileLabels (key : js_string) (labelsToApply : gmap js_string bool).

Record Store (C : Type) := {
  fileContentCache : C;         (* the module-level Map *)
  calls : list Call;            (* oldest first *)
  console : list Message        (* oldest first *)
}.
Arguments Build_Store {C} _ _ _.
Arguments fileContentCache {C} _.
Arguments calls {C} _.
Arguments console {C} _.

(** The store as the script declares it, with a [Map<string, string>]. *)
Abbreviation State := (Store Cache) (only parsing).

Inductive Error := SyntaxError | TypeError | ServiceError.

(** How a piece of the script ends.  [IllTyped] is where the model of the
    typed script stops: the piece has ended, and the Map of the store it
    leaves holds a key or a value that is not a string. *)
Inductive Outcome (C A : Type) :=
  | Ok (a : A) (s : Store C)
  | Thrown (e : Error) (s : Store C)
  | IllTyped (u : Store AnyCache).
Arguments Ok {C A} a s.
Arguments Thrown {C A} e s.
Arguments IllTyped {C A} u.

Abbreviation Result A := (Outcome Cache A) (only parsing).

Definition Script (C A : Type) : Type := Store C -> Outcome C A.

Definition M (A : Type) : Type := Script Cache A.

Definition ret {C A} (a : A) : Script C A := fun s => Ok a s.

Definition bind {C A B} (m : Script C A) (k : A -> Script C B) : Script C B :=
  fun s =>
    match m s with
    | Ok a s' => k a s'
    | Thrown e s' => Thrown e s'
    | IllTyped u => IllTyped u
    end.

Notation "'let*' x ':=' m 'in' k" := (bind m (fun x => k))
  (at level 10, x name, m at level 100, k at level 200).
Notation "m '>>' k" := (bind m (fun _ => k))
  (at level 100, k at level 200, right associativity).

Definition throw {C A} (e : Error) : Script C A := fun s => Thrown e s.

(** [try { m } catch {}] *)
Definition try_catch {C} (m : Script C unit) : Script C unit :=
  fun s =>
    match m s with
    | Thrown _ s' => Ok tt s'
    | r => r
    end.

Definition with_cache {C D} (cache : D) (s : Store C) : Store D :=
  {| fileContentCache := cache; calls := calls s; console := console s |}.

Definition add_call {C} (c : Call) (s : Store C) : Store C :=
  {| fileContentCache := fileContentCache s;
     calls := calls s ++ [c]; console := console s |}.

Definition add_message {C} (m : Message) (s : Store C) : Store C :=
  {| fileContentCache := fileContentCache s;
     calls := calls s; console := console s ++ [m] |}.

Definition get_cache {C} : Script C C := fun s => Ok (fileContentCache s) s.

(** [fileContentCache.set(key, content)] *)
Definition cache_set (key content : js_string) : M unit :=
  fun s => Ok tt (with_cache (map_set key content (fileContentCache s)) s).

Definition console_log {C} (m : Message) : Script C unit :=
  fun s => Ok tt (add_message m s).

(** [await] on an external call. *)
Definition external {C A} (answer : list Call -> option A) (c : Call)
    : Script C A :=
  fun s =>
    match answer (calls s) with
    | Some a => Ok a (add_call c s)
    | None => Thrown ServiceError s
    end.

(** A store with a well-typed Map, seen as any store, and back. *)
Definition untyped (s : State) : Store AnyCache :=
  with_cache (untyped_cache (fileContentCache s)) s.

Definition typed (u : Store AnyCache) : option State :=
  cache ← typed_cache (fileContentCache u); Some (with_cache cache u).

(** A piece of the script that works on any Map, run from a well-typed
    store. *)
Definition in_types {A} (m : Script AnyCache A) : M A :=
  fun s =>
    match m (untyped s) with
    | Ok a u => match typed u with Some s' => Ok a s' | None => IllTyped u end
    | Thrown e u =>
        match typed u with Some s' => Thrown e s' | None => IllTyped u end
    | IllTyped u => IllTyped u
    end.

Definition MAX_CATEGORIES : nat := 250.
Definition MAX_FILES_TO_PROCESS : nat := 100.

(** ** saveCache (lines 23-35) *)

Definition cache_file_content (cache : Cache) : js_string :=
  join [LF] (map stringify_entry cache).

Definition saveCache (w : World) : M unit :=
  let* cache := get_cache in
  let fileContent := cache_file_content cache in
  external (fun h => uploadFile w h fileContent) (UploadFile fileContent) >>
  console_log (CacheSaved (length cache)).

(** ** restoreCache (lines 38-56) *)

(** What one non-empty line does (lines 47-48): JSON.parse throws, or the
    destructuring of null throws, or the Map takes the two members, each
    [undefined] when the parsed value has no such member. *)
Inductive LineEffect :=
  | LineSet (key content : value)
  | LineThrows (e : Error).

Definition line_effect (line : js_string) : LineEffect :=
  match JSON_parse line with
  | None => LineThrows SyntaxError
  | Some JNull => LineThrows TypeError          (* destructuring null *)
  | Some j => LineSet (member (lit "key") j) (member (lit "content") j)
  end.

(** The function as it runs, on a Map of any values. *)
Module Any.

(** [fileContentCache.set(key, content)] *)
Definition cache_set (key content : value) : Script AnyCache unit :=
  fun u => Ok tt (with_cache (any_set key content (fileContentCache u)) u).

Fixpoint restore_lines (lines : list js_string) : Script AnyCache unit :=
  match lines with
  | [] => ret tt
  | line :: rest =>
      (if truthy line then
         match line_effect line with
         | LineSet key content => cache_set key content
         | LineThrows e => throw e
         end
       else ret tt) >>
      restore_lines rest
  end.

Definition restoreCache (w : World) : Script AnyCache unit :=
  try_catch
    (let* url := external (getFile w) GetFile in
     let* x := external (fun h => fetchText w h url) (FetchText url) in
     restore_lines (split_lines x) >>
     let* cache := get_cache in
     console_log (CacheRestored (length cache))).

End Any.

(** restoreCache in the typed script: the store it leaves goes on to the
    other functions if its Map still is a [Map<string, string>]. *)
Definition restoreCache (w : World) : M unit := in_types (Any.restoreCache w).

(** ** fetchAllContent (lines 58-111) *)

(** The [for (const file of files)] loop; it returns [newProcessedFiles]. *)
Fixpoint ingest_loop (w : World) (total : nat) (files : list File)
    (fileCount newProcessedFiles : nat) : M nat :=
  match files with
  | [] => ret newProcessedFiles
  | file :: rest =>
      let fileCount := S fileCount in
      if MAX_FILES_TO_PROCESS <? fileCount then
        console_log ReachedMaxFiles >> ret newProcessedFiles       (* break *)
      else
        console_log (ProcessingFile fileCount total (file_key file)) >>
        let* cache := get_cache in
        if map_has (file_key file) cache then
          console_log (AlreadyProcessed (file_key file)) >>
          ingest_loop w total rest fileCount newProcessedFiles     (* continue *)
        else
          let* passages :=
            external (fun h => filePassages w h (file_id file))
                     (FilePassages (file_id file)) in
          cache_set (file_key file) (assemble passages) >>
          (if newProcessedFiles mod 10 =? 0 then saveCache w else ret tt) >>
          ingest_loop w total rest fileCount (S newProcessedFiles)
  end.

Definition fetchAllContent (w : World) : M unit :=
  let* files := external (listFiles w) ListFiles in
  console_log (TotalFiles (length files)) >>
  let* newProcessedFiles := ingest_loop w (length files) files 0 0 in
  if 0 <? newProcessedFiles then
    console_log (ProcessedNewFiles newProcessedFiles) >> saveCache w
  else ret tt.

(** ** generateListOfCategories (lines 113-138) *)

(** MAX_CATEGORIES only appears in the format and the prompt sent to the
    summariser. *)
Definition generateListOfCategories (w : World) : M (list js_string) :=
  let* cache := get_cache in
  let allContent := join [LF] (map snd cache) in
  let* categoriesAsText :=
    external (fun h => summarize w h allContent MAX_CATEGORIES)
             (Summarize allContent) in
  let* categoriesAsArray :=
    external (fun h => extract w h categoriesAsText) (Extract categoriesAsText) in
  let categories := List.filter truthy (map trim categoriesAsArray) in
  console_log (FoundCategories categories) >>
  ret categories.

(** ** labelFilesFromCategories (lines 140-162) *)

(** [categories.map(x => [slug(x), x])] *)
Definition candidate_labels (categories : list js_string)
    : list (js_string * js_string) :=
  map (fun x => (slug x, x)) categories.

(** [Object.fromEntries]: a later entry overwrites an earlier one with the
    same property name. *)
Definition fromEntries (entries : list (js_string * js_string))
    : gmap js_string js_string :=
  fold_left (fun obj e => <[e.1 := e.2]> obj) entries ∅.

Fixpoint label_loop (w : World) (categories : list js_string)
    (entries : list (js_string * js_string)) : M unit :=
  match entries with
  | [] => ret tt
  | (key, content) :: rest =>
      let labels := candidate_labels categories in
      let* labelsToApply :=
        external (fun h => label w h content (fromEntries labels))
                 (Label content (fromEntries labels)) in
      console_log (FileLabels key labelsToApply) >>
      (if 0 <? length labels then
         external (fun h => updateFileMetadata w h key labels)
                  (UpdateFileMetadata key labels)
       else ret tt) >>
      label_loop w categories rest
  end.

Definition labelFilesFromCategories (w : World) (categories : list js_string)
    : M unit :=
  let* cache := get_cache in
  label_loop w categories cache.

(** ** main (lines 164-169) *)

Definition main (w : World) : M unit :=
  restoreCache w >>
  fetchAllContent w >>
  let* categories := generateListOfCategories w in
  labelFilesFromCategories w categories.

Definition initial_state : State :=
  {| fileContentCache := []; calls := []; console := [] |}.

(** ** Example worlds *)

(** A world in which every service fails. *)
Definition silent_world : World :=
  {| getFile := fun _ => None;
     fetchText := fun _ _ => None;
     uploadFile := fun _ _ => None;
     listFiles := fun _ => None;
     filePassages := fun _ _ => None;
     summarize := fun _ _ _ => None;
     extract := fun _ _ => None;
     label := fun _ _ _ => None;
     updateFileMetadata := fun _ _ _ => None |}.

(** The summariser answers, and the extraction capability returns
    [names], whatever text it is given. *)
Definition extracting_world (names : list js_string) : World :=
  {| getFile := getFile silent_world;
     fetchText := fetchText silent_world;
     uploadFile := uploadFile silent_world;
     listFiles := listFiles silent_world;
     filePassages := filePassages silent_world;
     summarize := fun _ _ _ => Some [];
     extract := fun _ _ => Some names;
     label := label silent_world;
     updateFileMetadata := updateFileMetadata silent_world |}.

(** The state a result ends in; of a store that is not well typed, the
    entries that are. *)
Definition final_state {A} (r : Result A) : State :=
  match r with
  | Ok _ s => s
  | Thrown _ s => s
  | IllTyped u => with_cache (omap as_strings (fileContentCache u)) u
  end.


(** The metadata writes among completed calls: file id and the value put
    under [categories]. *)
Definition metadata_writes (cs : list Call)
    : list (js_string * list (js_string * js_string)) :=
  omap (fun c => match c with
                 | UpdateFileMetadata id categories => Some (id, categories)
                 | _ => None
                 end) cs.

(** The labeller selects nothing, every metadata write succeeds. *)
Definition unselective_world : World :=
  {| getFile := getFile silent_world;
     fetchText := fetchText silent_world;
     uploadFile := uploadFile silent_world;
     listFiles := listFiles silent_world;
     filePassages := filePassages silent_world;
     summarize := summarize silent_world;
     extract := extract silent_world;
     label := fun _ _ _ => Some ∅;
     updateFileMetadata := fun _ _ _ => Some tt |}.

(** The calls one cached document costs the labelling driver when nothing
    fails: one labelling request and, when there are candidates, one
    metadata write. *)
Definition label_step_calls (categories : list js_string)
    (e : js_string * js_string) : list Call :=
  let labels := candidate_labels categories in
  Label e.2 (fromEntries labels)
  :: (if 0 <? length labels then [UpdateFileMetadata e.1 labels] else []).

Definition is_Ok {A} (r : Result A) : Prop :=
  match r with Ok _ _ => True | _ => False end.


(** ** Observing an ingestion run *)

(** The two calls that matter for durability: a document's passages were
    fetched (it is then assembled and put in the cache), the cache was
    uploaded. *)
Inductive Checkpoint := Assembled | Persisted.

Global Instance Checkpoint_eq_dec : EqDecision Checkpoint.
Proof. solve_decision. Defined.

Definition cadence (cs : list Call) : list Checkpoint :=
  omap (fun c => match c with
                 | FilePassages _ => Some Assembled
                 | UploadFile _ => Some Persisted
                 | _ => None
                 end) cs.

(** The cadence of the loop over [n] new documents when [already]
    documents were newly processed before them: an upload follows a
    document when the count before it is a multiple of 10. *)
Fixpoint checkpoints (already n : nat) : list Checkpoint :=
  match n with
  | 0 => []
  | S n' =>
      Assembled :: (if already mod 10 =? 0 then [Persisted] else [])
      ++ checkpoints (S already) n'
  end.

(** Documents assembled since the last upload. *)
Fixpoint unsaved_from (u : nat) (l : list Checkpoint) : nat :=
  match l with
  | [] => u
  | Assembled :: l' => unsaved_from (S u) l'
  | Persisted :: l' => unsaved_from 0 l'
  end.

Definition unsaved (l : list Checkpoint) : nat := unsaved_from 0 l.

(** Is the [k]-th assembled document (counting from 1) directly followed
    by an upload? *)
Fixpoint persisted_after (k : nat) (l : list Checkpoint) : bool :=
  match l with
  | [] => false
  | Persisted :: l' => persisted_after k l'
  | Assembled :: l' =>
      match k with
      | 0 => false
      | 1 => match l' with Persisted :: _ => true | _ => false end
      | S k' => persisted_after k' l'
      end
  end.

(** The cadence as the specification words it: an upload directly follows
    every [n]-th assembled document. *)
Definition persists_after_every_nth (n : nat) (l : list Checkpoint) : Prop :=
  forall k, 1 <= k -> k mod n = 0 ->
            k <= length (filter (fun c => c = Assembled) l) ->
            persisted_after k l = true.

(** The keys of the documents the loop announced ("Processing file ..."). *)
Definition processing_keys (ms : list Message) : list js_string :=
  omap (fun m => match m with
                 | ProcessingFile _ _ key => Some key
                 | _ => None
                 end) ms.

(** Two results that differ at most in what was printed. *)
Definition same_effects {A} (r1 r2 : Result A) : Prop :=
  match r1, r2 with
  | Ok a1 s1, Ok a2 s2 =>
      a1 = a2 /\ fileContentCache s1 = fileContentCache s2 /\ calls s1 = calls s2
  | Thrown e1 s1, Thrown e2 s2 =>
      e1 = e2 /\ fileContentCache s1 = fileContentCache s2 /\ calls s1 = calls s2
  | IllTyped s1, IllTyped s2 =>
      fileContentCache s1 = fileContentCache s2 /\ calls s1 = calls s2
  | _, _ => False
  end.

(** The world [w] with a content store that lists [files]. *)
Definition with_listing (files : list File) (w : World) : World :=
  {| getFile := getFile w;
     fetchText := fetchText w;
     uploadFile := uploadFile w;
     listFiles := fun _ => Some files;
     filePassages := filePassages w;
     summarize := summarize w;
     extract := extract w;
     label := label w;
     updateFileMetadata := updateFileMetadata w |}.

(** [n] documents; document [i] has the one-unit string [i] as id and key. *)
Definition numbered_files (n : nat) : list File :=
  map (fun i => {| file_id := [N.of_nat i]; file_key := [N.of_nat i] |}) (seq 0 n).

(** A content store with [n] documents of two passages each, and a blob
    store that accepts every upload. *)
Definition steady_world (n : nat) : World :=
  {| getFile := getFile silent_world;
     fetchText := fetchText silent_world;
     uploadFile := fun _ _ => Some tt;
     listFiles := fun _ => Some (numbered_files n);
     filePassages := fun _ id =>
       Some [ {| content := lit "b"; meta_position := Some 1%Z |};
              {| content := id; meta_position := None |} ];
     summarize := summarize silent_world;
     extract := extract silent_world;
     label := label silent_world;
     updateFileMetadata := updateFileMetadata silent_world |}.


(** A blob store that holds the text [x] under the cache key. *)
Definition blob_world (x : js_string) : World :=
  {| getFile := fun _ => Some (lit "https://files.example/cache");
     fetchText := fun _ _ => Some x;
     uploadFile := uploadFile silent_world;
     listFiles := listFiles silent_world;
     filePassages := filePassages silent_world;
     summarize := summarize silent_world;
     extract := extract silent_world;
     label := label silent_world;
     updateFileMetadata := updateFileMetadata silent_world |}.

(** A cache with a line break, a quote, a backslash, a control character
    and a lone surrogate in its texts. *)
Definition sample_cache : Cache :=
  [ (lit "doc-1", lit "first line" ++ [LF] ++ lit "second " ++ [QUOTE; BACKSLASH; 1%N]);
    (lit "doc-2", [55357%N; 56832%N; 56832%N]) ].

(** A blob whose first line is a record and whose second line is cut off. *)
Definition damaged_blob : js_string :=
  stringify_entry (lit "a", lit "b") ++ [LF] ++ lit "{oops".

(** ** Footprint of the ingestion loop *)

(** A call the loop may make on behalf of the documents [considered],
    given the cache it started from. *)
Definition loop_call (considered : list File) (cache : list (list N * list N))
    (c : Call) : Prop :=
  (exists f, f ∈ considered /\ map_has (file_key f) cache = false
             /\ c = FilePassages (file_id f))
  \/ exists fileContent, c = UploadFile fileContent.

Definition loop_entry (considered : list File) (cache : list (list N * list N))
    (e : list N * list N) : Prop :=
  exists f, f ∈ considered /\ e.1 = file_key f /\ map_has e.1 cache = false.

(** ** Lines of the cache file *)

(** A text without line feed. *)
Definition no_LF (x : list N) : Prop := Forall (fun c => c <> LF) x.

(** [fileContentCache.set] of one entry. *)
Definition set_entry (m : list (list N * list N)) (e : list N * list N) :=
  map_set e.1 e.2 m.

Definition any_set_entry (m : list (value * value)) (e : value * value) :=
  any_set e.1 e.2 m.

(** The entry a line puts into the Map: none for an empty line and for a
    line that throws. *)
Definition line_entry (line : js_string) : option (value * value) :=
  if truthy line then
    match line_effect line with
    | LineSet key content => Some (key, content)
    | LineThrows _ => None
    end
  else None.

Definition line_entries (lines : list js_string) : list (value * value) :=
  omap line_entry lines.

(** A non-empty line that is not JSON, or is null. *)
Definition line_throws (line : js_string) : bool :=
  truthy line
  && match line_effect line with LineThrows _ => true | LineSet _ _ => false end.

(** The loop over the lines as a function on the Map: the Map it leaves
    and, if a line throws, the exception. *)
Fixpoint run_lines (lines : list js_string) (m : list (value * value))
    : list (value * value) * option Error :=
  match lines with
  | [] => (m, None)
  | line :: rest =>
      if truthy line then
        match line_effect line with
        | LineSet key content => run_lines rest (any_set key content m)
        | LineThrows e => (m, Some e)
        end
      else run_lines rest m
  end.

(** A blob whose first line is an object without members and whose second
    line is cut off. *)
Definition memberless_blob : js_string := lit "{}" ++ [LF] ++ lit "{oops".


(** ** The shape of a slug *)

(** No two underscores in a row. *)
Fixpoint no_double_underscore (x : js_string) : bool :=
  match x with
  | [] => true
  | c :: rest =>
      match rest with
      | d :: _ =>
          negb ((c =? UNDERSCORE) && (d =? UNDERSCORE))%N
          && no_double_underscore rest
      | [] => true
      end
  end.

(** Only A-Z, a-z, 0-9 and single underscores. *)
Definition slug_shaped (x : js_string) : bool :=
  forallb (fun c => is_alnum c || (c =? UNDERSCORE)%N) x
  && no_double_underscore x.


(** A name of white space only (or of nothing). *)
Definition blank (x : js_string) : bool := forallb is_white_space x.


(** A saved cache file after an editor turned its line ends into CR LF
    and added a final line end. *)
Definition crlf_blob : js_string :=
  stringify_entry (lit "a", lit "b") ++ [13%N; LF]
  ++ stringify_entry (lit "c", lit "d") ++ [13%N; LF].


(** ** Checkpoints as resume points *)

(** An upload made while the cache grew from [lo] to [hi] carries the file
    of a cache in between. *)
Definition upload_between (lo hi : list (list N * list N)) (c : Call) : Prop :=
  forall t, c = UploadFile t ->
    exists snap, t = cache_file_content snap
                 /\ lo `prefix_of` snap /\ snap `prefix_of` hi.


(** The ids of the documents whose passages were fetched, oldest first. *)
Definition fetched_ids (cs : list Call) : list js_string :=
  omap (fun c => match c with FilePassages id => Some id | _ => None end) cs.

(** The cache entry made of a document and its passages (line 101). *)
Definition entry_of (fp : File * list Passage) : js_string * js_string :=
  (file_key fp.1, assemble fp.2).


(** ** What the uploads of a run carry *)

(** The calls of the loop that fetches the documents [fetched] one after
    the other, from the cache [cache] and with [already] documents newly
    processed before: every document costs a passage request, and when the
    count before it is a multiple of 10 an upload of the cache with the
    document in it. *)
Fixpoint loop_trace (cache : Cache) (already : nat)
    (fetched : list (File * list Passage)) : list Call :=
  match fetched with
  | [] => []
  | fp :: rest =>
      let cache' := cache ++ [entry_of fp] in
      FilePassages (file_id fp.1)
      :: (if already mod 10 =? 0
          then [UploadFile (cache_file_content cache')] else [])
      ++ loop_trace cache' (S already) rest
  end.

(** The file that the last upload among [cs] carried; [prev] when there is
    none. *)
Definition last_upload_from (prev : option js_string) (cs : list Call)
    : option js_string :=
  fold_left (fun found c => match c with UploadFile t => Some t | _ => found end)
            cs prev.

Definition last_upload (cs : list Call) : option js_string :=
  last_upload_from None cs.


(** The labelling requests among completed calls: the text and the
    candidate object sent. *)
Definition label_requests (cs : list Call)
    : list (js_string * gmap js_string js_string) :=
  omap (fun c => match c with
                 | Label content candidates => Some (content, candidates)
                 | _ => None
                 end) cs.


(** A world in which a whole run completes: no cache file yet, two
    documents, every upload and metadata write accepted, two categories
    extracted, nothing selected by the labeller. *)
Definition complete_world : World :=
  {| getFile := fun _ => None;
     fetchText := fun _ _ => None;
     uploadFile := fun _ _ => Some tt;
     listFiles := fun _ => Some (numbered_files 2);
     filePassages := filePassages (steady_world 2);
     summarize := fun _ _ _ => Some (lit "- Billing & Invoices");
     extract := fun _ _ => Some [lit " Billing & Invoices "; lit "API"];
     label := fun _ _ _ => Some ∅;
     updateFileMetadata := fun _ _ _ => Some tt |}.

(** * Properties *)

(** ** Comparisons on code units *)

Lemma alnum_not_underscore c : is_alnum c = true -> c <> UNDERSCORE.
Proof.
  unfold is_alnum, in_range, UNDERSCORE. intros H ->. discriminate H.
Qed.

(** ** Slugs *)

Lemma collapse_cons_other c x :
  c <> UNDERSCORE -> collapse_underscores (c :: x) = c :: collapse_underscores x.
Proof.
  intros Hc. destruct x as [|d x]; [done|].
  change (collapse_underscores (c :: d :: x))
    with (if ((c =? UNDERSCORE) && (d =? UNDERSCORE))%N
          then collapse_underscores (d :: x)
          else c :: collapse_underscores (d :: x)).
  destruct (N.eqb_spec c UNDERSCORE); [done|reflexivity].
Qed.

Lemma collapse_cons_next c d x :
  d <> UNDERSCORE ->
  collapse_underscores (c :: d :: x) = c :: collapse_underscores (d :: x).
Proof.
  intros Hd.
  change (collapse_underscores (c :: d :: x))
    with (if ((c =? UNDERSCORE) && (d =? UNDERSCORE))%N
          then collapse_underscores (d :: x)
          else c :: collapse_underscores (d :: x)).
  destruct (N.eqb_spec d UNDERSCORE); [done|]. by rewrite andb_false_r.
Qed.

Lemma collapse_cons_run x :
  collapse_underscores (UNDERSCORE :: UNDERSCORE :: x)
  = collapse_underscores (UNDERSCORE :: x).
Proof. reflexivity. Qed.

Lemma slug_runs_aux x :
  collapse_runs false x = collapse_underscores (replace_non_alnum x)
  /\ UNDERSCORE :: collapse_runs true x
     = collapse_underscores (UNDERSCORE :: replace_non_alnum x).
Proof.
  induction x as [|c x [IH1 IH2]]; [done|].
  assert (H1 : collapse_runs false (c :: x)
               = collapse_underscores (replace_non_alnum (c :: x))).
  { unfold replace_non_alnum. cbn [collapse_runs map].
    destruct (is_alnum c) eqn:Hc.
    - rewrite collapse_cons_other by by apply alnum_not_underscore.
      by rewrite IH1.
    - exact IH2. }
  split; [exact H1|].
  unfold replace_non_alnum in *. cbn [collapse_runs map].
  destruct (is_alnum c) eqn:Hc.
  - rewrite collapse_cons_next by by apply alnum_not_underscore.
    rewrite collapse_cons_other by by apply alnum_not_underscore.
    by rewrite IH1.
  - by rewrite collapse_cons_run.
Qed.

Lemma slug_is_slug_by_runs x : slug x = slug_by_runs x.
Proof. symmetry. apply slug_runs_aux. Qed.

Lemma underscore_not_alnum : is_alnum UNDERSCORE = false.
Proof. reflexivity. Qed.

Lemma collapse_runs_twice x :
  collapse_runs false (collapse_runs false x) = collapse_runs false x
  /\ collapse_runs true (collapse_runs true x) = collapse_runs true x.
Proof.
  induction x as [|c x [IH1 IH2]]; [done|].
  cbn [collapse_runs]. destruct (is_alnum c) eqn:Hc.
  - cbn [collapse_runs]. rewrite Hc, IH1. done.
  - cbn [collapse_runs]. rewrite underscore_not_alnum, IH2. done.
Qed.

(** C9. The slug of a category name is the name with every maximal run of
    code units outside A-Z, a-z, 0-9 replaced by one underscore; taking
    the slug of a slug changes nothing; and "Billing & Invoices" has the
    slug "Billing_Invoices". *)
Theorem slug_idempotent :
  (forall x, slug x = slug_by_runs x)
  /\ (forall x, slug (slug x) = slug x)
  /\ slug (lit "Billing & Invoices") = lit "Billing_Invoices".
Proof.
  split; [exact slug_is_slug_by_runs|]. split; [|reflexivity].
  intros x. rewrite !slug_is_slug_by_runs. apply collapse_runs_twice.
Qed.

(** ** The sort of the assembler *)

Section sort_by_key.
Context {A : Type} (key : A -> Z).

Let cmp (a b : A) : Z := (key a - key b)%Z.
Let le_key (a b : A) : Prop := (key a <= key b)%Z.

Lemma insert_sorted_perm a xs : insert_sorted cmp a xs ≡ₚ a :: xs.
Proof.
  induction xs as [|b xs IH]; [done|]. cbn [insert_sorted].
  destruct (cmp a b <=? 0)%Z; [done|]. rewrite IH. apply Permutation_swap.
Qed.

Lemma js_sort_perm xs : js_sort cmp xs ≡ₚ xs.
Proof.
  induction xs as [|a xs IH]; [done|].
  unfold js_sort in *. cbn [foldr]. rewrite insert_sorted_perm. by f_equiv.
Qed.

Lemma insert_sorted_sorted a xs :
  StronglySorted le_key xs -> StronglySorted le_key (insert_sorted cmp a xs).
Proof.
  induction 1 as [|b xs Hs IH Hb]; cbn [insert_sorted].
  - repeat constructor.
  - unfold cmp at 1. destruct (Z.leb_spec (key a - key b) 0).
    + constructor; [by constructor|]. constructor; [unfold le_key; lia|].
      eapply Forall_impl; [exact Hb|]. unfold le_key. intros; lia.
    + constructor; [exact IH|]. rewrite insert_sorted_perm.
      constructor; [unfold le_key; lia|done].
Qed.

Lemma js_sort_sorted xs : StronglySorted le_key (js_sort cmp xs).
Proof.
  induction xs as [|a xs IH]; [constructor|].
  unfold js_sort in *. cbn [foldr]. by apply insert_sorted_sorted.
Qed.

(** Stability: an element goes in front of the elements that share its
    key, and insertion does not disturb the other keys. *)
Lemma insert_sorted_filter k a xs :
  filter (fun x => key x = k) (insert_sorted cmp a xs)
  = filter (fun x => key x = k) (a :: xs).
Proof.
  induction xs as [|b xs IH]; [done|]. cbn [insert_sorted].
  unfold cmp at 1. destruct (Z.leb_spec (key a - key b) 0); [done|].
  rewrite filter_cons, IH, !filter_cons.
  destruct (decide (key b = k)), (decide (key a = k)); try done. lia.
Qed.

Lemma js_sort_stable k xs :
  filter (fun x => key x = k) (js_sort cmp xs) = filter (fun x => key x = k) xs.
Proof.
  induction xs as [|a xs IH]; [done|].
  unfold js_sort in *. cbn [foldr].
  by rewrite insert_sorted_filter, !filter_cons, IH.
Qed.
End sort_by_key.

(** C3. The assembled text is the newline-joined contents of the passages
    put in an order that (a) is a rearrangement of the fetched
    passages, (b) is ascending in position, a missing position counting as
    0, and (c) keeps passages of equal position in their fetched order.
    Positions 2, 0, 1 with contents c, a, b give the text a, b, c on three
    lines, and a passage without position stays in front of a later one
    with position 0. *)
Theorem assemble_stable_by_position :
  (forall passages,
     let sorted := js_sort compare_position passages in
     assemble passages = join [LF] (map content sorted)
     /\ sorted ≡ₚ passages
     /\ StronglySorted (fun a b => (position_or_0 a <= position_or_0 b)%Z) sorted
     /\ forall k, filter (fun p => position_or_0 p = k) sorted
                  = filter (fun p => position_or_0 p = k) passages)
  /\ assemble [ {| content := lit "c"; meta_position := Some 2%Z |};
                {| content := lit "a"; meta_position := Some 0%Z |};
                {| content := lit "b"; meta_position := Some 1%Z |} ]
     = lit "a" ++ [LF] ++ lit "b" ++ [LF] ++ lit "c"
  /\ assemble [ {| content := lit "x"; meta_position := None |};
                {| content := lit "y"; meta_position := Some 0%Z |} ]
     = lit "x" ++ [LF] ++ lit "y".
Proof.
  split; [|split; reflexivity].
  intros passages sorted. subst sorted. split; [reflexivity|].
  split; [apply (js_sort_perm position_or_0)|].
  split; [apply (js_sort_sorted position_or_0)|].
  intros k. apply (js_sort_stable position_or_0).
Qed.

(** ** Trimming *)

Lemma trim_start_fixed c x :
  is_white_space c = false -> trim_start (c :: x) = c :: x.
Proof. intros H. cbn. by rewrite H. Qed.

Lemma trim_start_head x :
  trim_start x = [] \/ exists c y, trim_start x = c :: y /\ is_white_space c = false.
Proof.
  induction x as [|c x IH]; [by left|]. cbn.
  destruct (is_white_space c) eqn:Hc; [exact IH|]. right. by exists c, x.
Qed.

(** Stripping from the front leaves the last code unit alone. *)
Lemma trim_start_snoc x c :
  is_white_space c = false -> trim_start (x ++ [c]) = trim_start x ++ [c].
Proof.
  intros Hc. induction x as [|d x IH]; cbn.
  - by rewrite Hc.
  - destruct (is_white_space d); [exact IH|done].
Qed.

Lemma trim_start_idem x : trim_start (trim_start x) = trim_start x.
Proof.
  destruct (trim_start_head x) as [->|(c & y & -> & Hc)]; [done|].
  by apply trim_start_fixed.
Qed.

(** Stripping the end of a string keeps its start stripped. *)
Lemma trim_end_keeps_start x :
  trim_start x = x -> trim_start (rev (trim_start (rev x))) = rev (trim_start (rev x)).
Proof.
  destruct x as [|c x]; [done|]. cbn [trim_start].
  destruct (is_white_space c) eqn:Hc.
  - intros H. exfalso. destruct (trim_start_head x) as [E|(d & y & E & Hd)];
      rewrite E in H; [done|]. inversion H; subst. congruence.
  - intros _. cbn [rev]. rewrite trim_start_snoc by done.
    rewrite rev_unit. by apply trim_start_fixed.
Qed.

Lemma trim_idem x : trim (trim x) = trim x.
Proof.
  unfold trim at 1.
  assert (H : trim_start (trim x) = trim x).
  { unfold trim. apply trim_end_keeps_start, trim_start_idem. }
  rewrite H. unfold trim. by rewrite rev_involutive, trim_start_idem.
Qed.

Lemma truthy_nonempty x : truthy x = true <-> x <> [].
Proof. by destruct x. Qed.

(** ** generateListOfCategories *)

Lemma kept_categories_trimmed names :
  Forall (fun c => c <> [] /\ trim c = c) (List.filter truthy (map trim names)).
Proof.
  apply List.Forall_forall. intros c [Hin Ht]%List.filter_In.
  apply truthy_nonempty in Ht. split; [done|].
  apply List.in_map_iff in Hin as (n & <- & _). apply trim_idem.
Qed.

Lemma filter_length_le {A} (f : A -> bool) xs :
  length (List.filter f xs) <= length xs.
Proof.
  induction xs as [|a xs IH]; [done|]. cbn. destruct (f a); cbn; lia.
Qed.

(** C1, as amended.  When the summariser and the extraction capability
    answer, generateListOfCategories returns the extracted names trimmed,
    in their order, without the ones that are empty after trimming: every
    returned entry is non-empty and is its own trimmed form, and the
    returned list is at most as long as the list of extracted records.  It
    is within MAX_CATEGORIES whenever the extraction capability returned
    at most MAX_CATEGORIES records; nothing is cut off. *)
Theorem categories_trimmed_not_truncated w s text names :
  let allContent := join [LF] (map snd (fileContentCache s)) in
  summarize w (calls s) allContent MAX_CATEGORIES = Some text ->
  extract w (calls s ++ [Summarize allContent]) text = Some names ->
  let categories := List.filter truthy (map trim names) in
  (exists s', generateListOfCategories w s = Ok categories s')
  /\ Forall (fun c => c <> [] /\ trim c = c) categories
  /\ length categories <= length names
  /\ (length names <= MAX_CATEGORIES -> length categories <= MAX_CATEGORIES).
Proof.
  intros allContent Hsum Hext categories. split; [|split; [|split]].
  - unfold generateListOfCategories, bind, get_cache, external, console_log, ret.
    cbn. fold allContent. rewrite Hsum. cbn. rewrite Hext. cbn. eauto.
  - apply kept_categories_trimmed.
  - subst categories. etrans; [apply filter_length_le|]. by rewrite length_map.
  - intros H. subst categories. etrans; [apply filter_length_le|].
    by rewrite length_map.
Qed.

Lemma categories_trimmed_not_truncated_witness :
  (exists s', generateListOfCategories
                (extracting_world [lit " billing "; lit "  "; lit "api"])
                initial_state
              = Ok [lit "billing"; lit "api"] s')
  /\ length [lit "billing"; lit "api"] <= 3.
Proof.
  pose proof (categories_trimmed_not_truncated
                (extracting_world [lit " billing "; lit "  "; lit "api"])
                initial_state [] [lit " billing "; lit "  "; lit "api"]
                eq_refl eq_refl) as (H1 & _ & H3 & _).
  split; [exact H1|exact H3].
Defined.

(** C1, counterexample.  The extraction capability returns 251 records
    named "a": all 251 come back, one more than MAX_CATEGORIES. *)
Lemma categories_exceed_max :
  match generateListOfCategories (extracting_world (replicate 251 (lit "a")))
                                 initial_state with
  | Ok categories _ => MAX_CATEGORIES < length categories
  | _ => False
  end.
Proof. vm_compute. lia. Qed.

(** ** Object.fromEntries *)

Lemma fromEntries_app_fold l1 l2 :
  fromEntries (l1 ++ l2)
  = fold_left (fun obj e => <[e.1 := e.2]> obj) l2 (fromEntries l1).
Proof. unfold fromEntries. by rewrite fold_left_app. Qed.

Section fold_insert.
Let put (obj : gmap (list N) (list N)) (e : list N * list N) := <[e.1 := e.2]> obj.

Lemma fold_insert_absent (l : list (list N * list N)) (m : gmap (list N) (list N)) k :
  k ∉ l.*1 -> fold_left put l m !! k = m !! k.
Proof.
  revert m. induction l as [|[k' v'] l IH]; intros m Hk; [done|].
  cbn in *. apply not_elem_of_cons in Hk as [Hne Hk].
  rewrite IH by done. unfold put. cbn. by rewrite lookup_insert_ne.
Qed.

Lemma fold_insert_present (l : list (list N * list N)) (m : gmap (list N) (list N)) k :
  is_Some (m !! k) -> is_Some (fold_left put l m !! k).
Proof.
  revert m. induction l as [|[k' v'] l IH]; intros m Hk; [done|].
  cbn. apply IH. unfold put. cbn. rewrite lookup_insert.
  case_decide; [by eexists|done].
Qed.

Lemma fold_insert_size (l : list (list N * list N)) (m : gmap (list N) (list N)) :
  size (fold_left put l m) <= size m + length l.
Proof.
  revert m. induction l as [|[k' v'] l IH]; intros m; cbn; [lia|].
  etrans; [apply IH|]. unfold put. cbn. rewrite map_size_insert.
  destruct (m !! k'); cbn; lia.
Qed.

(** The value kept for a name comes from the entries themselves. *)
Lemma fold_insert_from (l : list (list N * list N)) (m : gmap (list N) (list N)) k v :
  fold_left put l m !! k = Some v -> (k, v) ∈ l \/ m !! k = Some v.
Proof.
  revert m. induction l as [|[k' v'] l IH]; intros m H; [by right|].
  cbn in H. apply IH in H as [H|H]; [left; by right|].
  unfold put in H. cbn in H. rewrite lookup_insert in H.
  case_decide; [|by right]. simplify_eq. left. by left.
Qed.
End fold_insert.

Lemma fromEntries_last (l1 : list (list N * list N)) k v l2 :
  k ∉ l2.*1 -> fromEntries (l1 ++ (k, v) :: l2) !! k = Some v.
Proof.
  intros Hk. rewrite fromEntries_app_fold. cbn.
  rewrite fold_insert_absent by done. cbn. by rewrite lookup_insert_eq.
Qed.

Lemma fromEntries_size entries : size (fromEntries entries) <= length entries.
Proof.
  unfold fromEntries. etrans; [apply fold_insert_size|].
  by rewrite map_size_empty.
Qed.

Lemma fromEntries_size_collision l1 k v1 l2 v2 l3 :
  size (fromEntries (l1 ++ (k, v1) :: l2 ++ (k, v2) :: l3))
  < length (l1 ++ (k, v1) :: l2 ++ (k, v2) :: l3).
Proof.
  assert (E : l1 ++ (k, v1) :: l2 ++ (k, v2) :: l3
              = (l1 ++ (k, v1) :: l2) ++ (k, v2) :: l3)
    by (by rewrite <- app_assoc).
  rewrite E. clear E.
  rewrite (fromEntries_app_fold _ ((k, v2) :: l3)). cbn [fold_left fst snd].
  eapply Nat.le_lt_trans; [apply fold_insert_size|].
  rewrite map_size_insert.
  assert (Hk : is_Some (fromEntries (l1 ++ (k, v1) :: l2) !! k)).
  { rewrite fromEntries_app_fold. cbn [fold_left].
    apply fold_insert_present. cbn. rewrite lookup_insert_eq. by eexists. }
  destruct Hk as [v ->]. cbn.
  pose proof (fromEntries_size (l1 ++ (k, v1) :: l2)) as Hs.
  rewrite !length_app in *. cbn [length] in *. lia.
Qed.

(** ** labelFilesFromCategories *)

Lemma label_loop_calls w categories entries s :
  let r := label_loop w categories entries s in
  exists n extra,
    n <= length entries
    /\ calls (final_state r)
       = calls s ++ flat_map (label_step_calls categories) (take n entries) ++ extra
    /\ (extra = []
        \/ exists e, entries !! n = Some e
                     /\ extra = [Label e.2 (fromEntries (candidate_labels categories))])
    /\ fileContentCache (final_state r) = fileContentCache s
    /\ (is_Ok r -> n = length entries /\ extra = []).
Proof.
  revert s. induction entries as [|[key content] rest IH]; intros s r.
  { exists 0, []. subst r. cbn. rewrite app_nil_r.
    repeat split; first [done | by left]. }
  subst r. cbn [label_loop].
  unfold bind, external, console_log, ret, add_call, add_message.
  cbn [fileContentCache calls console].
  destruct (label w (calls s) content _) as [sel|] eqn:Hlabel.
  2:{ exists 0, []. cbn. rewrite app_nil_r. split; [lia|].
      repeat split; first [done | by left]. }
  cbn [fileContentCache calls console].
  destruct (0 <? length (candidate_labels categories)) eqn:Hguard.
  - destruct (updateFileMetadata w _ key _) as [[]|] eqn:Hupd.
    + match goal with |- context [label_loop w categories rest ?s1] =>
        destruct (IH s1) as (n & extra & Hn & Hcalls & Hextra & Hcache & Hok) end.
      exists (S n), extra. split; [cbn; lia|]. split; [|split; [exact Hextra|]].
      * rewrite Hcalls. cbn [calls take flat_map]. unfold label_step_calls at 2.
        rewrite Hguard. cbn [fst snd]. by rewrite <- !app_assoc.
      * split; [by rewrite Hcache|]. intros H. destruct (Hok H) as [-> ->]. done.
    + exists 0, [Label content (fromEntries (candidate_labels categories))].
      cbn. split; [lia|]. split; [done|]. split; [|done].
      right. by exists (key, content).
  - match goal with |- context [label_loop w categories rest ?s1] =>
      destruct (IH s1) as (n & extra & Hn & Hcalls & Hextra & Hcache & Hok) end.
    exists (S n), extra. split; [cbn; lia|]. split; [|split; [exact Hextra|]].
    * rewrite Hcalls. cbn [calls take flat_map]. unfold label_step_calls at 2.
      rewrite Hguard. cbn [fst snd]. by rewrite <- !app_assoc.
    * split; [by rewrite Hcache|]. intros H. destruct (Hok H) as [-> ->]. done.
Qed.

Lemma metadata_writes_app cs1 cs2 :
  metadata_writes (cs1 ++ cs2) = metadata_writes cs1 ++ metadata_writes cs2.
Proof. apply omap_app. Qed.

Lemma metadata_writes_steps categories entries :
  metadata_writes (flat_map (label_step_calls categories) entries)
  = if 0 <? length categories
    then map (fun e => (e.1, candidate_labels categories)) entries
    else [].
Proof.
  induction entries as [|e entries IH].
  { by destruct (0 <? length categories). }
  cbn [flat_map]. rewrite metadata_writes_app, IH.
  unfold label_step_calls, candidate_labels. rewrite length_map.
  by destruct (0 <? length categories).
Qed.

Lemma label_run_calls w categories s :
  let r := labelFilesFromCategories w categories s in
  exists n extra,
    n <= length (fileContentCache s)
    /\ calls (final_state r)
       = calls s ++ flat_map (label_step_calls categories)
                             (take n (fileContentCache s)) ++ extra
    /\ (extra = []
        \/ exists e, fileContentCache s !! n = Some e
                     /\ extra = [Label e.2 (fromEntries (candidate_labels categories))])
    /\ (is_Ok r -> n = length (fileContentCache s) /\ extra = []).
Proof.
  intros r.
  destruct (label_loop_calls w categories (fileContentCache s) s)
    as (n & extra & Hn & Hcalls & Hextra & _ & Hok).
  exists n, extra. done.
Qed.

(** C2. Whatever the labelling capability selects, the metadata writes of
    labelFilesFromCategories are, in cache order, one write per cached
    document, addressed by the document's cache key and carrying the whole
    candidate list (the pair of slug and name of every category).  The
    writes happen exactly when the category list is non-empty; the
    selection plays no part.  If a service fails on the way, the writes
    done so far are those of the first documents; a run that completes has
    written all of them. *)
Theorem metadata_is_full_candidate_list w categories s :
  let r := labelFilesFromCategories w categories s in
  exists n,
    n <= length (fileContentCache s)
    /\ metadata_writes (calls (final_state r))
       = metadata_writes (calls s)
         ++ (if 0 <? length categories
             then map (fun e => (e.1, candidate_labels categories))
                      (take n (fileContentCache s))
             else [])
    /\ (is_Ok r -> n = length (fileContentCache s)).
Proof.
  intros r. destruct (label_run_calls w categories s)
    as (n & extra & Hn & Hcalls & Hextra & Hok).
  exists n. split; [done|]. split; [|by intros H; apply Hok].
  fold r in Hcalls. rewrite Hcalls, !metadata_writes_app, metadata_writes_steps.
  destruct Hextra as [->|(e & _ & ->)]; cbn; by rewrite app_nil_r.
Qed.

(** C2 at an instance: two cached documents, two categories, and a labeller
    that selects nothing; both documents get both candidates. *)
Lemma metadata_is_full_candidate_list_witness :
  metadata_writes
    (calls (final_state
              (labelFilesFromCategories unselective_world
                 [lit "Billing & Invoices"; lit "API"]
                 (with_cache [(lit "doc1", lit "text one"); (lit "doc2", lit "text two")]
                             initial_state))))
  = [(lit "doc1", [(lit "Billing_Invoices", lit "Billing & Invoices");
                   (lit "API", lit "API")]);
     (lit "doc2", [(lit "Billing_Invoices", lit "Billing & Invoices");
                   (lit "API", lit "API")])].
Proof.
  destruct (metadata_is_full_candidate_list unselective_world
              [lit "Billing & Invoices"; lit "API"]
              (with_cache [(lit "doc1", lit "text one"); (lit "doc2", lit "text two")]
                          initial_state)) as (n & _ & -> & Hn).
  rewrite Hn; [reflexivity|]. vm_compute. exact I.
Defined.

(** C10. When a category list holds a name [x] and, later, a different
    name [y] with the same slug, the object handed to the labelling
    capability has fewer properties than there are categories; under the
    shared slug it holds a single name, one that stands at or after [y] in
    the list ([y] itself when no later category has that slug).  The list
    written to the metadata is as long as the category list and holds both
    the pair of [x] and the pair of [y].  A run of
    labelFilesFromCategories sends, for every cached document in cache
    order, one labelling request with the document's content and that
    object, and then writes that list under the document's key; a run that
    a failing service cuts short has done so for the first documents, and
    at most sent the request of the next one. *)
Theorem slug_collision_shrinks_candidates l1 x l2 y l3 :
  x <> y -> slug x = slug y ->
  let categories := l1 ++ x :: l2 ++ y :: l3 in
  let labels := candidate_labels categories in
  size (fromEntries labels) < length categories
  /\ (exists z, fromEntries labels !! slug y = Some z
                /\ z ∈ y :: l3 /\ slug z = slug y)
  /\ (Forall (fun z => slug z <> slug y) l3 -> fromEntries labels !! slug y = Some y)
  /\ length labels = length categories
  /\ (slug y, x) ∈ labels /\ (slug y, y) ∈ labels
  /\ forall w s,
       let r := labelFilesFromCategories w categories s in
       exists n extra,
         n <= length (fileContentCache s)
         /\ calls (final_state r)
            = calls s
              ++ flat_map (fun e => [Label e.2 (fromEntries labels);
                                     UpdateFileMetadata e.1 labels])
                          (take n (fileContentCache s))
              ++ extra
         /\ (extra = []
             \/ exists e, fileContentCache s !! n = Some e
                          /\ extra = [Label e.2 (fromEntries labels)])
         /\ (is_Ok r -> n = length (fileContentCache s) /\ extra = []).
Proof.
  intros Hxy Hslug categories labels.
  assert (Hlabels : labels = candidate_labels l1 ++ (slug y, x)
                      :: candidate_labels l2 ++ (slug y, y) :: candidate_labels l3).
  { subst labels categories. unfold candidate_labels.
    rewrite map_app. cbn [map]. rewrite map_app. cbn [map]. by rewrite Hslug. }
  split.
  { rewrite Hlabels at 1.
    eapply Nat.lt_le_trans; [apply fromEntries_size_collision|].
    rewrite <- Hlabels. subst labels. unfold candidate_labels.
    by rewrite length_map. }
  split.
  { assert (Hsome : is_Some (fromEntries labels !! slug y)).
    { rewrite Hlabels.
      assert (E : candidate_labels l1 ++ (slug y, x)
                    :: candidate_labels l2 ++ (slug y, y) :: candidate_labels l3
                  = (candidate_labels l1 ++ (slug y, x) :: candidate_labels l2)
                    ++ (slug y, y) :: candidate_labels l3)
        by (by rewrite <- app_assoc).
      rewrite E, fromEntries_app_fold. cbn [fold_left fst snd].
      apply fold_insert_present. rewrite lookup_insert_eq. by eexists. }
    destruct Hsome as [z Hz]. exists z. split; [done|].
    rewrite Hlabels in Hz.
    assert (E : candidate_labels l1 ++ (slug y, x)
                  :: candidate_labels l2 ++ (slug y, y) :: candidate_labels l3
                = (candidate_labels l1 ++ (slug y, x) :: candidate_labels l2)
                  ++ (slug y, y) :: candidate_labels l3)
      by (by rewrite <- app_assoc).
    rewrite E, fromEntries_app_fold in Hz. cbn [fold_left fst snd] in Hz.
    apply fold_insert_from in Hz as [Hz|Hz].
    - unfold candidate_labels in Hz. apply list_elem_of_fmap in Hz as (c & Hc & Hin).
      simplify_eq. split; [by right|done].
    - rewrite lookup_insert_eq in Hz. simplify_eq. split; [by left|done]. }
  split.
  { intros Hl3. rewrite Hlabels.
    assert (E : candidate_labels l1 ++ (slug y, x)
                  :: candidate_labels l2 ++ (slug y, y) :: candidate_labels l3
                = (candidate_labels l1 ++ (slug y, x) :: candidate_labels l2)
                  ++ (slug y, y) :: candidate_labels l3)
      by (by rewrite <- app_assoc).
    rewrite E. apply fromEntries_last.
    unfold candidate_labels. rewrite <- list_fmap_compose.
    intros (c & Hc & Hin)%list_elem_of_fmap. cbn in Hc.
    rewrite Forall_forall in Hl3. by apply (Hl3 c). }
  split; [subst labels; unfold candidate_labels; by rewrite length_map|].
  split; [rewrite Hlabels; set_solver|]. split; [rewrite Hlabels; set_solver|].
  intros w s r. destruct (label_run_calls w categories s)
    as (n & extra & Hn & Hcalls & Hextra & Hok).
  exists n, extra. split; [done|]. split; [|split; [done|done]].
  fold r in Hcalls. rewrite Hcalls. do 2 f_equal.
  assert (Hpos : (0 <? length labels) = true).
  { apply Nat.ltb_lt. subst labels categories. unfold candidate_labels.
    rewrite length_map, length_app. cbn. lia. }
  generalize (take n (fileContentCache s)). intros entries.
  induction entries as [|e entries IH]; [done|].
  cbn [flat_map]. rewrite IH. unfold label_step_calls. fold labels.
  by rewrite Hpos.
Qed.

(** C10 at an instance: "a b" and "a_b" share the slug "a_b".  With one
    cached document the run sends one request, with an object of one
    property, and writes the list of both pairs. *)
Lemma slug_collision_shrinks_candidates_witness :
  let categories := [lit "a b"; lit "a_b"] in
  size (fromEntries (candidate_labels categories)) < 2
  /\ fromEntries (candidate_labels categories) !! lit "a_b" = Some (lit "a_b")
  /\ calls (final_state
              (labelFilesFromCategories unselective_world categories
                 (with_cache [(lit "doc1", lit "text one")] initial_state)))
     = [Label (lit "text one") (fromEntries (candidate_labels categories));
        UpdateFileMetadata (lit "doc1")
          [(lit "a_b", lit "a b"); (lit "a_b", lit "a_b")]].
Proof.
  assert (Hne : lit "a b" <> lit "a_b") by discriminate.
  destruct (slug_collision_shrinks_candidates [] (lit "a b") [] (lit "a_b") []
              Hne eq_refl) as (Hsize & _ & Hlast & _ & _ & _ & Hrun).
  cbn zeta. split; [exact Hsize|]. split; [apply Hlast; constructor|].
  destruct (Hrun unselective_world
              (with_cache [(lit "doc1", lit "text one")] initial_state))
    as (n & extra & _ & Hcalls & _ & Hok).
  destruct Hok as [-> ->]; [by vm_compute|]. exact Hcalls.
Defined.

(** ** saveCache and the ingestion loop, one step at a time *)

Lemma saveCache_eq w s :
  saveCache w s
  = let fileContent := cache_file_content (fileContentCache s) in
    match uploadFile w (calls s) fileContent with
    | Some _ => Ok tt (add_message (CacheSaved (length (fileContentCache s)))
                                   (add_call (UploadFile fileContent) s))
    | None => Thrown ServiceError s
    end.
Proof.
  unfold saveCache, bind, get_cache, external, console_log. cbn.
  by destruct (uploadFile w (calls s) _) as [[]|].
Qed.

Lemma ingest_loop_cons w total file rest fileCount newProcessedFiles s :
  ingest_loop w total (file :: rest) fileCount newProcessedFiles s
  = if MAX_FILES_TO_PROCESS <? S fileCount then
      Ok newProcessedFiles (add_message ReachedMaxFiles s)
    else
      let s0 := add_message (ProcessingFile (S fileCount) total (file_key file)) s in
      if map_has (file_key file) (fileContentCache s) then
        ingest_loop w total rest (S fileCount) newProcessedFiles
                    (add_message (AlreadyProcessed (file_key file)) s0)
      else
        match filePassages w (calls s) (file_id file) with
        | None => Thrown ServiceError s0
        | Some passages =>
            let s1 := with_cache (map_set (file_key file) (assemble passages)
                                          (fileContentCache s))
                                 (add_call (FilePassages (file_id file)) s0) in
            if newProcessedFiles mod 10 =? 0 then
              match saveCache w s1 with
              | Ok _ s2 =>
                  ingest_loop w total rest (S fileCount) (S newProcessedFiles) s2
              | Thrown e s2 => Thrown e s2
              | IllTyped s2 => IllTyped s2
              end
            else ingest_loop w total rest (S fileCount) (S newProcessedFiles) s1
        end.
Proof.
  cbn [ingest_loop]. destruct (MAX_FILES_TO_PROCESS <? S fileCount); [done|].
  unfold bind at 1, console_log at 1. unfold bind at 1, get_cache at 1.
  cbn [fileContentCache add_message].
  destruct (map_has (file_key file) (fileContentCache s)); [done|].
  unfold bind at 1, external at 1. cbn [calls add_message].
  destruct (filePassages w (calls s) (file_id file)) as [passages|]; [|done].
  unfold bind at 1, cache_set at 1. cbn [fileContentCache add_call add_message].
  unfold bind at 1. cbn zeta.
  destruct (newProcessedFiles mod 10 =? 0); [|done].
  by destruct (saveCache w _).
Qed.

Lemma fetchAllContent_eq w s :
  fetchAllContent w s
  = match listFiles w (calls s) with
    | None => Thrown ServiceError s
    | Some files =>
        let s0 := add_message (TotalFiles (length files)) (add_call ListFiles s) in
        match ingest_loop w (length files) files 0 0 s0 with
        | Ok n s1 =>
            if 0 <? n then saveCache w (add_message (ProcessedNewFiles n) s1)
            else Ok tt s1
        | Thrown e s1 => Thrown e s1
        | IllTyped s1 => IllTyped s1
        end
    end.
Proof.
  unfold fetchAllContent. unfold bind at 1, external at 1.
  destruct (listFiles w (calls s)) as [files|]; [|done].
  unfold bind at 1, console_log at 1. unfold bind at 1. cbn zeta.
  destruct (ingest_loop _ _ _ _ _ _) as [n s1|e s1|s1]; try done.
  by destruct (0 <? n).
Qed.

(** The cases of one turn of the loop, as an induction principle. *)
Section ingest_cases.
Variables (w : World) (total : nat).
Variable P : list File -> nat -> nat -> State -> Result nat -> Prop.

Let announced (file : File) (fileCount : nat) (s : State) : State :=
  add_message (ProcessingFile (S fileCount) total (file_key file)) s.
Let assembled (file : File) (passages : list Passage) (fileCount : nat)
    (s : State) : State :=
  with_cache (map_set (file_key file) (assemble passages) (fileContentCache s))
             (add_call (FilePassages (file_id file)) (announced file fileCount s)).
Let saved (s : State) : State :=
  add_message (CacheSaved (length (fileContentCache s)))
              (add_call (UploadFile (cache_file_content (fileContentCache s))) s).

Hypothesis case_done : forall fc np s, P [] fc np s (Ok np s).
Hypothesis case_break : forall file rest fc np s,
  MAX_FILES_TO_PROCESS <= fc ->
  P (file :: rest) fc np s (Ok np (add_message ReachedMaxFiles s)).
Hypothesis case_skip : forall file rest fc np s r,
  fc < MAX_FILES_TO_PROCESS ->
  map_has (file_key file) (fileContentCache s) = true ->
  P rest (S fc) np
    (add_message (AlreadyProcessed (file_key file)) (announced file fc s)) r ->
  P (file :: rest) fc np s r.
Hypothesis case_fetch_fails : forall file rest fc np s,
  fc < MAX_FILES_TO_PROCESS ->
  map_has (file_key file) (fileContentCache s) = false ->
  filePassages w (calls s) (file_id file) = None ->
  P (file :: rest) fc np s (Thrown ServiceError (announced file fc s)).
Hypothesis case_upload_fails : forall file rest fc np s passages,
  fc < MAX_FILES_TO_PROCESS ->
  map_has (file_key file) (fileContentCache s) = false ->
  filePassages w (calls s) (file_id file) = Some passages ->
  np mod 10 = 0 ->
  uploadFile w (calls (assembled file passages fc s))
    (cache_file_content (fileContentCache (assembled file passages fc s))) = None ->
  P (file :: rest) fc np s (Thrown ServiceError (assembled file passages fc s)).
Hypothesis case_checkpoint : forall file rest fc np s passages r,
  fc < MAX_FILES_TO_PROCESS ->
  map_has (file_key file) (fileContentCache s) = false ->
  filePassages w (calls s) (file_id file) = Some passages ->
  np mod 10 = 0 ->
  uploadFile w (calls (assembled file passages fc s))
    (cache_file_content (fileContentCache (assembled file passages fc s)))
    = Some tt ->
  P rest (S fc) (S np) (saved (assembled file passages fc s)) r ->
  P (file :: rest) fc np s r.
Hypothesis case_no_checkpoint : forall file rest fc np s passages r,
  fc < MAX_FILES_TO_PROCESS ->
  map_has (file_key file) (fileContentCache s) = false ->
  filePassages w (calls s) (file_id file) = Some passages ->
  np mod 10 <> 0 ->
  P rest (S fc) (S np) (assembled file passages fc s) r ->
  P (file :: rest) fc np s r.

Lemma ingest_loop_cases files fc np s :
  P files fc np s (ingest_loop w total files fc np s).
Proof using All.
  revert fc np s. induction files as [|file rest IH]; intros fc np s.
  { apply case_done. }
  rewrite ingest_loop_cons.
  destruct (Nat.ltb_spec MAX_FILES_TO_PROCESS (S fc)) as [Hmax|Hmax].
  { apply case_break. lia. }
  cbn zeta. destruct (map_has _ _) eqn:Hhas.
  { apply case_skip; [lia|done|apply IH]. }
  destruct (filePassages w (calls s) (file_id file)) as [passages|] eqn:Hfetch.
  2:{ apply case_fetch_fails; [lia|done..]. }
  destruct (Nat.eqb_spec (np mod 10) 0) as [Hmod|Hmod].
  2:{ eapply case_no_checkpoint; [lia|done..|apply IH]. }
  rewrite saveCache_eq. cbn zeta.
  destruct (uploadFile w _ _) as [[]|] eqn:Hup.
  - eapply case_checkpoint; [lia|done..|apply IH].
  - eapply case_upload_fails; [lia|done..].
Qed.
End ingest_cases.

Ltac ingest_induction w total files fc np s :=
  pattern files, fc, np, s, (ingest_loop w total files fc np s);
  apply ingest_loop_cases; clear files fc np s; cbv beta.

(** ** The cache as a Map *)

Lemma map_has_app k (m1 m2 : list (list N * list N)) :
  map_has k (m1 ++ m2) = map_has k m1 || map_has k m2.
Proof.
  induction m1 as [|[k' v'] m1 IH]; [done|]. cbn. by destruct (decide (k = k')).
Qed.

Lemma map_has_elem k (m : list (list N * list N)) :
  map_has k m = true <-> k ∈ m.*1.
Proof.
  induction m as [|[k' v'] m IH]; cbn.
  - split; [done|]. by intros ?%elem_of_nil.
  - rewrite elem_of_cons. destruct (decide (k = k')) as [->|Hne].
    + split; [by left|done].
    + rewrite IH. split; [by right|]. by intros [?|?].
Qed.

Lemma map_set_fresh k v (m : list (list N * list N)) :
  map_has k m = false -> map_set k v m = m ++ [(k, v)].
Proof.
  induction m as [|[k' v'] m IH]; [done|]. cbn.
  destruct (decide (k = k')); [done|]. intros H. by rewrite IH.
Qed.

Lemma cadence_app cs1 cs2 : cadence (cs1 ++ cs2) = cadence cs1 ++ cadence cs2.
Proof. apply omap_app. Qed.

Lemma processing_keys_app ms1 ms2 :
  processing_keys (ms1 ++ ms2) = processing_keys ms1 ++ processing_keys ms2.
Proof. apply omap_app. Qed.

(** ** What the ingestion loop touches *)



Lemma loop_call_weaken considered considered' cache cache' c :
  considered ⊆ considered' ->
  (forall k, map_has k cache = false -> map_has k cache' = false) ->
  loop_call considered cache c -> loop_call considered' cache' c.
Proof.
  intros Hsub Hc [(f & Hf & Hk & ->)|[t ->]]; [left|right; eauto].
  exists f. split; [by apply Hsub|]. split; [by apply Hc|done].
Qed.

Lemma loop_entry_weaken considered considered' cache cache' e :
  considered ⊆ considered' ->
  (forall k, map_has k cache = false -> map_has k cache' = false) ->
  loop_entry considered cache e -> loop_entry considered' cache' e.
Proof.
  intros Hsub Hc (f & Hf & Hk & Hh). exists f. split; [by apply Hsub|].
  split; [done|by apply Hc].
Qed.

Lemma considered_cons (file : File) (rest : list File) fc :
  fc < MAX_FILES_TO_PROCESS ->
  take (MAX_FILES_TO_PROCESS - fc) (file :: rest)
  = file :: take (MAX_FILES_TO_PROCESS - S fc) rest.
Proof.
  intros H. replace (MAX_FILES_TO_PROCESS - fc)
    with (S (MAX_FILES_TO_PROCESS - S fc)) by lia. done.
Qed.

Lemma considered_none (files : list File) fc :
  MAX_FILES_TO_PROCESS <= fc -> take (MAX_FILES_TO_PROCESS - fc) files = [].
Proof. intros H. replace (MAX_FILES_TO_PROCESS - fc) with 0 by lia. done. Qed.

Lemma ingest_loop_footprint w total files fc np s :
  let r := ingest_loop w total files fc np s in
  let considered := take (MAX_FILES_TO_PROCESS - fc) files in
  exists new added,
    calls (final_state r) = calls s ++ new
    /\ fileContentCache (final_state r) = fileContentCache s ++ added
    /\ Forall (loop_call considered (fileContentCache s)) new
    /\ Forall (loop_entry considered (fileContentCache s)) added.
Proof.
  cbv zeta. ingest_induction w total files fc np s.
  - intros fc np s. exists [], []. cbn. by rewrite !app_nil_r.
  - intros file rest fc np s Hmax. exists [], []. cbn. by rewrite !app_nil_r.
  - intros file rest fc np s r Hmax Hhas (new & added & Hc & Hm & Hnew & Hadd).
    exists new, added. cbn in Hc, Hm. rewrite considered_cons by done.
    split; [done|]. split; [done|]. split.
    + eapply Forall_impl; [exact Hnew|]. intros c.
      apply loop_call_weaken; [set_solver|done].
    + eapply Forall_impl; [exact Hadd|]. intros c.
      apply loop_entry_weaken; [set_solver|done].
  - intros file rest fc np s Hmax Hhas Hfetch. exists [], []. cbn.
    by rewrite !app_nil_r.
  - intros file rest fc np s passages Hmax Hhas Hfetch Hmod Hup.
    exists [FilePassages (file_id file)], [(file_key file, assemble passages)].
    cbn. rewrite map_set_fresh, considered_cons by done.
    split; [done|]. split; [done|]. split.
    + constructor; [|done]. left. exists file. split; [by left|done].
    + constructor; [|done]. exists file. split; [by left|done].
  - intros file rest fc np s passages r Hmax Hhas Hfetch Hmod Hup
      (new & added & Hc & Hm & Hnew & Hadd).
    cbn in Hc, Hm, Hnew, Hadd. rewrite map_set_fresh in Hm, Hnew, Hadd by done.
    eexists (FilePassages (file_id file) :: UploadFile _ :: new),
            ((file_key file, assemble passages) :: added).
    rewrite considered_cons by done.
    split; [by rewrite Hc, <- !app_assoc|]. split; [by rewrite Hm, <- !app_assoc|].
    assert (Hgrow : forall k,
      map_has k (fileContentCache s ++ [(file_key file, assemble passages)]) = false
      -> map_has k (fileContentCache s) = false).
    { intros k. rewrite map_has_app. by intros [? _]%orb_false_elim. }
    split.
    + constructor; [left; exists file; split; [by left|done]|].
      constructor; [right; eauto|].
      eapply Forall_impl; [exact Hnew|]. intros c.
      apply loop_call_weaken; [set_solver|exact Hgrow].
    + constructor; [exists file; split; [by left|done]|].
      eapply Forall_impl; [exact Hadd|]. intros c.
      apply loop_entry_weaken; [set_solver|exact Hgrow].
  - intros file rest fc np s passages r Hmax Hhas Hfetch Hmod
      (new & added & Hc & Hm & Hnew & Hadd).
    cbn in Hc, Hm, Hnew, Hadd. rewrite map_set_fresh in Hm, Hnew, Hadd by done.
    eexists (FilePassages (file_id file) :: new),
            ((file_key file, assemble passages) :: added).
    rewrite considered_cons by done.
    split; [by rewrite Hc, <- !app_assoc|]. split; [by rewrite Hm, <- !app_assoc|].
    assert (Hgrow : forall k,
      map_has k (fileContentCache s ++ [(file_key file, assemble passages)]) = false
      -> map_has k (fileContentCache s) = false).
    { intros k. rewrite map_has_app. by intros [? _]%orb_false_elim. }
    split.
    + constructor; [left; exists file; split; [by left|done]|].
      eapply Forall_impl; [exact Hnew|]. intros c.
      apply loop_call_weaken; [set_solver|exact Hgrow].
    + constructor; [exists file; split; [by left|done]|].
      eapply Forall_impl; [exact Hadd|]. intros c.
      apply loop_entry_weaken; [set_solver|exact Hgrow].
Qed.

(** ** The cadence of checkpoints *)

Lemma cadence_fetch id cs : cadence (FilePassages id :: cs) = Assembled :: cadence cs.
Proof. reflexivity. Qed.

Lemma cadence_upload t cs : cadence (UploadFile t :: cs) = Persisted :: cadence cs.
Proof. reflexivity. Qed.

Lemma ingest_loop_cadence w total files fc np s :
  let r := ingest_loop w total files fc np s in
  exists new m,
    calls (final_state r) = calls s ++ new
    /\ cadence new `prefix_of` checkpoints np m
    /\ match r with
       | Ok n _ => n = np + m /\ cadence new = checkpoints np m
       | Thrown _ _ => True
       | IllTyped _ => False
       end.
Proof.
  cbv zeta. ingest_induction w total files fc np s.
  - intros fc np s. exists [], 0. cbn. rewrite app_nil_r. split; [done|].
    split; [done|]. split; [lia|done].
  - intros file rest fc np s Hmax. exists [], 0. cbn. rewrite app_nil_r.
    split; [done|]. split; [done|]. split; [lia|done].
  - intros file rest fc np s r Hmax Hhas (new & m & Hc & Hp & Hr).
    exists new, m. done.
  - intros file rest fc np s Hmax Hhas Hfetch. exists [], 0. cbn.
    rewrite app_nil_r. done.
  - intros file rest fc np s passages Hmax Hhas Hfetch Hmod Hup.
    exists [FilePassages (file_id file)], 1. cbn.
    split; [done|]. split; [|done]. apply prefix_cons, prefix_nil.
  - intros file rest fc np s passages r Hmax Hhas Hfetch Hmod Hup
      (new & m & Hc & Hp & Hr).
    eexists (FilePassages (file_id file) :: UploadFile _ :: new), (S m).
    cbn in Hc. split; [by rewrite Hc, <- !app_assoc|].
    rewrite cadence_fetch, cadence_upload. cbn [checkpoints].
    rewrite Hmod. cbn [Nat.eqb app].
    split; [by apply prefix_cons, prefix_cons|].
    destruct r; [|done..]. destruct Hr as [-> Hr]. split; [lia|].
    by rewrite Hr.
  - intros file rest fc np s passages r Hmax Hhas Hfetch Hmod
      (new & m & Hc & Hp & Hr).
    exists (FilePassages (file_id file) :: new), (S m).
    cbn in Hc. split; [by rewrite Hc, <- !app_assoc|].
    rewrite cadence_fetch. cbn [checkpoints].
    destruct (Nat.eqb_spec (np mod 10) 0) as [?|_]; [done|]. cbn [app].
    split; [by apply prefix_cons|].
    destruct r; [|done..]. destruct Hr as [-> Hr]. split; [lia|].
    by rewrite Hr.
Qed.

(** Between two uploads at most 10 documents are assembled.  [u] counts
    the documents assembled since the last upload when [np] documents
    have been newly processed. *)
Lemma unsaved_bound m : forall np u p,
  u <= 9 -> (np mod 10 <> 0 -> u = np mod 10 - 1) ->
  p `prefix_of` checkpoints np m ++ [Persisted] ->
  unsaved_from u p <= 10.
Proof.
  induction m as [|m IH]; intros np u p Hu Hnp Hp.
  - cbn in Hp. destruct p as [|c p]; [cbn; lia|].
    apply prefix_cons_inv_1 in Hp as Hc. apply prefix_cons_inv_2 in Hp.
    apply prefix_nil_inv in Hp. subst. cbn. lia.
  - cbn [checkpoints] in Hp. destruct p as [|c p]; [cbn; lia|].
    cbn [app] in Hp.
    apply prefix_cons_inv_1 in Hp as Hc. apply prefix_cons_inv_2 in Hp.
    subst c. cbn [unsaved_from].
    destruct (Nat.eqb_spec (np mod 10) 0) as [Hz|Hz].
    + cbn [app] in Hp. destruct p as [|c p]; [cbn; lia|].
      apply prefix_cons_inv_1 in Hp as Hc. apply prefix_cons_inv_2 in Hp.
      subst c. cbn [unsaved_from]. apply (IH (S np)); [lia|lia|done].
    + cbn [app] in Hp. specialize (Hnp Hz).
      apply (IH (S np)); [lia|lia|done].
Qed.

Lemma persisted_after_checkpoints m : forall np k,
  persisted_after k (checkpoints np m) = true
  <-> 1 <= k <= m /\ (np + k - 1) mod 10 = 0.
Proof.
  induction m as [|m IH]; intros np k.
  { cbn. split; [done|lia]. }
  cbn [checkpoints].
  destruct k as [|[|k]].
  - cbn. split; [done|lia].
  - replace (np + 1 - 1) with np by lia.
    destruct (Nat.eqb_spec (np mod 10) 0) as [Hz|Hz]; cbn [app persisted_after].
    + split; [lia|done].
    + destruct m; cbn [checkpoints app]; (split; [done|lia]).
  - replace (np + S (S k) - 1) with (S np + S k - 1) by lia.
    destruct (Nat.eqb_spec (np mod 10) 0) as [Hz|Hz];
      cbn [app persisted_after]; rewrite IH; lia.
Qed.

Lemma fetched_ids_app cs1 cs2 :
  fetched_ids (cs1 ++ cs2) = fetched_ids cs1 ++ fetched_ids cs2.
Proof. apply omap_app. Qed.

Lemma fetched_ids_fetch id cs : fetched_ids (FilePassages id :: cs) = id :: fetched_ids cs.
Proof. reflexivity. Qed.

Lemma fetched_ids_upload t cs : fetched_ids (UploadFile t :: cs) = fetched_ids cs.
Proof. reflexivity. Qed.

Lemma cadence_prefix cs1 cs2 :
  cs1 `prefix_of` cs2 -> cadence cs1 `prefix_of` cadence cs2.
Proof. intros [k ->]. rewrite cadence_app. by apply prefix_app_r. Qed.

Lemma loop_trace_ids fetched : forall cache np,
  fetched_ids (loop_trace cache np fetched) = map (fun fp => file_id fp.1) fetched.
Proof.
  induction fetched as [|fp rest IH]; intros cache np; [done|].
  cbn [loop_trace map]. rewrite fetched_ids_fetch, fetched_ids_app, IH.
  by destruct (np mod 10 =? 0).
Qed.

Lemma loop_trace_cadence fetched : forall cache np,
  cadence (loop_trace cache np fetched) = checkpoints np (length fetched).
Proof.
  induction fetched as [|fp rest IH]; intros cache np; [done|].
  cbn [loop_trace length checkpoints]. rewrite cadence_fetch, cadence_app, IH.
  by destruct (np mod 10 =? 0).
Qed.

(** The loop makes the calls of [loop_trace] for the documents it
    fetches, or a first part of them when a service fails. *)
Lemma ingest_loop_trace w total files fc np s :
  let r := ingest_loop w total files fc np s in
  exists new fetched,
    calls (final_state r) = calls s ++ new
    /\ fileContentCache (final_state r) = fileContentCache s ++ map entry_of fetched
    /\ fetched_ids new = map (fun fp => file_id fp.1) fetched
    /\ new `prefix_of` loop_trace (fileContentCache s) np fetched
    /\ match r with
       | Ok n _ => n = np + length fetched
                   /\ new = loop_trace (fileContentCache s) np fetched
       | Thrown _ _ => True
       | IllTyped _ => False
       end.
Proof.
  cbv zeta. ingest_induction w total files fc np s.
  - intros fc np s. exists [], []. cbn. rewrite !app_nil_r.
    repeat split; first [done | lia].
  - intros file rest fc np s Hmax. exists [], []. cbn. rewrite !app_nil_r.
    repeat split; first [done | lia].
  - intros file rest fc np s r Hmax Hhas (new & fetched & Hc & Hm & Hids & Hp & Hr).
    exists new, fetched. done.
  - intros file rest fc np s Hmax Hhas Hfetch. exists [], []. cbn.
    rewrite !app_nil_r. repeat split; done.
  - intros file rest fc np s passages Hmax Hhas Hfetch Hmod Hup.
    exists [FilePassages (file_id file)], [(file, passages)].
    cbn. rewrite map_set_fresh by done.
    split; [done|]. split; [done|]. split; [done|]. split; [|done].
    apply prefix_cons, prefix_nil.
  - intros file rest fc np s passages r Hmax Hhas Hfetch Hmod Hup
      (new & fetched & Hc & Hm & Hids & Hp & Hr).
    cbn [fileContentCache calls with_cache add_call add_message] in Hc, Hm, Hp, Hr.
    rewrite map_set_fresh in Hm, Hp, Hr by done.
    exists (FilePassages (file_id file)
            :: UploadFile (cache_file_content
                             (fileContentCache s ++ [entry_of (file, passages)]))
            :: new),
           ((file, passages) :: fetched).
    split.
    { rewrite Hc, <- !app_assoc. cbn [app]. by rewrite map_set_fresh. }
    split; [by rewrite Hm, <- !app_assoc|].
    split; [cbn; by rewrite <- Hids|].
    cbn [loop_trace fst]. rewrite Hmod. cbn [Nat.eqb app].
    split; [by do 2 apply prefix_cons|].
    destruct r as [n s1|e s1|u]; [|done..].
    destruct Hr as [-> ->]. split; [cbn; lia|done].
  - intros file rest fc np s passages r Hmax Hhas Hfetch Hmod
      (new & fetched & Hc & Hm & Hids & Hp & Hr).
    cbn [fileContentCache calls with_cache add_call add_message] in Hc, Hm, Hp, Hr.
    rewrite map_set_fresh in Hm, Hp, Hr by done.
    exists (FilePassages (file_id file) :: new), ((file, passages) :: fetched).
    split; [by rewrite Hc, <- !app_assoc|].
    split; [by rewrite Hm, <- !app_assoc|].
    split; [cbn; by rewrite <- Hids|].
    cbn [loop_trace fst].
    destruct (Nat.eqb_spec (np mod 10) 0) as [?|_]; [done|]. cbn [app].
    split; [by apply prefix_cons|].
    destruct r as [n s1|e s1|u]; [|done..].
    destruct Hr as [-> ->]. split; [cbn; lia|done].
Qed.

(** Along the calls of the loop the cache never holds more than 10 entries
    beyond the last uploaded file. *)
Lemma loop_trace_durable fetched :
  forall (cache : list (list N * list N)) np pre prev
         (snap : list (list N * list N)),
    pre `prefix_of` loop_trace cache np fetched ->
    snap `prefix_of` cache ->
    length cache <= length snap + (np + 9) mod 10 ->
    let current :=
      cache ++ map entry_of (take (length (fetched_ids pre)) fetched) in
    exists snap' : list (list N * list N),
      snap `prefix_of` snap' /\ snap' `prefix_of` current
      /\ length current <= length snap' + 10
      /\ (last_upload_from prev pre = prev /\ snap' = snap
          \/ last_upload_from prev pre = Some (cache_file_content snap')).
Proof.
  induction fetched as [|fp rest IH]; intros cache np pre prev snap Hpre Hsnap Hlen.
  { apply prefix_nil_inv in Hpre as ->. cbn. rewrite app_nil_r.
    exists snap. split; [done|]. split; [done|]. split; [lia|by left]. }
  destruct pre as [|c pre1].
  { cbn. rewrite app_nil_r.
    exists snap. split; [done|]. split; [done|]. split; [lia|by left]. }
  cbn [loop_trace] in Hpre.
  pose proof (prefix_cons_inv_1 _ _ _ _ Hpre) as ->.
  apply prefix_cons_inv_2 in Hpre.
  rewrite fetched_ids_fetch. cbn [length take map].
  set (cache' := cache ++ [entry_of fp]) in *.
  assert (Hcache' : forall l, cache ++ entry_of fp :: l = cache' ++ l).
  { intros l. subst cache'. by rewrite <- app_assoc. }
  rewrite Hcache'.
  assert (Hlen' : length cache' = S (length cache)).
  { subst cache'. rewrite length_app. cbn. lia. }
  destruct (Nat.eqb_spec (np mod 10) 0) as [Hmod|Hmod].
  - cbn [app] in Hpre. destruct pre1 as [|c2 pre2].
    + cbn. rewrite app_nil_r. exists snap. split; [done|].
      split; [subst cache'; by apply prefix_app_r|]. split; [lia|by left].
    + pose proof (prefix_cons_inv_1 _ _ _ _ Hpre) as ->.
      apply prefix_cons_inv_2 in Hpre. rewrite fetched_ids_upload.
      destruct (IH cache' (S np) pre2 (Some (cache_file_content cache')) cache'
                  Hpre ltac:(done) ltac:(lia))
        as (snap' & H1 & H2 & H3 & H4).
      exists snap'. split.
      { etrans; [exact Hsnap|]. etrans; [|exact H1].
        subst cache'. by apply prefix_app_r. }
      split; [done|]. split; [done|]. right.
      change (last_upload_from prev (FilePassages (file_id fp.1)
                                       :: UploadFile (cache_file_content cache')
                                       :: pre2))
        with (last_upload_from (Some (cache_file_content cache')) pre2).
      destruct H4 as [[Hl Hs] | Hl]; rewrite Hl; [by rewrite Hs|done].
  - cbn [app] in Hpre.
    destruct (IH cache' (S np) pre1 prev snap Hpre) as (snap' & H1 & H2 & H3 & H4).
    + subst cache'. by apply prefix_app_r.
    + rewrite Hlen'. replace (S np + 9) with (np + 10) by lia.
      assert ((np + 10) mod 10 = S ((np + 9) mod 10)); [|lia].
      pose proof (Nat.div_mod_eq np 10). pose proof (Nat.mod_upper_bound np 10).
      pose proof (Nat.div_mod_eq (np + 9) 10).
      pose proof (Nat.mod_upper_bound (np + 9) 10).
      pose proof (Nat.div_mod_eq (np + 10) 10).
      pose proof (Nat.mod_upper_bound (np + 10) 10). lia.
    + exists snap'. done.
Qed.

Lemma prefix_snoc_cases {A} (pre l : list A) x :
  pre `prefix_of` l ++ [x] -> pre `prefix_of` l \/ pre = l ++ [x].
Proof.
  intros [k Hk]. destruct k as [|y k _] using rev_ind.
  - right. by rewrite app_nil_r in Hk.
  - left. rewrite app_assoc in Hk. apply app_inj_tail in Hk as [-> _].
    by apply prefix_app_r.
Qed.

Lemma last_upload_from_snoc prev cs t :
  last_upload_from prev (cs ++ [UploadFile t]) = Some t.
Proof. unfold last_upload_from. by rewrite fold_left_app. Qed.

(** The same along the calls of a whole run, with the upload at its end. *)
Lemma run_trace_durable (before : list (list N * list N)) fetched pre :
  pre `prefix_of`
    ListFiles :: loop_trace before 0 fetched
    ++ [UploadFile (cache_file_content (before ++ map entry_of fetched))] ->
  let current :=
    before ++ map entry_of (take (length (fetched_ids pre)) fetched) in
  exists snap : list (list N * list N),
    before `prefix_of` snap /\ snap `prefix_of` current
    /\ length current <= length snap + 10
    /\ (last_upload pre = None /\ snap = before
        \/ last_upload pre = Some (cache_file_content snap)).
Proof.
  intros Hpre. destruct pre as [|c pre1].
  { cbn. rewrite app_nil_r. exists before.
    split; [done|]. split; [done|]. split; [lia|by left]. }
  pose proof (prefix_cons_inv_1 _ _ _ _ Hpre) as ->.
  apply prefix_cons_inv_2 in Hpre.
  change (fetched_ids (ListFiles :: pre1)) with (fetched_ids pre1).
  change (last_upload (ListFiles :: pre1)) with (last_upload_from None pre1).
  destruct (prefix_snoc_cases _ _ _ Hpre) as [Hin| ->].
  - apply (loop_trace_durable fetched before 0 pre1 None before Hin); [done|lia].
  - cbn zeta. rewrite fetched_ids_app, loop_trace_ids, length_app, length_map.
    rewrite take_ge by (cbn; lia).
    exists (before ++ map entry_of fetched).
    split; [by apply prefix_app_r|]. split; [done|]. split; [lia|].
    right. apply last_upload_from_snoc.
Qed.

(** C6, as amended.  In a run of fetchAllContent that fetches the
    documents [fetched], the loop asks for the passages of each and
    uploads the cache directly after the [k]-th of them exactly when [k]
    is 1, 11, 21, ... (the count before the document is a multiple of 10);
    that upload carries the cache with the [k]-th document in it.  A run
    that completes uploads the final cache once more at the end if and
    only if it fetched a document.  A run that a failing service cuts
    short has done a first part of these calls, all passage requests among
    them.  At every moment of every run the cache holds at most 10 entries
    beyond the cache that the last upload carried (beyond the cache at the
    start, before the first upload). *)
Theorem checkpoint_cadence w s :
  let r := fetchAllContent w s in
  let before := fileContentCache s in
  let final := fileContentCache (final_state r) in
  exists new fetched,
    let m := length fetched in
    calls (final_state r) = calls s ++ new
    /\ final = before ++ map entry_of fetched
    /\ fetched_ids new = map (fun fp => file_id fp.1) fetched
    /\ new `prefix_of`
         ListFiles :: loop_trace before 0 fetched
         ++ [UploadFile (cache_file_content final)]
    /\ (is_Ok r ->
        new = ListFiles :: loop_trace before 0 fetched
              ++ (if 0 <? m then [UploadFile (cache_file_content final)] else []))
    /\ (forall pre, pre `prefix_of` new ->
          let current :=
            before ++ map entry_of (take (length (fetched_ids pre)) fetched) in
          exists snap : list (list N * list N),
            before `prefix_of` snap /\ snap `prefix_of` current
            /\ length current <= length snap + 10
            /\ (last_upload pre = None /\ snap = before
                \/ last_upload pre = Some (cache_file_content snap)))
    /\ cadence new `prefix_of` checkpoints 0 m ++ [Persisted]
    /\ (is_Ok r ->
        cadence new = checkpoints 0 m ++ (if 0 <? m then [Persisted] else []))
    /\ (forall k, persisted_after k (checkpoints 0 m) = true
                  <-> 1 <= k <= m /\ k mod 10 = 1)
    /\ (forall p, p `prefix_of` cadence new -> unsaved p <= 10).
Proof.
  intros r before final.
  assert (H : exists new fetched,
    calls (final_state r) = calls s ++ new
    /\ final = before ++ map entry_of fetched
    /\ fetched_ids new = map (fun fp => file_id fp.1) fetched
    /\ new `prefix_of`
         ListFiles :: loop_trace before 0 fetched
         ++ [UploadFile (cache_file_content final)]
    /\ (is_Ok r ->
        new = ListFiles :: loop_trace before 0 fetched
              ++ (if 0 <? length fetched
                  then [UploadFile (cache_file_content final)] else []))).
  { subst r final before. rewrite fetchAllContent_eq.
    destruct (listFiles w (calls s)) as [files|].
    2:{ exists [], []. cbn. rewrite !app_nil_r. split; [done|].
        split; [done|]. split; [done|]. split; [apply prefix_nil|done]. }
    cbn zeta. set (s0 := add_message _ _).
    destruct (ingest_loop_trace w (length files) files 0 0 s0)
      as (new & fetched & Hc & Hm & Hids & Hp & Hr).
    subst s0. cbn [calls add_call add_message fileContentCache] in Hc, Hm, Hp, Hr.
    destruct (ingest_loop _ _ _ _ _ _) as [n s1|e s1|u]; [| |done].
    - destruct Hr as [-> ->]. cbn [final_state Nat.add] in *.
      destruct (Nat.ltb_spec 0 (length fetched)) as [Hpos|Hpos].
      + rewrite saveCache_eq. cbn zeta.
        destruct (uploadFile w _ _) as [[]|].
        * eexists (ListFiles :: loop_trace (fileContentCache s) 0 fetched
                   ++ [UploadFile _]), fetched.
          cbn [final_state calls add_call add_message fileContentCache].
          rewrite Hc, Hm. split; [by rewrite <- !app_assoc|]. split; [done|].
          split.
          { change (fetched_ids (ListFiles :: ?l)) with (fetched_ids l).
            rewrite fetched_ids_app. cbn. by rewrite app_nil_r. }
          split; [done|]. intros _.
          assert (Hlt : (0 <? length fetched) = true) by by apply Nat.ltb_lt.
          by rewrite Hlt.
        * exists (ListFiles :: loop_trace (fileContentCache s) 0 fetched), fetched.
          cbn [final_state calls add_message fileContentCache].
          rewrite Hc, Hm. split; [by rewrite <- !app_assoc|]. split; [done|].
          split; [done|]. split; [|done].
          apply prefix_cons. by apply prefix_app_r.
      + assert (fetched = []) as -> by (destruct fetched; [done|cbn in Hpos; lia]).
        exists [ListFiles], []. cbn [final_state]. rewrite Hc, Hm.
        cbn. rewrite !app_nil_r. split; [done|]. split; [done|].
        split; [done|]. split; [|done]. apply prefix_cons, prefix_nil.
    - exists (ListFiles :: new), fetched. cbn [final_state] in *.
      rewrite Hc, Hm. split; [by rewrite <- !app_assoc|]. split; [done|].
      split; [done|]. split; [|done].
      apply prefix_cons. etrans; [exact Hp|]. by apply prefix_app_r. }
  destruct H as (new & fetched & Hc & Hfinal & Hids & Hp & Hok).
  exists new, fetched. cbn zeta.
  assert (Hcad : cadence new `prefix_of` checkpoints 0 (length fetched) ++ [Persisted]).
  { apply cadence_prefix in Hp.
    change (cadence (ListFiles :: ?l)) with (cadence l) in Hp.
    by rewrite cadence_app, loop_trace_cadence in Hp. }
  split; [done|]. split; [done|]. split; [done|]. split; [done|].
  split; [done|]. split.
  { intros pre Hpre. apply run_trace_durable. rewrite <- Hfinal.
    by etrans. }
  split; [done|]. split.
  { intros H. rewrite (Hok H).
    change (cadence (ListFiles :: ?l)) with (cadence l).
    rewrite cadence_app, loop_trace_cadence. by destruct (0 <? length fetched). }
  split.
  - intros k. rewrite persisted_after_checkpoints. cbn [Nat.add]. lia.
  - intros p Hpre. apply (unsaved_bound (length fetched) 0 0 p); [lia|done|].
    by etrans.
Qed.

(** C6 at an instance: twelve new documents.  The uploads after the first
    and the eleventh document carry 1 and 11 records, the upload at the
    end all 12; after the eleventh passage request, just before the second
    upload, the cache holds 11 entries and a file has been uploaded that
    lacks at most 10 of them. *)
Lemma checkpoint_cadence_witness :
  let new := calls (final_state (fetchAllContent (steady_world 12) initial_state)) in
  omap (fun c => match c with
                 | UploadFile t => Some (length (split_lines t))
                 | _ => None
                 end) new = [1; 11; 12]
  /\ length (fetched_ids (take 13 new)) = 11
  /\ exists snap : list (list N * list N),
       last_upload (take 13 new) = Some (cache_file_content snap)
       /\ 11 <= length snap + 10.
Proof.
  destruct (checkpoint_cadence (steady_world 12) initial_state)
    as (new & fetched & Hc & Hfinal & Hids & _ & _ & Hdur & _).
  cbn [calls initial_state app] in Hc. cbn zeta. rewrite Hc.
  assert (Hn : new = calls (final_state (fetchAllContent (steady_world 12)
                                           initial_state))) by done.
  split; [rewrite Hn; by vm_compute|].
  assert (H11 : length (fetched_ids (take 13 new)) = 11).
  { rewrite Hn. by vm_compute. }
  split; [done|].
  assert (H12 : length fetched = 12).
  { apply (f_equal length) in Hids. rewrite length_map in Hids.
    rewrite <- Hids, Hn. by vm_compute. }
  destruct (Hdur (take 13 new)) as (snap & _ & _ & Hlen & Hlast).
  { apply prefix_take. }
  rewrite H11, length_app, length_map, length_take in Hlen.
  cbn [fileContentCache initial_state length] in Hlen.
  exists snap. split; [|lia].
  destruct Hlast as [[Hnone _]|Hsome]; [|done].
  rewrite Hn in Hnone. by vm_compute in Hnone.
Defined.

(** C6, counterexample.  Twelve new documents: the cache is uploaded after
    the first and after the eleventh document and at the end, and not
    after the tenth. *)
Lemma no_checkpoint_after_tenth :
  cadence (calls (final_state (fetchAllContent (steady_world 12) initial_state)))
  = [Assembled; Persisted] ++ replicate 10 Assembled
    ++ [Persisted; Assembled; Persisted]
  /\ ~ persists_after_every_nth 10
        (cadence (calls (final_state
                           (fetchAllContent (steady_world 12) initial_state)))).
Proof.
  split; [by vm_compute|]. intros H.
  specialize (H 10 ltac:(lia) eq_refl). vm_compute in H.
  specialize (H ltac:(lia)). discriminate H.
Qed.

(** ** Documents already in the cache *)

(** After a loop that completes, every considered document is cached and
    was announced; cached keys stay cached. *)
Lemma ingest_loop_ok w total files fc np s :
  let r := ingest_loop w total files fc np s in
  let considered := take (MAX_FILES_TO_PROCESS - fc) files in
  forall n s', r = Ok n s' ->
    (forall k, map_has k (fileContentCache s) = true
               -> map_has k (fileContentCache s') = true)
    /\ (forall f, f ∈ considered -> map_has (file_key f) (fileContentCache s') = true)
    /\ processing_keys (console s')
       = processing_keys (console s) ++ map file_key considered.
Proof.
  cbv zeta. ingest_induction w total files fc np s.
  - intros fc np s n s' [= <- <-]. rewrite take_nil. cbn. rewrite app_nil_r.
    split; [done|]. split; [by intros f ?%elem_of_nil|done].
  - intros file rest fc np s Hmax n s' [= <- <-]. rewrite considered_none by done.
    cbn. rewrite processing_keys_app. cbn. rewrite app_nil_r.
    split; [done|]. split; [by intros f ?%elem_of_nil|done].
  - intros file rest fc np s r Hmax Hhas IH n s' ->.
    destruct (IH n s' eq_refl) as (Hk & Hf & Hp). cbn in Hk, Hp.
    rewrite considered_cons by done. split; [done|]. split.
    + intros f [->|Hin]%elem_of_cons; [by apply Hk|by apply Hf].
    + rewrite Hp, !processing_keys_app. cbn. by rewrite <- !app_assoc.
  - done.
  - done.
  - intros file rest fc np s passages r Hmax Hhas Hfetch Hmod Hup IH n s' ->.
    destruct (IH n s' eq_refl) as (Hk & Hf & Hp). cbn in Hk, Hp.
    rewrite map_set_fresh in Hk by done.
    rewrite considered_cons by done. split; [|split].
    + intros k Hin. apply Hk. by rewrite map_has_app, Hin.
    + intros f [->|Hin]%elem_of_cons; [|by apply Hf].
      apply Hk. rewrite map_has_app. cbn. rewrite decide_True by done.
      apply orb_true_r.
    + rewrite Hp, !processing_keys_app. cbn. by rewrite <- !app_assoc.
  - intros file rest fc np s passages r Hmax Hhas Hfetch Hmod IH n s' ->.
    destruct (IH n s' eq_refl) as (Hk & Hf & Hp). cbn in Hk, Hp.
    rewrite map_set_fresh in Hk by done.
    rewrite considered_cons by done. split; [|split].
    + intros k Hin. apply Hk. by rewrite map_has_app, Hin.
    + intros f [->|Hin]%elem_of_cons; [|by apply Hf].
      apply Hk. rewrite map_has_app. cbn. rewrite decide_True by done.
      apply orb_true_r.
    + rewrite Hp, !processing_keys_app. cbn. by rewrite <- !app_assoc.
Qed.

(** When every considered document is cached, the loop only prints. *)
Lemma ingest_loop_skip w total files fc np s :
  let r := ingest_loop w total files fc np s in
  (forall f, f ∈ take (MAX_FILES_TO_PROCESS - fc) files
             -> map_has (file_key f) (fileContentCache s) = true) ->
  exists s', r = Ok np s'
             /\ fileContentCache s' = fileContentCache s /\ calls s' = calls s.
Proof.
  cbv zeta. ingest_induction w total files fc np s.
  - intros fc np s _. by exists s.
  - intros file rest fc np s Hmax _. by eexists.
  - intros file rest fc np s r Hmax Hhas IH Hall.
    rewrite considered_cons in Hall by done.
    destruct IH as (s' & -> & Hc & Hl).
    { intros f Hf. cbn. apply Hall. by right. }
    exists s'. done.
  - intros file rest fc np s Hmax Hhas Hfetch Hall.
    rewrite considered_cons in Hall by done.
    rewrite Hall in Hhas by by left. done.
  - intros file rest fc np s passages Hmax Hhas Hfetch Hmod Hup Hall.
    rewrite considered_cons in Hall by done.
    rewrite Hall in Hhas by by left. done.
  - intros file rest fc np s passages r Hmax Hhas Hfetch Hmod Hup _ Hall.
    rewrite considered_cons in Hall by done.
    rewrite Hall in Hhas by by left. done.
  - intros file rest fc np s passages r Hmax Hhas Hfetch Hmod _ Hall.
    rewrite considered_cons in Hall by done.
    rewrite Hall in Hhas by by left. done.
Qed.

Lemma fetchAllContent_footprint w s files :
  listFiles w (calls s) = Some files ->
  let r := fetchAllContent w s in
  let considered := take MAX_FILES_TO_PROCESS files in
  exists new added,
    calls (final_state r) = calls s ++ ListFiles :: new
    /\ fileContentCache (final_state r) = fileContentCache s ++ added
    /\ Forall (loop_call considered (fileContentCache s)) new
    /\ Forall (loop_entry considered (fileContentCache s)) added.
Proof.
  intros Hlist r considered. subst r. rewrite fetchAllContent_eq, Hlist.
  cbn zeta. set (s0 := add_message _ _).
  destruct (ingest_loop_footprint w (length files) files 0 0 s0)
    as (new & added & Hc & Hm & Hnew & Hadd).
  rewrite Nat.sub_0_r in Hnew, Hadd. fold considered in Hnew, Hadd.
  subst s0. cbn [calls fileContentCache add_call add_message] in *.
  destruct (ingest_loop _ _ _ _ _ _) as [n s1|e s1|s1]; cbn [final_state] in *.
  - destruct (0 <? n).
    + rewrite saveCache_eq. cbn zeta. destruct (uploadFile w _ _) as [[]|].
      * eexists (new ++ [UploadFile _]), added.
        cbn [final_state calls fileContentCache add_call add_message].
        rewrite Hc, Hm. split; [by rewrite <- !app_assoc|]. split; [done|].
        split; [|done]. apply Forall_app. split; [done|].
        constructor; [right; eauto|done].
      * exists new, added.
        cbn [final_state calls fileContentCache add_call add_message].
        rewrite Hc, Hm. by rewrite <- !app_assoc.
    + exists new, added. cbn [final_state]. rewrite Hc, Hm.
      by rewrite <- !app_assoc.
  - exists new, added. rewrite Hc, Hm. by rewrite <- !app_assoc.
  - exists new, added. rewrite Hc, Hm. by rewrite <- !app_assoc.
Qed.

(** C4. A run of fetchAllContent fetches passages only for listed
    documents whose key was not in the cache when the run began, and only
    adds cache entries under such keys, behind the entries that were
    there: a document whose key is cached is skipped.  Hence, when a run
    has completed and the content store lists the same documents again, a
    second run completes too, leaves the cache as it is and calls nothing
    but the listing: no passages fetched, nothing uploaded. *)
Theorem ingestion_idempotent w s files :
  listFiles w (calls s) = Some files ->
  let considered := take MAX_FILES_TO_PROCESS files in
  (exists new added,
     calls (final_state (fetchAllContent w s)) = calls s ++ ListFiles :: new
     /\ fileContentCache (final_state (fetchAllContent w s))
        = fileContentCache s ++ added
     /\ Forall (loop_call considered (fileContentCache s)) new
     /\ Forall (loop_entry considered (fileContentCache s)) added)
  /\ forall s1,
       fetchAllContent w s = Ok tt s1 ->
       listFiles w (calls s1) = Some files ->
       exists s2,
         fetchAllContent w s1 = Ok tt s2
         /\ fileContentCache s2 = fileContentCache s1
         /\ calls s2 = calls s1 ++ [ListFiles].
Proof.
  intros Hlist considered. split; [by apply fetchAllContent_footprint|].
  intros s1 Hrun Hlist1.
  assert (Hcached : forall f, f ∈ considered
                              -> map_has (file_key f) (fileContentCache s1) = true).
  { rewrite fetchAllContent_eq, Hlist in Hrun. cbn zeta in Hrun.
    pose proof (ingest_loop_ok w (length files) files 0 0
                  (add_message (TotalFiles (length files)) (add_call ListFiles s)))
      as Hok. cbv zeta in Hok. rewrite Nat.sub_0_r in Hok.
    destruct (ingest_loop _ _ _ _ _ _) as [n s'|e s'|s']; [|done..].
    destruct (Hok n s' eq_refl) as (_ & Hf & _).
    intros f Hin. specialize (Hf f Hin).
    destruct (0 <? n); [|by simplify_eq].
    rewrite saveCache_eq in Hrun. cbn zeta in Hrun.
    destruct (uploadFile w _ _) as [[]|]; [|done]. by simplify_eq. }
  rewrite fetchAllContent_eq, Hlist1. cbn zeta.
  set (s0 := add_message _ _).
  destruct (ingest_loop_skip w (length files) files 0 0 s0)
    as (s2 & -> & Hc & Hl).
  { rewrite Nat.sub_0_r. exact Hcached. }
  cbn. exists s2. done.
Qed.

Lemma ingestion_idempotent_witness :
  exists s2,
    fetchAllContent (steady_world 3)
      (final_state (fetchAllContent (steady_world 3) initial_state)) = Ok tt s2
    /\ fileContentCache s2
       = fileContentCache (final_state (fetchAllContent (steady_world 3) initial_state))
    /\ calls s2
       = calls (final_state (fetchAllContent (steady_world 3) initial_state))
         ++ [ListFiles].
Proof.
  apply (proj2 (ingestion_idempotent (steady_world 3) initial_state
                  (numbered_files 3) eq_refl)).
  - by vm_compute.
  - reflexivity.
Defined.

(** ** The cap *)

Lemma ingest_loop_prefix_only w total files fc np s :
  let r := ingest_loop w total files fc np s in
  forall total' s',
    fileContentCache s' = fileContentCache s -> calls s' = calls s ->
    same_effects r (ingest_loop w total'
                      (take (MAX_FILES_TO_PROCESS - fc) files) fc np s').
Proof.
  cbv zeta. ingest_induction w total files fc np s.
  - intros fc np s total' s' Hc Hl. rewrite take_nil. cbn. done.
  - intros file rest fc np s Hmax total' s' Hc Hl.
    rewrite considered_none by done. cbn. done.
  - intros file rest fc np s r Hmax Hhas IH total' s' Hc Hl.
    rewrite considered_cons, ingest_loop_cons by done.
    destruct (Nat.ltb_spec MAX_FILES_TO_PROCESS (S fc)); [lia|].
    cbn zeta. rewrite Hc, Hhas. by apply IH.
  - intros file rest fc np s Hmax Hhas Hfetch total' s' Hc Hl.
    rewrite considered_cons, ingest_loop_cons by done.
    destruct (Nat.ltb_spec MAX_FILES_TO_PROCESS (S fc)); [lia|].
    cbn zeta. rewrite Hc, Hhas, Hl, Hfetch. cbn. by rewrite ?Hc, ?Hl.
  - intros file rest fc np s passages Hmax Hhas Hfetch Hmod Hup total' s' Hc Hl.
    rewrite considered_cons, ingest_loop_cons by done.
    destruct (Nat.ltb_spec MAX_FILES_TO_PROCESS (S fc)); [lia|].
    cbn zeta. rewrite Hc, Hhas, Hl, Hfetch, Hmod. cbn [Nat.eqb].
    rewrite saveCache_eq. cbn zeta.
    cbn [calls fileContentCache with_cache add_call add_message] in *.
    rewrite Hl, Hup. cbn. by rewrite ?Hl.
  - intros file rest fc np s passages r Hmax Hhas Hfetch Hmod Hup IH total' s' Hc Hl.
    rewrite considered_cons, ingest_loop_cons by done.
    destruct (Nat.ltb_spec MAX_FILES_TO_PROCESS (S fc)); [lia|].
    cbn zeta. rewrite Hc, Hhas, Hl, Hfetch, Hmod. cbn [Nat.eqb].
    rewrite saveCache_eq. cbn zeta.
    cbn [calls fileContentCache with_cache add_call add_message] in *.
    rewrite Hl, Hup. apply IH; cbn; by rewrite ?Hl.
  - intros file rest fc np s passages r Hmax Hhas Hfetch Hmod IH total' s' Hc Hl.
    rewrite considered_cons, ingest_loop_cons by done.
    destruct (Nat.ltb_spec MAX_FILES_TO_PROCESS (S fc)); [lia|].
    cbn zeta. rewrite Hc, Hhas, Hl, Hfetch.
    destruct (Nat.eqb_spec (np mod 10) 0); [done|].
    apply IH; cbn; by rewrite ?Hl.
Qed.

(** The loop does not look at the listing service. *)
Lemma ingest_loop_with_listing listed w total files :
  forall fc np s,
    ingest_loop (with_listing listed w) total files fc np s
    = ingest_loop w total files fc np s.
Proof.
  induction files as [|file rest IH]; intros fc np s; [done|].
  rewrite !ingest_loop_cons. cbn zeta. cbn [with_listing filePassages].
  destruct (_ <? _); [done|]. destruct (map_has _ _); [apply IH|].
  destruct (filePassages w _ _); [|done].
  destruct (_ =? _); [|apply IH].
  rewrite !saveCache_eq. cbn zeta. cbn [with_listing uploadFile].
  destruct (uploadFile w _ _); [apply IH|done].
Qed.

Lemma saveCache_with_listing listed w s :
  saveCache (with_listing listed w) s = saveCache w s.
Proof. by rewrite !saveCache_eq. Qed.

Lemma saveCache_same_effects w s s' :
  fileContentCache s' = fileContentCache s -> calls s' = calls s ->
  same_effects (saveCache w s) (saveCache w s').
Proof.
  intros Hc Hl. rewrite !saveCache_eq. cbn zeta. rewrite Hc, Hl.
  destruct (uploadFile w _ _); cbn; by rewrite ?Hc, ?Hl.
Qed.

Lemma fetchAllContent_announces w s files :
  listFiles w (calls s) = Some files ->
  let r := fetchAllContent w s in
  is_Ok r ->
  processing_keys (console (final_state r))
  = processing_keys (console s) ++ map file_key (take MAX_FILES_TO_PROCESS files).
Proof.
  intros Hlist r. subst r. rewrite fetchAllContent_eq, Hlist. cbn zeta.
  pose proof (ingest_loop_ok w (length files) files 0 0
                (add_message (TotalFiles (length files)) (add_call ListFiles s)))
    as Hok. cbv zeta in Hok. rewrite Nat.sub_0_r in Hok.
  destruct (ingest_loop _ _ _ _ _ _) as [n s1|e s1|s1]; [|done..].
  destruct (Hok n s1 eq_refl) as (_ & _ & Hp).
  cbn [console add_message add_call] in Hp.
  rewrite processing_keys_app in Hp. cbn in Hp. rewrite app_nil_r in Hp.
  destruct (0 <? n); [|by intros _].
  rewrite saveCache_eq. cbn zeta. destruct (uploadFile w _ _) as [[]|]; [|done].
  intros _. cbn [final_state console add_message add_call].
  rewrite !processing_keys_app, Hp. cbn. by rewrite !app_nil_r.
Qed.

(** C5. When the content store lists more than MAX_FILES_TO_PROCESS
    documents, a run of fetchAllContent leaves the same cache and makes
    the same calls as a run against a store that lists only the first
    MAX_FILES_TO_PROCESS of them, in the same order.  Every passage fetch
    is for one of those first documents and every new cache entry is under
    the key of one of them (uploads of the cache are the only other
    calls, so no metadata is written); a later document is neither fetched
    nor cached by the run, unless it shares its id or key with one of the
    first.  A run that completes has announced exactly the first
    MAX_FILES_TO_PROCESS documents. *)
Theorem cap_is_prefix_cutoff w s files :
  listFiles w (calls s) = Some files ->
  MAX_FILES_TO_PROCESS < length files ->
  let r := fetchAllContent w s in
  let considered := take MAX_FILES_TO_PROCESS files in
  length considered = MAX_FILES_TO_PROCESS
  /\ same_effects r (fetchAllContent (with_listing considered w) s)
  /\ (exists new added,
        calls (final_state r) = calls s ++ ListFiles :: new
        /\ fileContentCache (final_state r) = fileContentCache s ++ added
        /\ Forall (loop_call considered (fileContentCache s)) new
        /\ Forall (loop_entry considered (fileContentCache s)) added
        /\ forall f, f ∈ drop MAX_FILES_TO_PROCESS files ->
             (file_id f ∉ map file_id considered -> FilePassages (file_id f) ∉ new)
             /\ (file_key f ∉ map file_key considered ->
                 map_has (file_key f) (fileContentCache s) = false ->
                 map_has (file_key f) (fileContentCache (final_state r)) = false))
  /\ (is_Ok r ->
      processing_keys (console (final_state r))
      = processing_keys (console s) ++ map file_key considered).
Proof.
  intros Hlist Hlen r considered.
  split; [subst considered; rewrite length_take; lia|]. split; [|split].
  - subst r. rewrite !fetchAllContent_eq, Hlist.
    cbn [with_listing listFiles]. cbn zeta.
    rewrite ingest_loop_with_listing.
    set (s0 := add_message (TotalFiles (length files)) _).
    set (s0' := add_message (TotalFiles (length considered)) _).
    pose proof (ingest_loop_prefix_only w (length files) files 0 0 s0
                  (length considered) s0' eq_refl eq_refl) as Hsame.
    rewrite Nat.sub_0_r in Hsame. fold considered in Hsame.
    destruct (ingest_loop w (length files) files 0 0 s0) as [n s1|e s1|s1],
             (ingest_loop w (length considered) considered 0 0 s0')
               as [n' s1'|e' s1'|s1']; try done.
    destruct Hsame as (-> & Hc & Hl). destruct (0 <? n'); [|done].
    rewrite (saveCache_with_listing considered).
    apply saveCache_same_effects; cbn; done.
  - destruct (fetchAllContent_footprint w s files Hlist)
      as (new & added & Hc & Hm & Hnew & Hadd).
    exists new, added. split; [done|]. split; [done|]. split; [done|].
    split; [done|]. intros f Hf. split.
    + intros Hid Hin. rewrite Forall_forall in Hnew.
      destruct (Hnew _ Hin) as [(f' & Hf' & _ & [= Heq])|[t [=]]].
      apply Hid. rewrite Heq. apply list_elem_of_fmap. by exists f'.
    + intros Hkey Hhas. fold r in Hm. rewrite Hm, map_has_app, Hhas. cbn.
      apply not_true_is_false. intros Hin%map_has_elem.
      apply list_elem_of_fmap in Hin as ([k v] & Hk & Hin). cbn in Hk. subst k.
      rewrite Forall_forall in Hadd.
      destruct (Hadd _ Hin) as (f' & Hf' & Heq & _). cbn in Heq.
      apply Hkey. rewrite Heq. apply list_elem_of_fmap. by exists f'.
  - by apply fetchAllContent_announces.
Qed.

(** C5 at the instance of the specification: 150 documents, cap 100. *)
Lemma cap_is_prefix_cutoff_witness :
  length (processing_keys
            (console (final_state (fetchAllContent (steady_world 150) initial_state))))
  = 100
  /\ length (drop MAX_FILES_TO_PROCESS (numbered_files 150)) = 50
  /\ Forall (fun f => map_has (file_key f)
                        (fileContentCache
                           (final_state (fetchAllContent (steady_world 150)
                                                         initial_state)))
                      = false)
            (drop MAX_FILES_TO_PROCESS (numbered_files 150)).
Proof.
  assert (Hlen : MAX_FILES_TO_PROCESS < length (numbered_files 150))
    by (vm_compute; lia).
  destruct (cap_is_prefix_cutoff (steady_world 150) initial_state
              (numbered_files 150) eq_refl Hlen)
    as (Hcons & _ & (new & added & _ & Hm & _ & _ & Hlater) & Hann).
  split; [|split].
  - rewrite Hann by by vm_compute.
    change (processing_keys (console initial_state)) with (@nil (list N)).
    cbn [app]. by rewrite length_map.
  - by vm_compute.
  - apply Forall_forall. intros f Hf. apply (Hlater f Hf); [|done].
    revert f Hf. apply Forall_forall.
    apply (bool_decide_unpack _). vm_compute. exact I.
Defined.

(** ** JSON strings: what is written parses back *)

Lemma hex_value_digit n : (n < 16)%N -> hex_value (hex_digit n) = Some n.
Proof.
  intros Hn. unfold hex_value, hex_digit, is_digit, in_range.
  destruct (N.ltb_spec n 10).
  - replace ((48 <=? 48 + n) && (48 + n <=? 57))%N with true
      by (symmetry; apply andb_true_intro; split; apply N.leb_le; lia).
    f_equal. lia.
  - replace ((48 <=? 87 + n) && (87 + n <=? 57))%N with false
      by (symmetry; apply andb_false_intro2, N.leb_gt; lia).
    replace ((97 <=? 87 + n) && (87 + n <=? 102))%N with true
      by (symmetry; apply andb_true_intro; split; apply N.leb_le; lia).
    f_equal. lia.
Qed.

Lemma hex4_escape c :
  (c < 65536)%N ->
  hex4 (hex_digit ((c / 4096) mod 16)) (hex_digit ((c / 256) mod 16))
       (hex_digit ((c / 16) mod 16)) (hex_digit (c mod 16)) = Some c.
Proof.
  intros Hc. unfold hex4. rewrite !hex_value_digit by lia. f_equal. lia.
Qed.

Lemma parse_unicode_escape c rest :
  (c < 65536)%N ->
  parse_string_chars (unicode_escape c ++ rest)
  = cons_fst c <$> parse_string_chars rest.
Proof.
  intros Hc. unfold unicode_escape. cbn [app].
  change (parse_string_chars (BACKSLASH :: 117%N :: ?h1 :: ?h2 :: ?h3 :: ?h4 :: rest))
    with (match hex4 h1 h2 h3 h4 with
          | Some u => cons_fst u <$> parse_string_chars rest
          | None => None
          end).
  by rewrite hex4_escape.
Qed.

Lemma parse_verbatim c rest :
  c <> QUOTE -> c <> BACKSLASH -> (32 <= c)%N ->
  parse_string_chars (c :: rest) = cons_fst c <$> parse_string_chars rest.
Proof.
  intros Hq Hb Hc. cbn [parse_string_chars].
  destruct (N.eqb_spec c QUOTE); [done|]. destruct (N.eqb_spec c BACKSLASH); [done|].
  destruct (N.ltb_spec c 32); [lia|done].
Qed.

Lemma parse_quote_unit c rest :
  is_lead_surrogate c = false -> is_trail_surrogate c = false ->
  parse_string_chars (quote_unit c ++ rest)
  = cons_fst c <$> parse_string_chars rest.
Proof.
  intros _ _. unfold quote_unit.
  destruct (N.eqb_spec c 8) as [->|?]; [done|].
  destruct (N.eqb_spec c 9) as [->|?]; [done|].
  destruct (N.eqb_spec c 10) as [->|?]; [done|].
  destruct (N.eqb_spec c 12) as [->|?]; [done|].
  destruct (N.eqb_spec c 13) as [->|?]; [done|].
  destruct (N.eqb_spec c QUOTE) as [->|?]; [done|].
  destruct (N.eqb_spec c BACKSLASH) as [->|?]; [done|].
  destruct (N.ltb_spec c 32).
  - apply parse_unicode_escape. lia.
  - by apply parse_verbatim.
Qed.

Lemma surrogate_verbatim c rest :
  is_lead_surrogate c = true \/ is_trail_surrogate c = true ->
  parse_string_chars (c :: rest) = cons_fst c <$> parse_string_chars rest.
Proof.
  unfold is_lead_surrogate, is_trail_surrogate, in_range.
  intros H. apply parse_verbatim; unfold QUOTE, BACKSLASH;
    destruct H as [[?%N.leb_le _]%andb_prop|[?%N.leb_le _]%andb_prop]; lia.
Qed.

Lemma surrogate_escape c rest :
  is_lead_surrogate c = true \/ is_trail_surrogate c = true ->
  parse_string_chars (unicode_escape c ++ rest)
  = cons_fst c <$> parse_string_chars rest.
Proof.
  unfold is_lead_surrogate, is_trail_surrogate, in_range.
  intros H. apply parse_unicode_escape.
  destruct H as [[_ ?%N.leb_le]%andb_prop|[_ ?%N.leb_le]%andb_prop]; lia.
Qed.

Lemma parse_quote_chars_aux x :
  (forall rest, parse_string_chars (quote_chars x ++ QUOTE :: rest) = Some (x, rest))
  /\ forall c rest,
       parse_string_chars (quote_chars (c :: x) ++ QUOTE :: rest)
       = Some (c :: x, rest).
Proof.
  induction x as [|d x [IH1 IH2]].
  - split; [done|]. intros c rest. cbn [quote_chars].
    destruct (is_lead_surrogate c) eqn:Hl.
    { rewrite surrogate_escape by by left. done. }
    destruct (is_trail_surrogate c) eqn:Ht.
    { rewrite <- app_assoc, surrogate_escape by by right. done. }
    rewrite <- app_assoc, parse_quote_unit by done. done.
  - split; [apply IH2|]. intros c rest.
    assert (Hd : forall rest, parse_string_chars (quote_chars (d :: x) ++ QUOTE :: rest)
                              = Some (d :: x, rest)) by apply IH2.
    change (quote_chars (c :: d :: x))
      with (if is_lead_surrogate c then
              if is_trail_surrogate d then c :: d :: quote_chars x
              else unicode_escape c ++ quote_chars (d :: x)
            else if is_trail_surrogate c
                 then unicode_escape c ++ quote_chars (d :: x)
                 else quote_unit c ++ quote_chars (d :: x)).
    destruct (is_lead_surrogate c) eqn:Hl.
    + destruct (is_trail_surrogate d) eqn:Ht.
      * cbn [app]. rewrite surrogate_verbatim by by left.
        rewrite surrogate_verbatim by by right. by rewrite IH1.
      * rewrite <- app_assoc, surrogate_escape by by left. by rewrite Hd.
    + destruct (is_trail_surrogate c) eqn:Ht.
      * rewrite <- app_assoc, surrogate_escape by by right. by rewrite Hd.
      * rewrite <- app_assoc, parse_quote_unit by done. by rewrite Hd.
Qed.

Lemma parse_quote_chars x rest :
  parse_string_chars (quote_chars x ++ QUOTE :: rest) = Some (x, rest).
Proof. apply parse_quote_chars_aux. Qed.

(** ** The fuel of JSON.parse is enough *)

Lemma parse_value_S fuel x :
  parse_value (S fuel) x
  = match skip_ws x with
    | [] => None
    | c :: rest =>
        if (c =? QUOTE)%N then
          '(s, rest) ← parse_string_chars rest; Some (JString s, rest)
        else if (c =? LBRACE)%N then
          match skip_ws rest with
          | c' :: rest' =>
              if (c' =? RBRACE)%N then Some (JObject [], rest')
              else '(ms, r) ← parse_members fuel (c' :: rest'); Some (JObject ms, r)
          | [] => None
          end
        else if (c =? LBRACKET)%N then
          match skip_ws rest with
          | c' :: rest' =>
              if (c' =? RBRACKET)%N then Some (JArray [], rest')
              else '(vs, r) ← parse_elements fuel (c' :: rest'); Some (JArray vs, r)
          | [] => None
          end
        else if (c =? 116)%N then
          r ← strip_prefix (lit "true") (c :: rest); Some (JBool true, r)
        else if (c =? 102)%N then
          r ← strip_prefix (lit "false") (c :: rest); Some (JBool false, r)
        else if (c =? 110)%N then
          r ← strip_prefix (lit "null") (c :: rest); Some (JNull, r)
        else
          '(n, r) ← parse_number (c :: rest); Some (JNumber n, r)
    end.
Proof. reflexivity. Qed.

Lemma parse_elements_S fuel x :
  parse_elements (S fuel) x
  = '(v, r) ← parse_value fuel x;
    match skip_ws r with
    | c :: r' =>
        if (c =? COMMA)%N then cons_fst v <$> parse_elements fuel r'
        else if (c =? RBRACKET)%N then Some ([v], r')
        else None
    | [] => None
    end.
Proof. reflexivity. Qed.

Lemma parse_members_S fuel x :
  parse_members (S fuel) x
  = match skip_ws x with
    | c :: r =>
        if (c =? QUOTE)%N then
          '(name, r) ← parse_string_chars r;
          match skip_ws r with
          | c1 :: r1 =>
              if (c1 =? COLON)%N then
                '(v, r2) ← parse_value fuel r1;
                match skip_ws r2 with
                | c2 :: r3 =>
                    if (c2 =? COMMA)%N
                    then cons_fst (name, v) <$> parse_members fuel r3
                    else if (c2 =? RBRACE)%N then Some ([(name, v)], r3)
                    else None
                | [] => None
                end
              else None
          | [] => None
          end
        else None
    | [] => None
    end.
Proof. reflexivity. Qed.

(** What the parsers leave is shorter than what they were given. *)
Lemma skip_ws_length x : length (skip_ws x) <= length x.
Proof.
  induction x as [|c x IH]; [done|]. cbn [skip_ws].
  destruct (is_json_ws c); cbn [length]; lia.
Qed.

Lemma fmap_cons_fst_snd {A B} (a : A) (o : option (list A * B)) q :
  cons_fst a <$> o = Some q -> exists p, o = Some p /\ q.2 = p.2 /\ q.1 = a :: p.1.
Proof. destruct o as [p|]; [|done]. intros [= <-]. by exists p. Qed.

Lemma parse_string_chars_length n : forall x s r,
  length x <= n -> parse_string_chars x = Some (s, r) -> length r < length x.
Proof.
  induction n as [|n IH]; intros x s r Hn.
  { destruct x; [done|cbn in Hn; lia]. }
  destruct x as [|c rest]; [done|]. cbn [parse_string_chars length] in *.
  destruct (c =? QUOTE)%N; [intros [= <- <-]; lia|].
  destruct (c =? BACKSLASH)%N.
  - destruct rest as [|e rest1]; [done|].
    destruct (e =? 117)%N.
    + destruct rest1 as [|h1 [|h2 [|h3 [|h4 rest2]]]]; try done.
      destruct (hex4 h1 h2 h3 h4); [|done].
      intros (p & Hp & Hr & _)%fmap_cons_fst_snd. destruct p as [s' r'].
      cbn in Hr. subst r'. apply IH in Hp; cbn [length] in *; lia.
    + destruct (simple_escape e); [|done].
      intros (p & Hp & Hr & _)%fmap_cons_fst_snd. destruct p as [s' r'].
      cbn in Hr. subst r'. apply IH in Hp; cbn [length] in *; lia.
  - destruct (c <? 32)%N; [done|].
    intros (p & Hp & Hr & _)%fmap_cons_fst_snd. destruct p as [s' r'].
    cbn in Hr. subst r'. apply IH in Hp; lia.
Qed.

Lemma take_digits_length x :
  length (take_digits x).1 + length (take_digits x).2 = length x.
Proof.
  induction x as [|c x IH]; [done|]. cbn [take_digits].
  destruct (is_digit c); cbn [cons_fst fst snd length]; lia.
Qed.

Lemma parse_digits1_length x d r :
  parse_digits1 x = Some (d, r) -> length r < length x.
Proof.
  unfold parse_digits1. pose proof (take_digits_length x) as H.
  destruct (take_digits x) as [[|c ds] r']; [done|].
  intros [= <- <-]. cbn [fst snd length] in H. lia.
Qed.

Lemma strip_prefix_length p : forall x r,
  strip_prefix p x = Some r -> length x = length p + length r.
Proof.
  induction p as [|a p IH]; intros x r; cbn [strip_prefix].
  { by intros [= ->]. }
  destruct x as [|b x]; [done|]. destruct (a =? b)%N; [|done].
  intros H%IH. cbn [length]. lia.
Qed.

Lemma parse_number_length x n r :
  parse_number x = Some (n, r) -> length r < length x.
Proof.
  unfold parse_number.
  set (signed := match x with
                 | c :: rest => if (c =? 45)%N then ([c], rest) else ([], x)
                 | [] => ([], x)
                 end).
  assert (Hsign : length signed.2 <= length x).
  { subst signed. destruct x as [|c rest]; [done|].
    destruct (c =? 45)%N; cbn [snd length]; lia. }
  destruct signed as [sign x1]. cbn [snd] in Hsign.
  destruct x1 as [|c1 rest1]; [done|].
  set (int := if (c1 =? 48)%N then Some ([c1], rest1)
              else if in_range 49 57 c1 then Some (cons_fst c1 (take_digits rest1))
              else None).
  assert (Hint : forall i x2, int = Some (i, x2) -> length x2 <= length rest1).
  { subst int. intros i x2. destruct (c1 =? 48)%N; [by intros [= <- <-]|].
    destruct (in_range 49 57 c1); [|done]. intros [= <- <-].
    pose proof (take_digits_length rest1). lia. }
  destruct int as [[i x2]|]; [|done]. specialize (Hint i x2 eq_refl).
  cbn [mbind option_bind].
  set (frac := match x2 with
               | c :: rest =>
                   if (c =? 46)%N then cons_fst c <$> parse_digits1 rest
                   else Some ([], x2)
               | [] => Some ([], x2)
               end).
  assert (Hfrac : forall f x3, frac = Some (f, x3) -> length x3 <= length x2).
  { subst frac. intros f x3. destruct x2 as [|c rest]; [by intros [= <- <-]|].
    destruct (c =? 46)%N; [|by intros [= <- <-]].
    intros ([d r'] & Hp & Hr & _)%fmap_cons_fst_snd. cbn in Hr. subst r'.
    apply parse_digits1_length in Hp. cbn [length]. lia. }
  destruct frac as [[f x3]|]; [|done]. specialize (Hfrac f x3 eq_refl).
  cbn [mbind option_bind].
  set (exp := match x3 with
              | c :: rest =>
                  if ((c =? 101) || (c =? 69))%N then
                    match rest with
                    | s :: rest' =>
                        if ((s =? 43) || (s =? 45))%N
                        then cons_fst c <$> (cons_fst s <$> parse_digits1 rest')
                        else cons_fst c <$> parse_digits1 rest
                    | [] => None
                    end
                  else Some ([], x3)
              | [] => Some ([], x3)
              end).
  assert (Hexp : forall e x4, exp = Some (e, x4) -> length x4 <= length x3).
  { subst exp. intros e x4. destruct x3 as [|c rest]; [by intros [= <- <-]|].
    destruct ((c =? 101) || (c =? 69))%N; [|by intros [= <- <-]].
    destruct rest as [|s rest']; [done|].
    destruct ((s =? 43) || (s =? 45))%N.
    - intros ([d r'] & Hp & Hr & _)%fmap_cons_fst_snd. cbn in Hr. subst r'.
      apply fmap_cons_fst_snd in Hp as ([d' r'] & Hp & Hr & _).
      cbn in Hr. subst r'. apply parse_digits1_length in Hp.
      cbn [length]. lia.
    - intros ([d r'] & Hp & Hr & _)%fmap_cons_fst_snd. cbn in Hr. subst r'.
      apply parse_digits1_length in Hp. cbn [length] in *. lia. }
  destruct exp as [[e x4]|]; [|done]. specialize (Hexp e x4 eq_refl).
  cbn [mbind option_bind]. intros [= <- <-]. cbn [length] in *. lia.
Qed.

(** A parse that succeeds with some fuel succeeds with twice the number of
    code units it consumes. *)
Lemma parse_fuel_bound fuel :
  (forall x v r, parse_value fuel x = Some (v, r) ->
     length r < length x
     /\ forall g, 2 * (length x - length r) <= S g ->
                  parse_value (S g) x = Some (v, r))
  /\ (forall x vs r, parse_elements fuel x = Some (vs, r) ->
        length r < length x
        /\ forall g, 2 * (length x - length r) <= S g ->
                     parse_elements (S g) x = Some (vs, r))
  /\ (forall x ms r, parse_members fuel x = Some (ms, r) ->
        length r < length x
        /\ forall g, 2 * (length x - length r) <= S g ->
                     parse_members (S g) x = Some (ms, r)).
Proof.
  induction fuel as [|fuel (IHv & IHe & IHm)]; [done|].
  split; [|split].
  - intros x v r H. rewrite parse_value_S in H.
    pose proof (skip_ws_length x) as Hws.
    destruct (skip_ws x) as [|c rest] eqn:Hskip; [done|]. cbn [length] in Hws.
    destruct (c =? QUOTE)%N eqn:Hq.
    { destruct (parse_string_chars rest) as [[s r0]|] eqn:E; [|done].
      cbn in H. injection H as <- <-.
      apply (parse_string_chars_length _ _ _ _ (le_n _)) in E as Hlen.
      split; [lia|]. intros g _. by rewrite parse_value_S, Hskip, Hq, E. }
    destruct (c =? LBRACE)%N eqn:Hb.
    { pose proof (skip_ws_length rest) as Hws'.
      destruct (skip_ws rest) as [|c' rest'] eqn:Hskip'; [done|].
      cbn [length] in Hws'.
      destruct (c' =? RBRACE)%N eqn:Hc'.
      { injection H as <- <-. split; [lia|]. intros g _.
        by rewrite parse_value_S, Hskip, Hq, Hb, Hskip', Hc'. }
      destruct (parse_members fuel (c' :: rest')) as [[ms r0]|] eqn:E; [|done].
      cbn in H. injection H as <- <-.
      destruct (IHm _ _ _ E) as [Hlen Hg]. cbn [length] in Hlen, Hg.
      split; [lia|]. intros [|g] Hfuel; [lia|].
      rewrite parse_value_S, Hskip, Hq, Hb, Hskip', Hc'.
      rewrite Hg by lia. done. }
    destruct (c =? LBRACKET)%N eqn:Ha.
    { pose proof (skip_ws_length rest) as Hws'.
      destruct (skip_ws rest) as [|c' rest'] eqn:Hskip'; [done|].
      cbn [length] in Hws'.
      destruct (c' =? RBRACKET)%N eqn:Hc'.
      { injection H as <- <-. split; [lia|]. intros g _.
        by rewrite parse_value_S, Hskip, Hq, Hb, Ha, Hskip', Hc'. }
      destruct (parse_elements fuel (c' :: rest')) as [[vs r0]|] eqn:E; [|done].
      cbn in H. injection H as <- <-.
      destruct (IHe _ _ _ E) as [Hlen Hg]. cbn [length] in Hlen, Hg.
      split; [lia|]. intros [|g] Hfuel; [lia|].
      rewrite parse_value_S, Hskip, Hq, Hb, Ha, Hskip', Hc'.
      rewrite Hg by lia. done. }
    destruct (c =? 116)%N eqn:Ht.
    { destruct (strip_prefix _ _) as [r0|] eqn:E; [|done].
      cbn in H. injection H as <- <-.
      apply strip_prefix_length in E as Hlen. cbn [length] in Hlen.
      split; [cbn in Hlen; lia|]. intros g _.
      by rewrite parse_value_S, Hskip, Hq, Hb, Ha, Ht, E. }
    destruct (c =? 102)%N eqn:Hf.
    { destruct (strip_prefix _ _) as [r0|] eqn:E; [|done].
      cbn in H. injection H as <- <-.
      apply strip_prefix_length in E as Hlen. cbn [length] in Hlen.
      split; [cbn in Hlen; lia|]. intros g _.
      by rewrite parse_value_S, Hskip, Hq, Hb, Ha, Ht, Hf, E. }
    destruct (c =? 110)%N eqn:Hn.
    { destruct (strip_prefix _ _) as [r0|] eqn:E; [|done].
      cbn in H. injection H as <- <-.
      apply strip_prefix_length in E as Hlen. cbn [length] in Hlen.
      split; [cbn in Hlen; lia|]. intros g _.
      by rewrite parse_value_S, Hskip, Hq, Hb, Ha, Ht, Hf, Hn, E. }
    destruct (parse_number (c :: rest)) as [[n r0]|] eqn:E; [|done].
    cbn in H. injection H as <- <-.
    apply parse_number_length in E as Hlen. cbn [length] in Hlen.
    split; [lia|]. intros g _.
    by rewrite parse_value_S, Hskip, Hq, Hb, Ha, Ht, Hf, Hn, E.
  - intros x vs r H. rewrite parse_elements_S in H.
    destruct (parse_value fuel x) as [[v r1]|] eqn:E; [|done].
    cbn [mbind option_bind] in H.
    destruct (IHv _ _ _ E) as [Hlen Hg].
    pose proof (skip_ws_length r1) as Hws.
    destruct (skip_ws r1) as [|c r'] eqn:Hskip; [done|]. cbn [length] in Hws.
    destruct (c =? COMMA)%N eqn:Hc.
    + apply fmap_cons_fst_snd in H as ([vs' r2] & E' & Hr & Hvs).
      cbn in Hr, Hvs. subst r2 vs.
      destruct (IHe _ _ _ E') as [Hlen' Hg'].
      split; [lia|]. intros [|g] Hfuel; [lia|].
      rewrite parse_elements_S, Hg by lia. cbn [mbind option_bind].
      rewrite Hskip, Hc, Hg' by lia. done.
    + destruct (c =? RBRACKET)%N eqn:Hb; [|done]. injection H as <- <-.
      split; [lia|]. intros [|g] Hfuel; [lia|].
      rewrite parse_elements_S, Hg by lia. cbn [mbind option_bind].
      by rewrite Hskip, Hc, Hb.
  - intros x ms r H. rewrite parse_members_S in H.
    pose proof (skip_ws_length x) as Hws.
    destruct (skip_ws x) as [|c r0] eqn:Hskip; [done|]. cbn [length] in Hws.
    destruct (c =? QUOTE)%N eqn:Hq; [|done].
    destruct (parse_string_chars r0) as [[name r1]|] eqn:Ename; [|done].
    cbn [mbind option_bind] in H.
    apply (parse_string_chars_length _ _ _ _ (le_n _)) in Ename as Hname.
    pose proof (skip_ws_length r1) as Hws1.
    destruct (skip_ws r1) as [|c1 r2] eqn:Hskip1; [done|]. cbn [length] in Hws1.
    destruct (c1 =? COLON)%N eqn:Hcolon; [|done].
    destruct (parse_value fuel r2) as [[v r3]|] eqn:E; [|done].
    cbn [mbind option_bind] in H.
    destruct (IHv _ _ _ E) as [Hlen Hg].
    pose proof (skip_ws_length r3) as Hws3.
    destruct (skip_ws r3) as [|c2 r4] eqn:Hskip3; [done|]. cbn [length] in Hws3.
    destruct (c2 =? COMMA)%N eqn:Hc.
    + apply fmap_cons_fst_snd in H as ([ms' r5] & E' & Hr & Hms).
      cbn in Hr, Hms. subst r5 ms.
      destruct (IHm _ _ _ E') as [Hlen' Hg'].
      split; [lia|]. intros [|g] Hfuel; [lia|].
      rewrite parse_members_S, Hskip, Hq, Ename. cbn [mbind option_bind].
      rewrite Hskip1, Hcolon, Hg by lia. cbn [mbind option_bind].
      rewrite Hskip3, Hc, Hg' by lia. done.
    + destruct (c2 =? RBRACE)%N eqn:Hb; [|done]. injection H as <- <-.
      split; [lia|]. intros [|g] Hfuel; [lia|].
      rewrite parse_members_S, Hskip, Hq, Ename. cbn [mbind option_bind].
      rewrite Hskip1, Hcolon, Hg by lia. cbn [mbind option_bind].
      by rewrite Hskip3, Hc, Hb.
Qed.

(** JSON.parse fails only on a text that no amount of fuel parses: its
    [None] is the SyntaxError, never a shortage of fuel. *)
Lemma JSON_parse_fuel_enough x fuel v r :
  parse_value fuel x = Some (v, r) -> skip_ws r = [] -> JSON_parse x = Some v.
Proof.
  intros H Hr. destruct (parse_fuel_bound fuel) as (Hv & _ & _).
  destruct (Hv _ _ _ H) as [Hlen Hg]. unfold JSON_parse, parse_fuel.
  replace (2 * length x + 2) with (S (2 * length x + 1)) by lia.
  rewrite Hg by lia. cbn [mbind option_bind]. by rewrite Hr.
Qed.

Lemma JSON_parse_None x :
  JSON_parse x = None
  <-> forall fuel v r, parse_value fuel x = Some (v, r) -> skip_ws r <> [].
Proof.
  split.
  - intros Hnone fuel v r H Hr.
    by rewrite (JSON_parse_fuel_enough x fuel v r H Hr) in Hnone.
  - intros H. unfold JSON_parse.
    destruct (parse_value (parse_fuel x) x) as [[v r]|] eqn:E; [|done].
    cbn [mbind option_bind]. specialize (H _ _ _ E).
    by destruct (skip_ws r).
Qed.

(** ** One record per line *)


Lemma hex_digit_no_LF n : hex_digit n <> LF.
Proof. unfold hex_digit, LF. destruct (n <? 10)%N; lia. Qed.

Lemma unicode_escape_no_LF c : no_LF (unicode_escape c).
Proof.
  unfold unicode_escape, no_LF.
  repeat (constructor; [first [apply hex_digit_no_LF | done]|]). constructor.
Qed.

Lemma quote_unit_no_LF c : no_LF (quote_unit c).
Proof.
  unfold quote_unit, no_LF.
  repeat (match goal with |- context [N.eqb ?a ?b] => destruct (N.eqb_spec a b) end;
          [by repeat constructor|]).
  destruct (c <? 32)%N; [apply unicode_escape_no_LF|].
  by repeat constructor.
Qed.

Lemma surrogate_no_LF c :
  is_lead_surrogate c = true \/ is_trail_surrogate c = true -> c <> LF.
Proof.
  unfold is_lead_surrogate, is_trail_surrogate, in_range, LF.
  intros [[?%N.leb_le _]%andb_prop|[?%N.leb_le _]%andb_prop]; lia.
Qed.

Lemma quote_chars_no_LF_aux x :
  no_LF (quote_chars x) /\ forall c, no_LF (quote_chars (c :: x)).
Proof.
  unfold no_LF. induction x as [|d x [IH1 IH2]].
  - split; [constructor|]. intros c. cbn [quote_chars].
    destruct (is_lead_surrogate c); [apply unicode_escape_no_LF|].
    destruct (is_trail_surrogate c); apply Forall_app;
      (split; [first [apply unicode_escape_no_LF|apply quote_unit_no_LF]
              |constructor]).
  - split; [apply IH2|]. intros c.
    change (quote_chars (c :: d :: x))
      with (if is_lead_surrogate c then
              if is_trail_surrogate d then c :: d :: quote_chars x
              else unicode_escape c ++ quote_chars (d :: x)
            else if is_trail_surrogate c
                 then unicode_escape c ++ quote_chars (d :: x)
                 else quote_unit c ++ quote_chars (d :: x)).
    destruct (is_lead_surrogate c) eqn:Hl.
    + destruct (is_trail_surrogate d) eqn:Ht.
      * constructor; [apply surrogate_no_LF; by left|].
        constructor; [apply surrogate_no_LF; by right|done].
      * apply Forall_app. split; [apply unicode_escape_no_LF|apply IH2].
    + destruct (is_trail_surrogate c); apply Forall_app;
        (split; [first [apply unicode_escape_no_LF|apply quote_unit_no_LF]
                |apply IH2]).
Qed.

Lemma stringify_string_no_LF x : no_LF (stringify_string x).
Proof.
  unfold stringify_string, no_LF. constructor; [done|]. apply Forall_app.
  split; [apply quote_chars_no_LF_aux|by repeat constructor].
Qed.

Lemma stringify_entry_no_LF e : no_LF (stringify_entry e).
Proof.
  unfold stringify_entry, no_LF.
  repeat (apply Forall_app; split);
    first [apply stringify_string_no_LF | by repeat constructor].
Qed.

Lemma split_lines_no_LF x : no_LF x -> split_lines x = [x].
Proof.
  induction 1 as [|c x Hc _ IH]; [done|]. cbn [split_lines].
  destruct (N.eqb_spec c LF); [done|]. by rewrite IH.
Qed.

Lemma split_lines_app_LF x y :
  no_LF x -> split_lines (x ++ LF :: y) = x :: split_lines y.
Proof.
  induction 1 as [|c x Hc _ IH]; [done|]. cbn [split_lines app].
  destruct (N.eqb_spec c LF); [done|]. by rewrite IH.
Qed.

Lemma split_lines_join (ls : list (list N)) :
  ls <> [] -> Forall no_LF ls -> split_lines (join [LF] ls) = ls.
Proof.
  intros Hne Hls. induction Hls as [|l ls Hl Hls IH]; [done|].
  destruct ls as [|l' ls].
  - cbn. by apply split_lines_no_LF.
  - change (join [LF] (l :: l' :: ls)) with (l ++ LF :: join [LF] (l' :: ls)).
    rewrite split_lines_app_LF by done. by rewrite IH.
Qed.

(** ** A written record parses back *)

Lemma stringify_entry_eq key content :
  stringify_entry (key, content)
  = LBRACE :: QUOTE :: quote_chars (lit "key") ++ QUOTE :: COLON :: QUOTE
    :: quote_chars key ++ QUOTE :: COMMA :: QUOTE :: quote_chars (lit "content")
    ++ QUOTE :: COLON :: QUOTE :: quote_chars content ++ QUOTE :: [RBRACE].
Proof.
  unfold stringify_entry, stringify_string. cbn [fst snd].
  repeat first [rewrite <- app_assoc | progress cbn [app]]. reflexivity.
Qed.

Lemma parse_value_string fuel x rest :
  parse_value (S fuel) (QUOTE :: quote_chars x ++ QUOTE :: rest)
  = Some (JString x, rest).
Proof.
  change (parse_value (S fuel) (QUOTE :: ?input))
    with ('(s, r0) ← parse_string_chars input; Some (JString s, r0)).
  by rewrite parse_quote_chars.
Qed.

Lemma parse_value_object fuel rest :
  parse_value (S fuel) (LBRACE :: QUOTE :: rest)
  = '(ms, r) ← parse_members fuel (QUOTE :: rest); Some (JObject ms, r).
Proof. reflexivity. Qed.

(** A member whose value is a string, followed by a comma. *)
Lemma parse_members_comma fuel name x rest :
  parse_members (S (S fuel))
    (QUOTE :: quote_chars name ++ QUOTE :: COLON :: QUOTE
     :: quote_chars x ++ QUOTE :: COMMA :: rest)
  = cons_fst (name, JString x) <$> parse_members (S fuel) rest.
Proof.
  change (parse_members (S (S fuel)) (QUOTE :: ?input))
    with ('(name, r0) ← parse_string_chars input;
          match skip_ws r0 with
          | c1 :: r1 =>
              if (c1 =? COLON)%N then
                '(v, r2) ← parse_value (S fuel) r1;
                match skip_ws r2 with
                | c2 :: r3 =>
                    if (c2 =? COMMA)%N
                    then cons_fst (name, v) <$> parse_members (S fuel) r3
                    else if (c2 =? RBRACE)%N then Some ([(name, v)], r3)
                    else None
                | [] => None
                end
              else None
          | [] => None
          end).
  rewrite parse_quote_chars. cbn [mbind option_bind skip_ws].
  change (is_json_ws COLON) with false. change (COLON =? COLON)%N with true.
  cbn match. rewrite parse_value_string. reflexivity.
Qed.

(** A member whose value is a string, followed by the closing brace. *)
Lemma parse_members_rbrace fuel name x rest :
  parse_members (S (S fuel))
    (QUOTE :: quote_chars name ++ QUOTE :: COLON :: QUOTE
     :: quote_chars x ++ QUOTE :: RBRACE :: rest)
  = Some ([(name, JString x)], rest).
Proof.
  change (parse_members (S (S fuel)) (QUOTE :: ?input))
    with ('(name, r0) ← parse_string_chars input;
          match skip_ws r0 with
          | c1 :: r1 =>
              if (c1 =? COLON)%N then
                '(v, r2) ← parse_value (S fuel) r1;
                match skip_ws r2 with
                | c2 :: r3 =>
                    if (c2 =? COMMA)%N
                    then cons_fst (name, v) <$> parse_members (S fuel) r3
                    else if (c2 =? RBRACE)%N then Some ([(name, v)], r3)
                    else None
                | [] => None
                end
              else None
          | [] => None
          end).
  rewrite parse_quote_chars. cbn [mbind option_bind skip_ws].
  change (is_json_ws COLON) with false. change (COLON =? COLON)%N with true.
  cbn match. rewrite parse_value_string. reflexivity.
Qed.

Lemma parse_value_entry fuel key content :
  parse_value (S (S (S (S fuel)))) (stringify_entry (key, content))
  = Some (JObject [(lit "key", JString key); (lit "content", JString content)], []).
Proof.
  rewrite stringify_entry_eq, parse_value_object, parse_members_comma,
    parse_members_rbrace. reflexivity.
Qed.

Lemma JSON_parse_entry key content :
  JSON_parse (stringify_entry (key, content))
  = Some (JObject [(lit "key", JString key); (lit "content", JString content)]).
Proof.
  unfold JSON_parse, parse_fuel.
  assert (Hlen : exists n, length (stringify_entry (key, content)) = S n).
  { rewrite stringify_entry_eq. cbn [length]. eauto. }
  destruct Hlen as [n ->].
  replace (2 * S n + 2) with (S (S (S (S (2 * n))))) by lia.
  by rewrite parse_value_entry.
Qed.

Lemma line_effect_entry key content :
  line_effect (stringify_entry (key, content))
  = LineSet (VString key) (VString content).
Proof. unfold line_effect. by rewrite JSON_parse_entry. Qed.

Lemma stringify_entry_truthy e : truthy (stringify_entry e) = true.
Proof. destruct e. by rewrite stringify_entry_eq. Qed.

(** ** The Map at run time and the declared Map *)

Lemma typed_untyped_cache (cache : list (list N * list N)) :
  typed_cache (untyped_cache cache) = Some cache.
Proof.
  unfold typed_cache, untyped_cache.
  induction cache as [|[k v] cache IH]; [done|].
  cbn [map mapM fst snd as_strings mbind option_bind]. rewrite IH. done.
Qed.

Lemma typed_cache_strings (m : list (value * value)) cache :
  typed_cache m = Some cache -> m = untyped_cache cache.
Proof.
  unfold typed_cache, untyped_cache. revert cache.
  induction m as [|[k v] m IH]; intros cache.
  { by intros [= <-]. }
  cbn [mapM]. destruct (as_strings (k, v)) as [[k' v']|] eqn:He; [|done].
  cbn [mbind option_bind]. destruct (mapM as_strings m) as [c|]; [|done].
  intros [= <-]. cbn [map fst snd]. rewrite <- (IH c eq_refl).
  destruct k, v; try done. by injection He as -> ->.
Qed.

Lemma omap_untyped_cache (cache : list (list N * list N)) :
  omap as_strings (untyped_cache cache) = cache.
Proof.
  induction cache as [|[k v] cache IH]; [done|].
  change (omap as_strings (untyped_cache ((k, v) :: cache)))
    with ((k, v) :: omap as_strings (untyped_cache cache)).
  by rewrite IH.
Qed.

Lemma typed_untyped (s : Store (list (list N * list N))) :
  typed (untyped s) = Some s.
Proof.
  unfold typed, untyped. cbn [fileContentCache with_cache].
  rewrite typed_untyped_cache. by destruct s.
Qed.

Lemma untyped_add_call c (s : Store (list (list N * list N))) :
  add_call c (untyped s) = untyped (add_call c s).
Proof. reflexivity. Qed.

Lemma untyped_add_message msg (s : Store (list (list N * list N))) :
  add_message msg (untyped s) = untyped (add_message msg s).
Proof. reflexivity. Qed.

Lemma untyped_with_cache (cache : list (list N * list N))
    (s : Store (list (list N * list N))) :
  with_cache (untyped_cache cache) (untyped s) = untyped (with_cache cache s).
Proof. reflexivity. Qed.

Lemma typed_store (u : Store (list (value * value))) s :
  typed u = Some s -> u = untyped s.
Proof.
  unfold typed, untyped.
  destruct (typed_cache (fileContentCache u)) as [c|] eqn:Hc; [|done].
  intros [= <-]. cbn [fileContentCache with_cache calls console].
  rewrite <- (typed_cache_strings _ _ Hc). by destruct u.
Qed.

Lemma any_set_strings k v (m : list (list N * list N)) :
  any_set (VString k) (VString v) (untyped_cache m) = untyped_cache (map_set k v m).
Proof.
  induction m as [|[k' v'] m IH]; [done|].
  cbn [untyped_cache map any_set map_set fst snd same_value_zero].
  destruct (decide (k = k')) as [->|Hne].
  - by rewrite bool_decide_eq_true_2.
  - rewrite bool_decide_eq_false_2 by done. cbn [map fst snd].
    unfold untyped_cache in IH. by rewrite IH.
Qed.

Lemma any_fold_strings (entries : list (list N * list N)) :
  forall m : list (list N * list N),
    fold_left any_set_entry (untyped_cache entries) (untyped_cache m)
    = untyped_cache (fold_left set_entry entries m).
Proof.
  induction entries as [|[k v] entries IH]; intros m; [done|].
  cbn [untyped_cache map fold_left fst snd]. unfold any_set_entry at 2.
  cbn [fst snd]. rewrite any_set_strings. apply IH.
Qed.

Lemma any_set_nonempty k v (m : list (value * value)) : any_set k v m <> [].
Proof.
  destruct m as [|[k' v'] m]; [done|]. cbn. by destruct (same_value_zero k k').
Qed.

Lemma any_fold_nonempty (entries : list (value * value)) :
  forall m, m <> [] -> fold_left any_set_entry entries m <> [].
Proof.
  induction entries as [|e entries IH]; intros m Hm; [done|].
  cbn [fold_left]. apply IH, any_set_nonempty.
Qed.

(** ** restoreCache *)

Lemma fold_set_fresh entries : forall m : list (list N * list N),
  NoDup (m.*1 ++ entries.*1) -> fold_left set_entry entries m = m ++ entries.
Proof.
  induction entries as [|[k v] entries IH]; intros m Hnd.
  { by rewrite app_nil_r. }
  cbn [fold_left]. unfold set_entry at 2. cbn [fst snd].
  assert (Hfresh : map_has k m = false).
  { apply not_true_is_false. intros Hin%map_has_elem.
    apply NoDup_app in Hnd as (_ & Hdisj & _). apply (Hdisj k Hin). by left. }
  rewrite map_set_fresh by done. rewrite IH.
  - by rewrite <- app_assoc.
  - rewrite fmap_app, <- app_assoc. exact Hnd.
Qed.

(** The loop over the lines in closed form. *)
Lemma restore_lines_run lines : forall u,
  Any.restore_lines lines u
  = match run_lines lines (fileContentCache u) with
    | (m, None) => Ok tt (with_cache m u)
    | (m, Some e) => Thrown e (with_cache m u)
    end.
Proof.
  induction lines as [|line lines IH]; intros u.
  { cbn. by destruct u. }
  cbn [Any.restore_lines run_lines]. unfold bind at 1. destruct (truthy line).
  - destruct (line_effect line) as [k v|e].
    + unfold Any.cache_set. rewrite IH. cbn [fileContentCache with_cache].
      by destruct (run_lines _ _) as [m [e|]].
    + unfold throw. by destruct u.
  - unfold ret. apply IH.
Qed.

Lemma any_restoreCache_eq w u :
  Any.restoreCache w u
  = match getFile w (calls u) with
    | None => Ok tt u
    | Some url =>
        match fetchText w (calls u ++ [GetFile]) url with
        | None => Ok tt (add_call GetFile u)
        | Some x =>
            let u1 := add_call (FetchText url) (add_call GetFile u) in
            match run_lines (split_lines x) (fileContentCache u) with
            | (m, None) =>
                Ok tt (add_message (CacheRestored (length m)) (with_cache m u1))
            | (m, Some _) => Ok tt (with_cache m u1)
            end
        end
    end.
Proof.
  unfold Any.restoreCache, try_catch. unfold bind at 1, external at 1.
  destruct (getFile w (calls u)) as [url|]; [|done].
  unfold bind at 1, external at 1. cbn [calls add_call].
  destruct (fetchText w _ url) as [x|]; [|done].
  unfold bind at 1. rewrite restore_lines_run. cbn [fileContentCache add_call].
  by destruct (run_lines _ _) as [m [e|]].
Qed.

Lemma run_lines_skip_blank lines : forall m,
  run_lines lines m = run_lines (List.filter truthy lines) m.
Proof.
  induction lines as [|line lines IH]; intros m; [done|].
  cbn [List.filter]. destruct (truthy line) eqn:Ht; cbn [run_lines]; rewrite Ht.
  - by destruct (line_effect line).
  - apply IH.
Qed.

Lemma line_entries_cons line lines :
  line_entries (line :: lines)
  = match line_entry line with
    | Some e => e :: line_entries lines
    | None => line_entries lines
    end.
Proof. reflexivity. Qed.

(** Lines that do not throw set their entries one after the other. *)
Lemma run_lines_good lines : forall m more,
  Forall (fun line => line_throws line = false) lines ->
  run_lines (lines ++ more) m
  = run_lines more (fold_left any_set_entry (line_entries lines) m).
Proof.
  induction lines as [|line lines IH]; intros m more Hall; [done|].
  apply Forall_cons in Hall as [Hline Hall]. unfold line_throws in Hline.
  cbn [app run_lines]. rewrite line_entries_cons. unfold line_entry.
  destruct (truthy line); [|by apply IH].
  destruct (line_effect line) as [k v|e]; [|done].
  cbn [fold_left]. by apply IH.
Qed.

Lemma run_lines_bad bad more m :
  line_throws bad = true -> exists e, run_lines (bad :: more) m = (m, Some e).
Proof.
  unfold line_throws. cbn [run_lines]. destruct (truthy bad); [|done].
  destruct (line_effect bad) as [k v|e]; [done|]. by exists e.
Qed.

(** Every text has lines that do not throw up to its end, or up to a first
    line that throws. *)
Lemma lines_split (ls : list (list N)) :
  Forall (fun line => line_throws line = false) ls
  \/ exists lines bad more,
       ls = lines ++ bad :: more
       /\ Forall (fun line => line_throws line = false) lines
       /\ line_throws bad = true.
Proof.
  induction ls as [|l ls IH]; [by left|].
  destruct (line_throws l) eqn:Hl.
  { right. by exists [], l, ls. }
  destruct IH as [IH|(lines & bad & more & -> & Hall & Hbad)].
  - left. by constructor.
  - right. exists (l :: lines), bad, more. split; [done|]. split; [|done].
    by constructor.
Qed.

(** Records with string members, in a file whose other lines are empty. *)
Lemma run_lines_records lines :
  forall (entries m : list (list N * list N)),
    Forall2 (fun line e => line_effect line = LineSet (VString e.1) (VString e.2))
            (List.filter truthy lines) entries ->
    run_lines lines (untyped_cache m)
    = (untyped_cache (fold_left set_entry entries m), None).
Proof.
  induction lines as [|line lines IH]; intros entries m H.
  { cbn in H. apply Forall2_nil_inv_l in H as ->. done. }
  cbn [List.filter] in H. cbn [run_lines]. destruct (truthy line).
  - apply Forall2_cons_inv_l in H as ([k v] & entries' & He & H & ->).
    rewrite He. cbn [fst snd fold_left]. rewrite any_set_strings. by apply IH.
  - by apply IH.
Qed.

Lemma restoreCache_absent w (s : Store (list (list N * list N))) :
  getFile w (calls s) = None -> restoreCache w s = Ok tt s.
Proof.
  intros Hget. unfold restoreCache, in_types. rewrite any_restoreCache_eq.
  cbn [calls untyped with_cache]. rewrite Hget.
  change (with_cache _ s) with (untyped s). by rewrite typed_untyped.
Qed.

Lemma restoreCache_unfetched w (s : Store (list (list N * list N))) url :
  getFile w (calls s) = Some url ->
  fetchText w (calls s ++ [GetFile]) url = None ->
  restoreCache w s = Ok tt (add_call GetFile s).
Proof.
  intros Hget Hfetch. unfold restoreCache, in_types. rewrite any_restoreCache_eq.
  cbn [calls untyped with_cache]. rewrite Hget, Hfetch.
  by rewrite untyped_add_call, typed_untyped.
Qed.

Lemma restoreCache_records w (s : Store (list (list N * list N))) url x entries :
  getFile w (calls s) = Some url ->
  fetchText w (calls s ++ [GetFile]) url = Some x ->
  Forall2 (fun line e => line_effect line = LineSet (VString e.1) (VString e.2))
          (List.filter truthy (split_lines x)) entries ->
  let cache := fold_left set_entry entries (fileContentCache s) in
  restoreCache w s
  = Ok tt (add_message (CacheRestored (length cache))
             (with_cache cache (add_call (FetchText url) (add_call GetFile s)))).
Proof.
  intros Hget Hfetch Hlines cache. unfold restoreCache, in_types.
  rewrite any_restoreCache_eq. cbn [calls untyped with_cache fileContentCache].
  rewrite Hget, Hfetch. cbn zeta.
  rewrite (run_lines_records _ entries) by done. fold cache.
  rewrite !untyped_add_call, untyped_with_cache.
  replace (length (untyped_cache cache)) with (length cache)
    by (unfold untyped_cache; by rewrite length_map).
  by rewrite untyped_add_message, typed_untyped.
Qed.

(** What restoreCache leaves, seen from both sides. *)
Lemma restoreCache_end w (s : Store (list (list N * list N))) :
  exists u,
    Any.restoreCache w (untyped s) = Ok tt u
    /\ restoreCache w s = match typed u with Some s' => Ok tt s' | None => IllTyped u end
    /\ calls (final_state (restoreCache w s)) = calls u
    /\ fileContentCache (final_state (restoreCache w s))
       = omap as_strings (fileContentCache u).
Proof.
  assert (H : exists u, Any.restoreCache w (untyped s) = Ok tt u).
  { rewrite any_restoreCache_eq. destruct (getFile w _); [|by eexists].
    destruct (fetchText w _ _); [|by eexists]. cbn zeta.
    destruct (run_lines _ _) as [m [e|]]; by eexists. }
  destruct H as [u Hu]. exists u. split; [done|].
  unfold restoreCache, in_types. rewrite Hu.
  destruct (typed u) as [s'|] eqn:Ht; [|done].
  apply typed_store in Ht as ->. split; [done|]. split; [done|].
  cbn. by rewrite omap_untyped_cache.
Qed.

Lemma entries_restore_themselves (cache : list (list N * list N)) :
  Forall2 (fun line e => line_effect line = LineSet (VString e.1) (VString e.2))
          (map stringify_entry cache) cache.
Proof.
  apply Forall2_fmap_l, Forall_Forall2_diag, Forall_forall. intros [k v] _.
  apply line_effect_entry.
Qed.

Lemma cache_file_lines (cache : list (list N * list N)) :
  List.filter truthy (split_lines (cache_file_content cache))
  = map stringify_entry cache.
Proof.
  unfold cache_file_content. destruct (decide (cache = [])) as [->|Hne]; [done|].
  rewrite split_lines_join.
  - induction cache as [|e cache IH]; [done|]. cbn [map List.filter].
    rewrite stringify_entry_truthy. f_equal.
    destruct cache as [|e' cache]; [done|]. by apply IH.
  - by destruct cache.
  - apply Forall_fmap, Forall_forall. intros e _. apply stringify_entry_no_LF.
Qed.

Lemma restoreCache_of_cache w (s : Store (list (list N * list N))) url
    (cache : list (list N * list N)) :
  NoDup cache.*1 -> fileContentCache s = [] ->
  getFile w (calls s) = Some url ->
  fetchText w (calls s ++ [GetFile]) url = Some (cache_file_content cache) ->
  restoreCache w s
  = Ok tt (add_message (CacheRestored (length cache))
             (with_cache cache (add_call (FetchText url) (add_call GetFile s)))).
Proof.
  intros Hnd Hempty Hget Hfetch.
  rewrite (restoreCache_records w s url _ cache Hget Hfetch).
  - cbn zeta. rewrite Hempty. by rewrite fold_set_fresh.
  - rewrite cache_file_lines. apply entries_restore_themselves.
Qed.

(** C7. saveCache uploads the entries of the cache as one JSON record
    with the members key and content per entry, in cache order, joined by
    line feeds; no record contains a line feed, so the lines of the text
    are the records, and each parses back to an object with these two
    strings.  restoreCache, given exactly that text and an empty cache,
    completes with a cache that has the same entries in the same order. *)
Theorem persist_restore_round_trip (cache : list (list N * list N)) :
  NoDup cache.*1 ->
  (forall w s, fileContentCache s = cache -> is_Ok (saveCache w s) ->
     calls (final_state (saveCache w s))
     = calls s ++ [UploadFile (join [LF] (map stringify_entry cache))])
  /\ (cache <> [] ->
      split_lines (join [LF] (map stringify_entry cache)) = map stringify_entry cache)
  /\ Forall (fun e => JSON_parse (stringify_entry e)
                      = Some (JObject [(lit "key", JString e.1);
                                       (lit "content", JString e.2)])) cache
  /\ forall w s url,
       fileContentCache s = [] ->
       getFile w (calls s) = Some url ->
       fetchText w (calls s ++ [GetFile]) url
       = Some (join [LF] (map stringify_entry cache)) ->
       exists s', restoreCache w s = Ok tt s' /\ fileContentCache s' = cache.
Proof.
  intros Hnd. split; [|split; [|split]].
  - intros w s <-. rewrite saveCache_eq. cbn zeta.
    by destruct (uploadFile w _ _) as [[]|].
  - intros Hne. apply split_lines_join; [by destruct cache|].
    apply Forall_fmap, Forall_forall. intros e _. apply stringify_entry_no_LF.
  - apply Forall_forall. intros [k v] _. apply JSON_parse_entry.
  - intros w s url Hempty Hget Hfetch.
    rewrite (restoreCache_of_cache w s url cache) by done.
    eexists. split; [done|]. done.
Qed.

Lemma persist_restore_round_trip_witness :
  exists s',
    restoreCache (blob_world (join [LF] (map stringify_entry sample_cache)))
                 initial_state = Ok tt s'
    /\ fileContentCache s' = sample_cache.
Proof.
  assert (Hnd : NoDup sample_cache.*1).
  { apply (bool_decide_unpack _). by vm_compute. }
  destruct (persist_restore_round_trip sample_cache Hnd) as (_ & _ & _ & H).
  by apply (H _ initial_state (lit "https://files.example/cache")).
Defined.

Lemma line_entries_none lines :
  Forall (fun line => line_throws line = false) lines ->
  line_entries lines = [] <-> Forall (fun line => truthy line = false) lines.
Proof.
  induction 1 as [|line lines Hline _ IH]; [done|].
  rewrite line_entries_cons. unfold line_entry. unfold line_throws in Hline.
  destruct (truthy line) eqn:Ht.
  - destruct (line_effect line) as [k v|e]; [|done].
    split; [done|]. intros [H _]%Forall_cons. congruence.
  - rewrite IH. split; [by constructor|by intros [_ H]%Forall_cons].
Qed.

(** C8, as amended.  restoreCache completes without an exception whatever
    the services answer and whatever the file holds.  When the cache file
    does not exist the state is left as it was, and when its download
    fails the cache is left as it was (empty at a cold start).  When a
    line of the downloaded text throws (it is not empty and is not JSON, or
    is null), the Map holds what the lines before it have set, one after
    the other, and the lines after it are not read; starting from an empty
    Map, it is left empty exactly when all the lines before are empty.
    When no line throws, every line has set its entry and the size of the
    Map is printed.  One of the two is the case for every text.  (A line
    that is JSON sets its members key and content as they are, strings or
    not, [undefined] when missing.) *)
Theorem restore_never_throws w (s : Store (list (list N * list N))) :
  (forall u0, exists u, Any.restoreCache w u0 = Ok tt u)
  /\ (exists u,
     Any.restoreCache w (untyped s) = Ok tt u
     /\ restoreCache w s
        = match typed u with Some s' => Ok tt s' | None => IllTyped u end)
  /\ (getFile w (calls s) = None -> restoreCache w s = Ok tt s)
  /\ (forall url,
        getFile w (calls s) = Some url ->
        fetchText w (calls s ++ [GetFile]) url = None ->
        restoreCache w s = Ok tt (add_call GetFile s))
  /\ (forall url x,
        getFile w (calls s) = Some url ->
        fetchText w (calls s ++ [GetFile]) url = Some x ->
        let before := untyped_cache (fileContentCache s) in
        let u1 := add_call (FetchText url) (add_call GetFile (untyped s)) in
        (forall lines bad more,
           split_lines x = lines ++ bad :: more ->
           Forall (fun line => line_throws line = false) lines ->
           line_throws bad = true ->
           let cache := fold_left any_set_entry (line_entries lines) before in
           Any.restoreCache w (untyped s) = Ok tt (with_cache cache u1)
           /\ (before = [] ->
               cache = [] <-> Forall (fun line => truthy line = false) lines))
        /\ (Forall (fun line => line_throws line = false) (split_lines x) ->
            let cache :=
              fold_left any_set_entry (line_entries (split_lines x)) before in
            Any.restoreCache w (untyped s)
            = Ok tt (add_message (CacheRestored (length cache))
                       (with_cache cache u1)))
        /\ (Forall (fun line => line_throws line = false) (split_lines x)
            \/ exists lines bad more,
                 split_lines x = lines ++ bad :: more
                 /\ Forall (fun line => line_throws line = false) lines
                 /\ line_throws bad = true)).
Proof.
  split; [|split; [|split; [|split]]].
  - intros u0. rewrite any_restoreCache_eq.
    destruct (getFile w _); [|by eexists].
    destruct (fetchText w _ _); [|by eexists]. cbn zeta.
    destruct (run_lines _ _) as [m [e|]]; by eexists.
  - destruct (restoreCache_end w s) as (u & Hu & Ht & _). by exists u.
  - apply restoreCache_absent.
  - apply restoreCache_unfetched.
  - intros url x Hget Hfetch before u1. split; [|split].
    + intros lines bad more Hsplit Hlines Hbad cache. split.
      * rewrite any_restoreCache_eq. cbn [calls untyped with_cache fileContentCache].
        rewrite Hget, Hfetch, Hsplit. cbn zeta.
        rewrite run_lines_good by done.
        destruct (run_lines_bad bad more cache Hbad) as [e He].
        fold before. fold cache. by rewrite He.
      * intros Hempty. subst cache. rewrite Hempty.
        rewrite <- (line_entries_none lines Hlines).
        destruct (line_entries lines) as [|e entries]; [done|].
        split; [|done]. intros H. exfalso. revert H. cbn [fold_left].
        apply any_fold_nonempty, any_set_nonempty.
    + intros Hlines cache. rewrite any_restoreCache_eq.
      cbn [calls untyped with_cache fileContentCache].
      rewrite Hget, Hfetch. cbn zeta.
      rewrite <- (app_nil_r (split_lines x)) at 1.
      rewrite run_lines_good by done. done.
    + apply lines_split.
Qed.

Lemma restore_never_throws_witness :
  restoreCache silent_world initial_state = Ok tt initial_state
  /\ (exists u, Any.restoreCache (blob_world damaged_blob) (untyped initial_state)
                = Ok tt u
                /\ fileContentCache u = [(VString (lit "a"), VString (lit "b"))]
                /\ console u = [])
  /\ (exists u, Any.restoreCache (blob_world memberless_blob) (untyped initial_state)
                = Ok tt u
                /\ fileContentCache u = [(VUndefined, VUndefined)]).
Proof.
  split; [|split].
  - destruct (restore_never_throws silent_world initial_state)
      as (_ & _ & H & _).
    by apply H.
  - destruct (restore_never_throws (blob_world damaged_blob) initial_state)
      as (_ & _ & _ & _ & H).
    destruct (H (lit "https://files.example/cache") damaged_blob eq_refl eq_refl)
      as [H1 _].
    destruct (H1 [stringify_entry (lit "a", lit "b")] (lit "{oops") [])
      as [Hrun _].
    + by vm_compute.
    + repeat constructor.
    + by vm_compute.
    + eexists. split; [exact Hrun|]. by vm_compute.
  - destruct (restore_never_throws (blob_world memberless_blob) initial_state)
      as (_ & _ & _ & _ & H).
    destruct (H (lit "https://files.example/cache") memberless_blob eq_refl eq_refl)
      as [H1 _].
    destruct (H1 [lit "{}"] (lit "{oops") []) as [Hrun _].
    + by vm_compute.
    + repeat constructor.
    + by vm_compute.
    + eexists. split; [exact Hrun|]. by vm_compute.
Defined.

(** C8, counterexample.  The cache file holds one good record and then a
    line that is cut off.  JSON.parse throws on the second line (with any
    amount of fuel), so the file as a whole is unreadable; restoreCache
    swallows the error and leaves the cache holding the first record, not
    empty. *)
Lemma damaged_blob_leaves_entries :
  line_effect (lit "{oops") = LineThrows SyntaxError
  /\ (forall fuel, parse_value fuel (lit "{oops") = None)
  /\ match restoreCache (blob_world damaged_blob) initial_state with
     | Ok _ s' => fileContentCache s' = [(lit "a", lit "b")]
                  /\ fileContentCache s' <> []
     | _ => False
     end.
Proof.
  split; [by vm_compute|]. split.
  - by intros [|[|fuel]].
  - vm_compute. by split.
Qed.

(** * Further properties *)

Set Warnings "-clear-no-such-hyp".

(** ** The image of the slug function *)

Lemma collapse_runs_chars x : forall b,
  forallb (fun c => is_alnum c || (c =? UNDERSCORE)%N) (collapse_runs b x) = true.
Proof.
  induction x as [|c x IH]; intros b; [done|]. cbn [collapse_runs].
  destruct (is_alnum c) eqn:Hc.
  - cbn [forallb]. by rewrite Hc, IH.
  - destruct b; [apply IH|]. cbn [forallb]. rewrite IH.
    by rewrite underscore_not_alnum, N.eqb_refl.
Qed.

Lemma no_double_cons_other c x :
  c <> UNDERSCORE -> no_double_underscore (c :: x) = no_double_underscore x.
Proof.
  intros Hc. destruct x as [|d x]; [done|].
  change (no_double_underscore (c :: d :: x))
    with (negb ((c =? UNDERSCORE) && (d =? UNDERSCORE))%N
          && no_double_underscore (d :: x)).
  by destruct (N.eqb_spec c UNDERSCORE).
Qed.

Lemma no_double_cons_next c d x :
  d <> UNDERSCORE ->
  no_double_underscore (c :: d :: x) = no_double_underscore (d :: x).
Proof.
  intros Hd.
  change (no_double_underscore (c :: d :: x))
    with (negb ((c =? UNDERSCORE) && (d =? UNDERSCORE))%N
          && no_double_underscore (d :: x)).
  destruct (N.eqb_spec d UNDERSCORE); [done|]. by rewrite andb_false_r.
Qed.

Lemma collapse_runs_no_double x :
  no_double_underscore (collapse_runs false x) = true
  /\ no_double_underscore (UNDERSCORE :: collapse_runs true x) = true.
Proof.
  induction x as [|c x [IH1 IH2]]; [done|]. cbn [collapse_runs].
  destruct (is_alnum c) eqn:Hc; [|done].
  pose proof (alnum_not_underscore c Hc) as Hne.
  rewrite no_double_cons_next by done. by rewrite no_double_cons_other.
Qed.

Lemma slug_shaped_fixed x : slug_shaped x = true -> collapse_runs false x = x.
Proof.
  unfold slug_shaped. induction x as [|c x IH]; [done|].
  intros [Hchars Hnd]%andb_prop. cbn [forallb] in Hchars.
  apply andb_prop in Hchars as [Hc Hchars]. cbn [collapse_runs].
  assert (Hx : collapse_runs false x = x).
  { apply IH. rewrite Hchars. cbn [andb].
    destruct x as [|d x]; [done|].
    change (no_double_underscore (c :: d :: x))
      with (negb ((c =? UNDERSCORE) && (d =? UNDERSCORE))%N
            && no_double_underscore (d :: x)) in Hnd.
    by apply andb_prop in Hnd as [_ ?]. }
  destruct (is_alnum c) eqn:Halnum; [by rewrite Hx|].
  cbn [orb] in Hc. apply N.eqb_eq in Hc as ->. f_equal.
  destruct x as [|d x]; [done|].
  change (no_double_underscore (UNDERSCORE :: d :: x))
    with (negb ((UNDERSCORE =? UNDERSCORE) && (d =? UNDERSCORE))%N
          && no_double_underscore (d :: x)) in Hnd.
  apply andb_prop in Hnd as [Hd _]. rewrite N.eqb_refl in Hd. cbn [andb] in Hd.
  cbn [forallb] in Hchars. apply andb_prop in Hchars as [Hdc _].
  destruct (N.eqb_spec d UNDERSCORE); [done|]. rewrite orb_false_r in Hdc.
  cbn [collapse_runs] in *. rewrite Hdc in *. done.
Qed.

Lemma collapse_runs_length x : forall b, length (collapse_runs b x) <= length x.
Proof.
  induction x as [|c x IH]; intros b; [done|]. cbn [collapse_runs].
  destruct (is_alnum c); [cbn [length]; specialize (IH false); lia|].
  destruct b; cbn [length]; specialize (IH true); lia.
Qed.

(** X1. The slugs are exactly the strings made of A-Z, a-z, 0-9 and
    underscores with no two underscores in a row: every slug has this
    shape, and a string is its own slug if and only if it has it.  A slug
    is never longer than the name, and it is empty only for the empty
    name. *)
Theorem slug_image x :
  slug_shaped (slug x) = true
  /\ (slug x = x <-> slug_shaped x = true)
  /\ length (slug x) <= length x
  /\ (slug x = [] <-> x = []).
Proof.
  rewrite slug_is_slug_by_runs. unfold slug_by_runs.
  assert (Hshape : slug_shaped (collapse_runs false x) = true).
  { unfold slug_shaped. rewrite collapse_runs_chars. apply collapse_runs_no_double. }
  split; [done|]. split; [|split].
  - split; [by intros <-|apply slug_shaped_fixed].
  - apply collapse_runs_length.
  - split; [|by intros ->]. destruct x as [|c x]; [done|]. cbn [collapse_runs].
    by destruct (is_alnum c).
Qed.

(** ** The candidate object *)

Lemma fold_insert_dom (l : list (list N * list N)) : forall m : gmap (list N) (list N),
  dom (fold_left (fun obj e => <[e.1 := e.2]> obj) l m)
  = dom m ∪ list_to_set l.*1.
Proof.
  induction l as [|[k v] l IH]; intros m; cbn [fold_left fmap list_fmap list_to_set].
  - set_solver.
  - rewrite IH. cbn [fst snd]. rewrite dom_insert_L. set_solver.
Qed.

(** X2. The object handed to the labelling capability has exactly one
    property per distinct slug of the categories.  When the slugs of the
    categories are pairwise different, it has as many properties as there
    are categories and maps every slug to its category name. *)
Theorem candidates_one_per_slug (categories : list (list N)) :
  dom (fromEntries (candidate_labels categories))
  = list_to_set (slug <$> categories)
  /\ (NoDup (slug <$> categories) ->
      size (fromEntries (candidate_labels categories)) = length categories
      /\ forall c, c ∈ categories ->
           fromEntries (candidate_labels categories) !! slug c = Some c).
Proof.
  assert (Hkeys : (candidate_labels categories).*1 = slug <$> categories).
  { unfold candidate_labels. rewrite <- list_fmap_compose. done. }
  assert (Hdom : dom (fromEntries (candidate_labels categories))
                 = list_to_set (slug <$> categories)).
  { unfold fromEntries. rewrite fold_insert_dom, Hkeys. set_solver. }
  split; [done|]. intros Hnd. split.
  - rewrite <- size_dom, Hdom, size_list_to_set by done. by rewrite length_fmap.
  - intros c Hc. apply list_elem_of_split in Hc as (l1 & l2 & ->).
    unfold candidate_labels. rewrite map_app. cbn [map].
    apply fromEntries_last.
    rewrite fmap_app in Hnd. cbn [fmap list_fmap] in Hnd.
    apply NoDup_app in Hnd as (_ & _ & Hnd). apply NoDup_cons in Hnd as [Hnot _].
    fold (candidate_labels l2). 
    assert (Hk2 : (candidate_labels l2).*1 = slug <$> l2).
    { unfold candidate_labels. by rewrite <- list_fmap_compose. }
    by rewrite Hk2.
Qed.

Lemma candidates_one_per_slug_witness :
  size (fromEntries (candidate_labels [lit "Billing & Invoices"; lit "API"])) = 2
  /\ fromEntries (candidate_labels [lit "Billing & Invoices"; lit "API"])
       !! lit "Billing_Invoices" = Some (lit "Billing & Invoices").
Proof.
  assert (Hnd : NoDup (slug <$> [lit "Billing & Invoices"; lit "API"])).
  { apply (bool_decide_unpack _). by vm_compute. }
  destruct (candidates_one_per_slug [lit "Billing & Invoices"; lit "API"])
    as [_ H]. destruct (H Hnd) as [Hsize Hlook]. split; [exact Hsize|].
  apply (Hlook (lit "Billing & Invoices")). by left.
Defined.

(** ** The assembler's order is the only one *)

Section stable_order_unique.
Context {A : Type} (key : A -> Z).

Let le_key (a b : A) : Prop := (key a <= key b)%Z.

Lemma filter_key_head a (l : list A) :
  filter (fun x => key x = key a) (a :: l)
  = a :: filter (fun x => key x = key a) l.
Proof. by rewrite filter_cons_True. Qed.

Lemma filter_key_other k a (l : list A) :
  key a <> k ->
  filter (fun x => key x = k) (a :: l) = filter (fun x => key x = k) l.
Proof. intros H. by rewrite filter_cons_False. Qed.

Lemma sorted_head_least a (l : list A) x :
  StronglySorted le_key (a :: l) -> x ∈ a :: l -> (key a <= key x)%Z.
Proof.
  intros Hs [->|Hin]%elem_of_cons; [lia|].
  apply StronglySorted_inv in Hs as [_ Hall].
  rewrite Forall_forall in Hall. by apply Hall.
Qed.

Lemma stable_sorted_unique (l1 : list A) : forall l2,
  StronglySorted le_key l1 -> StronglySorted le_key l2 ->
  (forall k, filter (fun x => key x = k) l1 = filter (fun x => key x = k) l2) ->
  l1 = l2.
Proof.
  induction l1 as [|a t1 IH]; intros l2 Hs1 Hs2 Hf.
  { destruct l2 as [|b t2]; [done|].
    specialize (Hf (key b)). rewrite filter_key_head in Hf. done. }
  destruct l2 as [|b t2].
  { specialize (Hf (key a)). rewrite filter_key_head in Hf. done. }
  assert (Hab : key a = key b).
  { assert (Ha : a ∈ b :: t2).
    { assert (H : a ∈ filter (fun x => key x = key a) (b :: t2)).
      { rewrite <- Hf, filter_key_head. by left. }
      by apply list_elem_of_filter in H as [_ ?]. }
    assert (Hb : b ∈ a :: t1).
    { assert (H : b ∈ filter (fun x => key x = key b) (a :: t1)).
      { rewrite Hf, filter_key_head. by left. }
      by apply list_elem_of_filter in H as [_ ?]. }
    pose proof (sorted_head_least _ _ _ Hs1 Hb).
    pose proof (sorted_head_least _ _ _ Hs2 Ha). lia. }
  pose proof (Hf (key a)) as Hhead.
  rewrite filter_key_head, Hab, filter_key_head in Hhead.
  injection Hhead as -> Htail. f_equal.
  apply StronglySorted_inv in Hs1 as [Hs1 _].
  apply StronglySorted_inv in Hs2 as [Hs2 _].
  apply IH; [done..|]. intros k. destruct (decide (key b = k)) as [<-|Hne].
  - exact Htail.
  - specialize (Hf k). by rewrite !filter_key_other in Hf.
Qed.
End stable_order_unique.

(** X3. The order the assembler puts the passages in is the only one that
    is ascending in position (a missing position counting as 0) and keeps
    passages of equal position in their fetched order: any such
    arrangement of the passages is the sorted list, so the assembled text
    does not depend on how the sort works.  In particular passages that
    are fetched in ascending order are left as they are. *)
Theorem assemble_order_unique (passages arranged : list Passage) :
  StronglySorted (fun a b => (position_or_0 a <= position_or_0 b)%Z) arranged ->
  (forall k, filter (fun p => position_or_0 p = k) arranged
             = filter (fun p => position_or_0 p = k) passages) ->
  arranged = js_sort compare_position passages
  /\ assemble passages = join [LF] (map content arranged).
Proof.
  intros Hsorted Hstable.
  assert (H : arranged = js_sort compare_position passages).
  { apply (stable_sorted_unique position_or_0); [done| |].
    - apply (js_sort_sorted position_or_0).
    - intros k. rewrite Hstable. symmetry. apply (js_sort_stable position_or_0). }
  split; [done|]. unfold assemble. by rewrite <- H.
Qed.

Lemma assemble_order_unique_witness :
  assemble [ {| content := lit "a"; meta_position := None |};
             {| content := lit "b"; meta_position := Some 0%Z |};
             {| content := lit "c"; meta_position := Some 3%Z |} ]
  = lit "a" ++ [LF] ++ lit "b" ++ [LF] ++ lit "c".
Proof.
  refine (proj2 (assemble_order_unique _ _ _ (fun k => eq_refl))).
  repeat constructor; cbn; lia.
Defined.

(** ** Which names become categories *)

Lemma trim_start_split x :
  exists pre, x = pre ++ trim_start x /\ blank pre = true.
Proof.
  induction x as [|c x (pre & Hx & Hpre)]; [by exists []|]. cbn [trim_start].
  destruct (is_white_space c) eqn:Hc.
  - exists (c :: pre). cbn [app blank forallb]. rewrite Hc. split; [by f_equal|done].
  - by exists [].
Qed.

Lemma trim_start_blank x : trim_start x = [] <-> blank x = true.
Proof.
  induction x as [|c x IH]; [done|]. cbn [trim_start blank forallb].
  destruct (is_white_space c); [exact IH|]. done.
Qed.

Lemma blank_rev x : blank (rev x) = blank x.
Proof.
  unfold blank. induction x as [|c x IH]; [done|]. cbn [rev forallb].
  rewrite forallb_app, IH. cbn [forallb]. rewrite andb_true_r. apply andb_comm.
Qed.

Lemma trim_blank x : trim x = [] <-> blank x = true.
Proof.
  unfold trim. split.
  - intros H. apply (f_equal (@rev N)) in H. rewrite rev_involutive in H.
    cbn in H. apply trim_start_blank in H. rewrite blank_rev in H.
    destruct (trim_start_head x) as [E|(c & y & E & Hc)].
    + by apply trim_start_blank.
    + rewrite E in H. cbn [blank forallb] in H. by rewrite Hc in H.
  - intros H. apply trim_start_blank in H. by rewrite H.
Qed.

Lemma trim_split x :
  exists pre post, x = pre ++ trim x ++ post /\ blank pre = true /\ blank post = true.
Proof.
  destruct (trim_start_split x) as (pre & Hx & Hpre).
  destruct (trim_start_split (rev (trim_start x))) as (post & Hy & Hpost).
  exists pre, (rev post). split; [|split; [done|by rewrite blank_rev]].
  unfold trim. rewrite <- rev_app_distr, <- Hy, rev_involutive. exact Hx.
Qed.

Lemma trim_ends x :
  trim x <> [] ->
  (exists a, head (trim x) = Some a /\ is_white_space a = false)
  /\ (exists z, head (rev (trim x)) = Some z /\ is_white_space z = false).
Proof.
  intros Hne. pose proof (trim_idem x) as Hidem. unfold trim at 1 in Hidem.
  assert (Hstart : trim_start (trim x) = trim x).
  { unfold trim. apply trim_end_keeps_start, trim_start_idem. }
  rewrite Hstart in Hidem. apply (f_equal (@rev N)) in Hidem.
  rewrite rev_involutive in Hidem. split.
  - destruct (trim_start_head (trim x)) as [E|(a & y & E & Ha)].
    + by rewrite Hstart in E.
    + rewrite Hstart in E. rewrite E. by exists a.
  - destruct (trim_start_head (rev (trim x))) as [E|(z & y & E & Hz)].
    + rewrite Hidem in E. apply (f_equal (@rev N)) in E.
      by rewrite rev_involutive in E.
    + rewrite Hidem in E. rewrite E. by exists z.
Qed.

Lemma kept_names names :
  List.filter truthy (map trim names)
  = map trim (List.filter (fun n => negb (blank n)) names).
Proof.
  induction names as [|n names IH]; [done|]. cbn [map List.filter].
  assert (H : truthy (trim n) = negb (blank n)).
  { destruct (blank n) eqn:Hb.
    - apply trim_blank in Hb. by rewrite Hb.
    - destruct (trim n) eqn:E; [|done]. apply trim_blank in E. congruence. }
  rewrite H. destruct (blank n); cbn [negb map]; by rewrite IH.
Qed.

(** X4. When both capabilities answer, generateListOfCategories makes
    exactly two calls (the summary of the newline-joined cache texts, then
    the extraction from that summary), leaves the cache as it is, and
    returns one category for every extracted name that is not white space
    only, in the order of extraction, duplicates included.  Each category
    is the name without the white space around it: it starts and ends
    with a code unit that is not white space, and the name is the
    category with white space in front of and behind it. *)
Theorem categories_are_the_nonblank_names w s text names :
  let allContent := join [LF] (map snd (fileContentCache s)) in
  summarize w (calls s) allContent MAX_CATEGORIES = Some text ->
  extract w (calls s ++ [Summarize allContent]) text = Some names ->
  let categories := map trim (List.filter (fun n => negb (blank n)) names) in
  (exists s', generateListOfCategories w s = Ok categories s'
              /\ fileContentCache s' = fileContentCache s
              /\ calls s' = calls s ++ [Summarize allContent; Extract text])
  /\ Forall (fun n => exists pre post,
               n = pre ++ trim n ++ post /\ blank pre = true /\ blank post = true)
            names
  /\ Forall (fun c => (exists a, head c = Some a /\ is_white_space a = false)
                      /\ exists z, head (rev c) = Some z /\ is_white_space z = false)
            categories.
Proof.
  intros allContent Hsum Hext categories. split; [|split].
  - unfold generateListOfCategories, bind, get_cache, external, console_log, ret.
    cbn [calls add_call add_message fileContentCache]. fold allContent.
    rewrite Hsum. cbn [calls add_call add_message fileContentCache].
    rewrite Hext, kept_names. eexists. split; [done|].
    cbn [calls add_call add_message fileContentCache].
    split; [done|]. by rewrite <- app_assoc.
  - apply Forall_forall. intros n _. apply trim_split.
  - subst categories. apply Forall_forall. intros c Hc.
    apply list_elem_of_fmap in Hc as (n & -> & Hn).
    apply list_elem_of_In, List.filter_In in Hn as [_ Hn].
    apply trim_ends. intros E%trim_blank. by rewrite E in Hn.
Qed.

Lemma categories_are_the_nonblank_names_witness :
  exists s',
    generateListOfCategories
      (extracting_world [lit " api "; [9%N; 160%N]; lit "api"; lit "billing"])
      initial_state
    = Ok [lit "api"; lit "api"; lit "billing"] s'
    /\ fileContentCache s' = []
    /\ calls s' = [Summarize []; Extract []].
Proof.
  exact (proj1 (categories_are_the_nonblank_names
                  (extracting_world [lit " api "; [9%N; 160%N]; lit "api"; lit "billing"])
                  initial_state [] _ eq_refl eq_refl)).
Defined.

(** ** Blank lines and white space in the cache file *)

Lemma split_lines_nonempty x : split_lines x <> [].
Proof.
  destruct x as [|c x]; [done|]. cbn [split_lines].
  destruct (c =? LF)%N; [done|]. by destruct (split_lines x).
Qed.

Lemma split_lines_final_LF x : split_lines (x ++ [LF]) = split_lines x ++ [[]].
Proof.
  induction x as [|c x IH]; [done|]. cbn [app split_lines]. rewrite IH.
  destruct (c =? LF)%N; [done|].
  pose proof (split_lines_nonempty x). by destruct (split_lines x).
Qed.

(** X5. restoreCache skips the empty lines of the cache file wherever they
    stand: two files with the same non-empty lines in the same order leave
    the same cache, and so does a file with a line feed added at its
    end. *)
Theorem restore_skips_empty_lines w w' s url url' x x' :
  getFile w (calls s) = Some url ->
  fetchText w (calls s ++ [GetFile]) url = Some x ->
  getFile w' (calls s) = Some url' ->
  fetchText w' (calls s ++ [GetFile]) url' = Some x' ->
  (List.filter truthy (split_lines x') = List.filter truthy (split_lines x)
   \/ x' = x ++ [LF]) ->
  fileContentCache (final_state (restoreCache w' s))
  = fileContentCache (final_state (restoreCache w s))
  /\ exists u u',
       Any.restoreCache w (untyped s) = Ok tt u
       /\ Any.restoreCache w' (untyped s) = Ok tt u'
       /\ fileContentCache u' = fileContentCache u
       /\ console u' = console u.
Proof.
  intros Hget Hfetch Hget' Hfetch' Hlines.
  assert (Hsame : List.filter truthy (split_lines x')
                  = List.filter truthy (split_lines x)).
  { destruct Hlines as [H| ->]; [done|].
    rewrite split_lines_final_LF, List.filter_app. cbn. by rewrite app_nil_r. }
  destruct (restoreCache_end w s) as (u & Hu & _ & _ & Hc).
  destruct (restoreCache_end w' s) as (u' & Hu' & _ & _ & Hc').
  assert (Hany : fileContentCache u' = fileContentCache u /\ console u' = console u).
  { rewrite any_restoreCache_eq in Hu, Hu'.
    cbn [calls untyped with_cache fileContentCache] in Hu, Hu'.
    rewrite Hget, Hfetch in Hu. rewrite Hget', Hfetch' in Hu'.
    cbn zeta in Hu, Hu'. rewrite run_lines_skip_blank in Hu, Hu'.
    rewrite Hsame in Hu'.
    destruct (run_lines _ _) as [m [e|]];
      injection Hu as <-; injection Hu' as <-; done. }
  split; [by rewrite Hc, Hc', (proj1 Hany)|]. by exists u, u'.
Qed.

Lemma restore_skips_empty_lines_witness :
  fileContentCache
    (final_state (restoreCache
                    (blob_world (cache_file_content sample_cache ++ [LF]))
                    initial_state))
  = fileContentCache
      (final_state (restoreCache (blob_world (cache_file_content sample_cache))
                                 initial_state)).
Proof.
  apply (restore_skips_empty_lines
           (blob_world (cache_file_content sample_cache))
           (blob_world (cache_file_content sample_cache ++ [LF]))
           initial_state
           (lit "https://files.example/cache") (lit "https://files.example/cache")
           (cache_file_content sample_cache)
           (cache_file_content sample_cache ++ [LF])
           eq_refl eq_refl eq_refl eq_refl).
  by right.
Defined.

Lemma skip_ws_app ws x :
  forallb is_json_ws ws = true -> skip_ws (ws ++ x) = skip_ws x.
Proof.
  induction ws as [|c ws IH]; [done|]. cbn [forallb app skip_ws].
  intros [-> H]%andb_prop. by apply IH.
Qed.

Lemma skip_ws_all ws : forallb is_json_ws ws = true -> skip_ws ws = [].
Proof.
  intros H. rewrite <- (app_nil_r ws). by rewrite skip_ws_app.
Qed.

Lemma parse_value_entry_rest fuel key content rest :
  parse_value (S (S (S (S fuel)))) (stringify_entry (key, content) ++ rest)
  = Some (JObject [(lit "key", JString key); (lit "content", JString content)],
          rest).
Proof.
  rewrite stringify_entry_eq.
  repeat first [rewrite <- app_assoc | progress cbn [app]].
  rewrite parse_value_object, parse_members_comma, parse_members_rbrace.
  reflexivity.
Qed.

Lemma line_effect_padded key content ws1 ws2 :
  forallb is_json_ws ws1 = true -> forallb is_json_ws ws2 = true ->
  truthy (ws1 ++ stringify_entry (key, content) ++ ws2) = true
  /\ line_effect (ws1 ++ stringify_entry (key, content) ++ ws2)
     = LineSet (VString key) (VString content).
Proof.
  intros H1 H2. split.
  - rewrite stringify_entry_eq. by destruct ws1.
  - unfold line_effect.
    rewrite (JSON_parse_fuel_enough _ 4
               (JObject [(lit "key", JString key); (lit "content", JString content)])
               ws2).
    + done.
    + rewrite parse_value_S, skip_ws_app, <- parse_value_S by done.
      apply parse_value_entry_rest.
    + by apply skip_ws_all.
Qed.

(** X6. restoreCache accepts the records of a saved cache with JSON white
    space (space, tab, line feed, carriage return) in front of and behind
    them: when every line of the file is such a padded record, the cache
    left behind (starting from an empty one) holds the records' entries in
    order.  A file whose line ends were turned into CR LF restores like
    the original. *)
Theorem restore_accepts_padded_records w s url x (cache : list (list N * list N)) :
  NoDup cache.*1 ->
  fileContentCache s = [] ->
  getFile w (calls s) = Some url ->
  fetchText w (calls s ++ [GetFile]) url = Some x ->
  Forall2 (fun line e =>
             exists ws1 ws2, line = ws1 ++ stringify_entry e ++ ws2
                             /\ forallb is_json_ws ws1 = true
                             /\ forallb is_json_ws ws2 = true)
          (List.filter truthy (split_lines x)) cache ->
  exists s', restoreCache w s = Ok tt s' /\ fileContentCache s' = cache.
Proof.
  intros Hnd Hempty Hget Hfetch Hlines.
  rewrite (restoreCache_records w s url x cache Hget Hfetch).
  - cbn zeta. eexists. split; [done|].
    cbn [fileContentCache with_cache add_message add_call].
    rewrite Hempty. by rewrite fold_set_fresh.
  - eapply Forall2_impl; [exact Hlines|].
    intros line [k v] (ws1 & ws2 & -> & H1 & H2). by apply line_effect_padded.
Qed.

Lemma restore_accepts_padded_records_witness :
  exists s', restoreCache (blob_world crlf_blob) initial_state = Ok tt s'
             /\ fileContentCache s' = [(lit "a", lit "b"); (lit "c", lit "d")].
Proof.
  apply (restore_accepts_padded_records (blob_world crlf_blob) initial_state
           (lit "https://files.example/cache") crlf_blob
           [(lit "a", lit "b"); (lit "c", lit "d")]).
  - apply (bool_decide_unpack _). by vm_compute.
  - reflexivity.
  - reflexivity.
  - reflexivity.
  - assert (E : List.filter truthy (split_lines crlf_blob)
                = [ [] ++ stringify_entry (lit "a", lit "b") ++ [13%N];
                    [] ++ stringify_entry (lit "c", lit "d") ++ [13%N] ])
      by (by vm_compute).
    rewrite E. repeat constructor; by exists [], [13%N].
Defined.

(** ** Every checkpoint is a resume point *)

Lemma upload_between_weaken lo lo' hi c :
  lo `prefix_of` lo' -> upload_between lo' hi c -> upload_between lo hi c.
Proof.
  intros Hlo H t Ht. destruct (H t Ht) as (snap & -> & H1 & H2).
  exists snap. split; [done|]. split; [by etrans|done].
Qed.

Lemma NoDup_snoc_key (m : list (list N * list N)) k v :
  NoDup m.*1 -> map_has k m = false -> NoDup (m ++ [(k, v)]).*1.
Proof.
  intros Hnd Hk. rewrite fmap_app. apply NoDup_app. split; [done|]. split.
  - intros k' Hin [->|[]%elem_of_nil]%elem_of_cons. cbn [fst] in Hin.
    apply map_has_elem in Hin. congruence.
  - cbn. apply NoDup_singleton.
Qed.

Lemma ingest_loop_uploads w total files fc np s :
  let r := ingest_loop w total files fc np s in
  NoDup (fileContentCache s).*1 ->
  exists new,
    calls (final_state r) = calls s ++ new
    /\ fileContentCache s `prefix_of` fileContentCache (final_state r)
    /\ NoDup (fileContentCache (final_state r)).*1
    /\ Forall (upload_between (fileContentCache s)
                              (fileContentCache (final_state r))) new
    /\ match r with
       | Ok n _ => length (fileContentCache (final_state r))
                   = length (fileContentCache s) + (n - np) /\ np <= n
       | _ => True
       end.
Proof.
  cbv zeta. ingest_induction w total files fc np s.
  - intros fc np s Hnd. exists []. cbn. rewrite app_nil_r.
    repeat split; first [done | lia].
  - intros file rest fc np s Hmax Hnd. exists []. cbn. rewrite app_nil_r.
    repeat split; first [done | lia].
  - intros file rest fc np s r Hmax Hhas IH Hnd.
    destruct (IH Hnd) as (new & Hc & Hp & Hnd' & Hup & Hr). by exists new.
  - intros file rest fc np s Hmax Hhas Hfetch Hnd. exists []. cbn.
    rewrite app_nil_r. done.
  - intros file rest fc np s passages Hmax Hhas Hfetch Hmod Hup Hnd.
    exists [FilePassages (file_id file)]. cbn. rewrite map_set_fresh by done.
    split; [done|]. split; [by apply prefix_app_r|].
    split; [by apply NoDup_snoc_key|]. split; [|done].
    constructor; [|done]. by intros t [=].
  - intros file rest fc np s passages r Hmax Hhas Hfetch Hmod Hup IH Hnd.
    cbn [fileContentCache calls with_cache add_call add_message] in IH.
    rewrite map_set_fresh in IH by done.
    destruct IH as (new & Hc & Hp & Hnd' & Hups & Hr).
    { by apply NoDup_snoc_key. }
    assert (Hgrow : fileContentCache s
                    `prefix_of` fileContentCache s ++ [(file_key file, assemble passages)])
      by by apply prefix_app_r.
    eexists (FilePassages (file_id file) :: UploadFile _ :: new).
    split; [by rewrite Hc, <- !app_assoc|]. split; [by etrans|].
    split; [done|]. split.
    + constructor; [by intros t [=]|]. constructor.
      * intros t [= <-]. eexists. split; [done|]. split; [exact Hgrow|exact Hp].
      * eapply Forall_impl; [exact Hups|]. intros c.
        by apply upload_between_weaken.
    + destruct r; [|done..]. cbn [final_state] in *.
      rewrite length_app in Hr. cbn [length] in Hr. lia.
  - intros file rest fc np s passages r Hmax Hhas Hfetch Hmod IH Hnd.
    cbn [fileContentCache calls with_cache add_call add_message] in IH.
    rewrite map_set_fresh in IH by done.
    destruct IH as (new & Hc & Hp & Hnd' & Hups & Hr).
    { by apply NoDup_snoc_key. }
    assert (Hgrow : fileContentCache s
                    `prefix_of` fileContentCache s ++ [(file_key file, assemble passages)])
      by by apply prefix_app_r.
    exists (FilePassages (file_id file) :: new).
    split; [by rewrite Hc, <- !app_assoc|]. split; [by etrans|].
    split; [done|]. split.
    + constructor; [by intros t [=]|].
      eapply Forall_impl; [exact Hups|]. intros c.
      by apply upload_between_weaken.
    + destruct r; [|done..]. cbn [final_state] in *.
      rewrite length_app in Hr. cbn [length] in Hr. lia.
Qed.

Lemma prefix_same_length {A} (l1 l2 : list A) :
  l1 `prefix_of` l2 -> length l2 = length l1 -> l2 = l1.
Proof.
  intros [k ->] Hlen. rewrite length_app in Hlen.
  destruct k; [by rewrite app_nil_r|cbn in Hlen; lia].
Qed.

Lemma NoDup_prefix_keys (snap hi : list (list N * list N)) :
  snap `prefix_of` hi -> NoDup hi.*1 -> NoDup snap.*1.
Proof.
  intros [k ->]. rewrite fmap_app. by intros (? & _ & _)%NoDup_app.
Qed.

(** X7. Starting from a cache with unique keys, a run of fetchAllContent
    keeps the keys unique and only appends to the cache.  Every upload it
    makes is the file of the cache as it stood at some moment of the run,
    and a completed run that added anything ends with the upload of its
    final cache.  restoreCache, given the file of any such earlier state
    and an empty cache, rebuilds exactly that state: every checkpoint is a
    point from which a later run resumes without fetching again what the
    checkpoint holds. *)
Theorem checkpoints_are_resume_points w s :
  NoDup (fileContentCache s).*1 ->
  let r := fetchAllContent w s in
  let final := fileContentCache (final_state r) in
  NoDup final.*1
  /\ fileContentCache s `prefix_of` final
  /\ (exists new,
        calls (final_state r) = calls s ++ new
        /\ Forall (upload_between (fileContentCache s) final) new
        /\ (is_Ok r ->
            final = fileContentCache s
            \/ last new = Some (UploadFile (cache_file_content final))))
  /\ forall snap, snap `prefix_of` final ->
       forall w' s0 url,
         fileContentCache s0 = [] ->
         getFile w' (calls s0) = Some url ->
         fetchText w' (calls s0 ++ [GetFile]) url = Some (cache_file_content snap) ->
         exists s0', restoreCache w' s0 = Ok tt s0' /\ fileContentCache s0' = snap.
Proof.
  intros Hnd r final.
  assert (H : NoDup final.*1
    /\ fileContentCache s `prefix_of` final
    /\ exists new,
        calls (final_state r) = calls s ++ new
        /\ Forall (upload_between (fileContentCache s) final) new
        /\ (is_Ok r ->
            final = fileContentCache s
            \/ last new = Some (UploadFile (cache_file_content final)))).
  { subst final r. rewrite fetchAllContent_eq.
    destruct (listFiles w (calls s)) as [files|].
    2:{ cbn. split; [done|]. split; [done|]. exists []. by rewrite app_nil_r. }
    cbn zeta. set (s0 := add_message _ _).
    destruct (ingest_loop_uploads w (length files) files 0 0 s0 Hnd)
      as (new & Hc & Hp & Hnd' & Hups & Hr).
    subst s0. cbn [calls fileContentCache add_call add_message] in *.
    destruct (ingest_loop _ _ _ _ _ _) as [n s1|e s1|s1]; cbn [final_state] in *.
    - destruct (Nat.ltb_spec 0 n) as [Hn|Hn].
      + rewrite saveCache_eq. cbn zeta.
        cbn [calls fileContentCache add_call add_message].
        destruct (uploadFile w _ _) as [[]|];
          cbn [final_state calls fileContentCache add_call add_message].
        * split; [done|]. split; [done|].
          exists (ListFiles :: new ++ [UploadFile (cache_file_content (fileContentCache s1))]).
          split; [by rewrite Hc, <- !app_assoc|]. split.
          -- constructor; [by intros t [=]|]. apply Forall_app. split; [done|].
             constructor; [|done]. intros t [= <-]. by eexists.
          -- intros _. right. by rewrite last_cons, last_snoc.
        * split; [done|]. split; [done|]. exists (ListFiles :: new).
          split; [by rewrite Hc, <- !app_assoc|]. split; [|done].
          constructor; [by intros t [=]|done].
      + cbn [final_state]. split; [done|]. split; [done|].
        exists (ListFiles :: new).
        split; [by rewrite Hc, <- !app_assoc|]. split.
        * constructor; [by intros t [=]|done].
        * intros _. left. apply prefix_same_length; [done|]. lia.
    - split; [done|]. split; [done|]. exists (ListFiles :: new).
      split; [by rewrite Hc, <- !app_assoc|]. split; [|done].
      constructor; [by intros t [=]|done].
    - split; [done|]. split; [done|]. exists (ListFiles :: new).
      split; [by rewrite Hc, <- !app_assoc|]. split; [|done].
      constructor; [by intros t [=]|done]. }
  destruct H as (Hfinal & Hprefix & Hnew). split; [done|]. split; [done|].
  split; [done|]. intros snap Hsnap w' s0 url Hempty Hget Hfetch.
  rewrite (restoreCache_of_cache w' s0 url snap); [by eexists| |done..].
  by apply (NoDup_prefix_keys snap final).
Qed.

Lemma checkpoints_are_resume_points_witness :
  exists s0',
    restoreCache
      (blob_world (cache_file_content
                     (fileContentCache
                        (final_state (fetchAllContent (steady_world 12) initial_state)))))
      initial_state = Ok tt s0'
    /\ fileContentCache s0'
       = fileContentCache (final_state (fetchAllContent (steady_world 12) initial_state)).
Proof.
  destruct (checkpoints_are_resume_points (steady_world 12) initial_state
              (NoDup_nil_2 : NoDup (fileContentCache initial_state).*1))
    as (_ & _ & _ & H).
  by apply (H _ (reflexivity _) _ initial_state (lit "https://files.example/cache")).
Defined.

(** ** What goes into the cache *)

Lemma ingest_loop_entries w total files fc np s :
  let r := ingest_loop w total files fc np s in
  let considered := take (MAX_FILES_TO_PROCESS - fc) files in
  exists new fetched,
    calls (final_state r) = calls s ++ new
    /\ fileContentCache (final_state r) = fileContentCache s ++ map entry_of fetched
    /\ fetched_ids new = map (fun fp => file_id fp.1) fetched
    /\ Forall (fun fp => fp.1 ∈ considered
                         /\ exists h, filePassages w h (file_id fp.1) = Some fp.2)
              fetched.
Proof.
  cbv zeta. ingest_induction w total files fc np s.
  - intros fc np s. exists [], []. cbn. by rewrite !app_nil_r.
  - intros file rest fc np s Hmax. exists [], []. cbn. by rewrite !app_nil_r.
  - intros file rest fc np s r Hmax Hhas (new & fetched & Hc & Hm & Hids & Hall).
    exists new, fetched. rewrite considered_cons by done.
    split; [done|]. split; [done|]. split; [done|].
    eapply Forall_impl; [exact Hall|]. intros fp [Hin Hh]. split; [by right|done].
  - intros file rest fc np s Hmax Hhas Hfetch. exists [], []. cbn.
    by rewrite !app_nil_r.
  - intros file rest fc np s passages Hmax Hhas Hfetch Hmod Hup.
    exists [FilePassages (file_id file)], [(file, passages)].
    cbn. rewrite map_set_fresh, considered_cons by done.
    split; [done|]. split; [done|]. split; [done|].
    constructor; [|done]. cbn. split; [by left|eauto].
  - intros file rest fc np s passages r Hmax Hhas Hfetch Hmod Hup
      (new & fetched & Hc & Hm & Hids & Hall).
    cbn [fileContentCache calls with_cache add_call add_message] in Hc, Hm.
    rewrite map_set_fresh in Hm by done.
    eexists (FilePassages (file_id file) :: UploadFile _ :: new),
            ((file, passages) :: fetched).
    rewrite considered_cons by done.
    split; [by rewrite Hc, <- !app_assoc|].
    split; [by rewrite Hm, <- !app_assoc|].
    split; [cbn; by rewrite <- Hids|].
    constructor; [cbn; split; [by left|eauto]|].
    eapply Forall_impl; [exact Hall|]. intros fp [Hin Hh]. split; [by right|done].
  - intros file rest fc np s passages r Hmax Hhas Hfetch Hmod
      (new & fetched & Hc & Hm & Hids & Hall).
    cbn [fileContentCache calls with_cache add_call add_message] in Hc, Hm.
    rewrite map_set_fresh in Hm by done.
    exists (FilePassages (file_id file) :: new), ((file, passages) :: fetched).
    rewrite considered_cons by done.
    split; [by rewrite Hc, <- !app_assoc|].
    split; [by rewrite Hm, <- !app_assoc|].
    split; [cbn; by rewrite <- Hids|].
    constructor; [cbn; split; [by left|eauto]|].
    eapply Forall_impl; [exact Hall|]. intros fp [Hin Hh]. split; [by right|done].
Qed.

(** X8. In every run of fetchAllContent the completed passage fetches and
    the new cache entries correspond one to one, in order: each fetch is
    for one of the first MAX_FILES_TO_PROCESS listed documents and adds,
    behind the entries already there, one entry under that document's key
    whose content is the assembled text of the passages the content store
    answered; nothing else is added and no entry is changed or removed,
    also when the run is cut short by a failure. *)
Theorem cache_holds_assembled_fetches w s files :
  listFiles w (calls s) = Some files ->
  let r := fetchAllContent w s in
  exists new fetched,
    calls (final_state r) = calls s ++ new
    /\ fileContentCache (final_state r) = fileContentCache s ++ map entry_of fetched
    /\ fetched_ids new = map (fun fp => file_id fp.1) fetched
    /\ Forall (fun fp => fp.1 ∈ take MAX_FILES_TO_PROCESS files
                         /\ exists h, filePassages w h (file_id fp.1) = Some fp.2)
              fetched.
Proof.
  intros Hlist r. subst r. rewrite fetchAllContent_eq, Hlist. cbn zeta.
  set (s0 := add_message _ _).
  destruct (ingest_loop_entries w (length files) files 0 0 s0)
    as (new & fetched & Hc & Hm & Hids & Hall).
  rewrite Nat.sub_0_r in Hall.
  subst s0. cbn [calls fileContentCache add_call add_message] in *.
  assert (Hids' : fetched_ids (ListFiles :: new)
                  = map (fun fp => file_id fp.1) fetched) by done.
  destruct (ingest_loop _ _ _ _ _ _) as [n s1|e s1|s1]; cbn [final_state] in *.
  - destruct (0 <? n).
    + rewrite saveCache_eq. cbn zeta. destruct (uploadFile w _ _) as [[]|].
      * eexists (ListFiles :: new ++ [UploadFile _]), fetched.
        cbn [final_state calls fileContentCache add_call add_message].
        rewrite Hc, Hm. split; [by rewrite <- !app_assoc|]. split; [done|].
        split; [|done].
        change (fetched_ids (ListFiles :: ?l)) with (fetched_ids l).
        rewrite fetched_ids_app. cbn. by rewrite app_nil_r.
      * exists (ListFiles :: new), fetched.
        cbn [final_state calls fileContentCache add_call add_message].
        rewrite Hc, Hm. by rewrite <- !app_assoc.
    + exists (ListFiles :: new), fetched. cbn [final_state]. rewrite Hc, Hm.
      by rewrite <- !app_assoc.
  - exists (ListFiles :: new), fetched. rewrite Hc, Hm. by rewrite <- !app_assoc.
  - exists (ListFiles :: new), fetched. rewrite Hc, Hm. by rewrite <- !app_assoc.
Qed.

Lemma cache_holds_assembled_fetches_witness :
  exists new fetched,
    calls (final_state (fetchAllContent (steady_world 2) initial_state)) = new
    /\ fileContentCache (final_state (fetchAllContent (steady_world 2) initial_state))
       = map entry_of fetched
    /\ fetched_ids new = map (fun fp => file_id fp.1) fetched.
Proof.
  destruct (cache_holds_assembled_fetches (steady_world 2) initial_state
              (numbered_files 2) eq_refl)
    as (new & fetched & Hc & Hm & Hids & _).
  exists new, fetched. split; [exact Hc|]. split; [exact Hm|exact Hids].
Defined.

(** ** Cached documents and the cap *)

(** X9. Documents that are already cached count against the cap: when the
    first MAX_FILES_TO_PROCESS listed documents are all in the cache, a
    run of fetchAllContent completes without fetching or uploading
    anything and leaves the cache as it is, whatever documents follow in
    the listing and whether or not they are cached. *)
Theorem cached_documents_count_against_cap w s files :
  listFiles w (calls s) = Some files ->
  (forall f, f ∈ take MAX_FILES_TO_PROCESS files ->
             map_has (file_key f) (fileContentCache s) = true) ->
  exists s', fetchAllContent w s = Ok tt s'
             /\ fileContentCache s' = fileContentCache s
             /\ calls s' = calls s ++ [ListFiles].
Proof.
  intros Hlist Hcached. rewrite fetchAllContent_eq, Hlist. cbn zeta.
  set (s0 := add_message _ _).
  destruct (ingest_loop_skip w (length files) files 0 0 s0)
    as (s' & -> & Hc & Hl).
  { rewrite Nat.sub_0_r. exact Hcached. }
  cbn. by exists s'.
Qed.

Lemma cached_documents_count_against_cap_witness :
  exists s',
    fetchAllContent (steady_world 101)
      (final_state (fetchAllContent (steady_world 100) initial_state)) = Ok tt s'
    /\ fileContentCache s'
       = fileContentCache (final_state (fetchAllContent (steady_world 100) initial_state))
    /\ calls s'
       = calls (final_state (fetchAllContent (steady_world 100) initial_state))
         ++ [ListFiles].
Proof.
  apply (cached_documents_count_against_cap (steady_world 101) _
           (numbered_files 101) eq_refl).
  apply Forall_forall. apply (bool_decide_unpack _). vm_compute. exact I.
Defined.

(** ** The labelling requests *)

Lemma label_requests_app cs1 cs2 :
  label_requests (cs1 ++ cs2) = label_requests cs1 ++ label_requests cs2.
Proof. apply omap_app. Qed.

Lemma label_loop_requests w categories entries : forall s,
  let r := label_loop w categories entries s in
  exists k,
    k <= length entries
    /\ label_requests (calls (final_state r))
       = label_requests (calls s)
         ++ map (fun e => (e.2, fromEntries (candidate_labels categories)))
                (take k entries)
    /\ (is_Ok r -> k = length entries).
Proof.
  induction entries as [|[key content] rest IH]; intros s r.
  { exists 0. subst r. cbn. by rewrite app_nil_r. }
  subst r. cbn [label_loop].
  unfold bind, external, console_log, ret, add_call, add_message.
  cbn [fileContentCache calls console].
  destruct (label w (calls s) content _) as [sel|] eqn:Hlabel.
  2:{ exists 0. cbn. rewrite app_nil_r. split; [lia|done]. }
  cbn [fileContentCache calls console].
  destruct (0 <? length (candidate_labels categories)) eqn:Hguard.
  - destruct (updateFileMetadata w _ key _) as [[]|] eqn:Hupd.
    + match goal with |- context [label_loop w categories rest ?s1] =>
        destruct (IH s1) as (k & Hk & Hreq & Hok) end.
      exists (S k). split; [cbn; lia|]. split; [|intros H; cbn; by rewrite Hok].
      rewrite Hreq. cbn [calls take map]. rewrite !label_requests_app. cbn.
      by rewrite app_nil_r, <- app_assoc.
    + exists 1. cbn. split; [lia|]. split; [|done].
      rewrite label_requests_app. cbn. by rewrite take_0.
  - match goal with |- context [label_loop w categories rest ?s1] =>
      destruct (IH s1) as (k & Hk & Hreq & Hok) end.
    exists (S k). split; [cbn; lia|]. split; [|intros H; cbn; by rewrite Hok].
    rewrite Hreq. cbn [calls take map]. rewrite !label_requests_app. cbn.
    by rewrite <- app_assoc.
Qed.

(** X10. labelFilesFromCategories never changes the cache.  It sends one
    labelling request per cached document, in cache order, each with the
    document's text and the same candidate object, and stops at the first
    call that fails; a run that completes has sent one for every
    document.  With an empty category list the requests are still sent,
    with an empty candidate object, and nothing is written. *)
Theorem one_label_request_per_document w categories s :
  let r := labelFilesFromCategories w categories s in
  fileContentCache (final_state r) = fileContentCache s
  /\ (exists k,
        k <= length (fileContentCache s)
        /\ label_requests (calls (final_state r))
           = label_requests (calls s)
             ++ map (fun e => (e.2, fromEntries (candidate_labels categories)))
                    (take k (fileContentCache s))
        /\ (is_Ok r -> k = length (fileContentCache s)))
  /\ (categories = [] ->
      fromEntries (candidate_labels categories) = ∅
      /\ metadata_writes (calls (final_state r)) = metadata_writes (calls s)).
Proof.
  intros r. split; [|split].
  - destruct (label_loop_calls w categories (fileContentCache s) s)
      as (n & extra & _ & _ & _ & Hcache & _). exact Hcache.
  - apply (label_loop_requests w categories (fileContentCache s) s).
  - intros ->. split; [done|].
    destruct (label_run_calls w [] s) as (n & extra & _ & Hcalls & Hextra & _).
    fold r in Hcalls. rewrite Hcalls, !metadata_writes_app, metadata_writes_steps.
    destruct Hextra as [->|(e & _ & ->)]; cbn; by rewrite app_nil_r.
Qed.

Lemma one_label_request_per_document_witness :
  label_requests
    (calls (final_state
              (labelFilesFromCategories unselective_world []
                 (with_cache [(lit "doc1", lit "text one"); (lit "doc2", lit "text two")]
                             initial_state))))
  = [(lit "text one", ∅); (lit "text two", ∅)]
  /\ metadata_writes
       (calls (final_state
                 (labelFilesFromCategories unselective_world []
                    (with_cache [(lit "doc1", lit "text one"); (lit "doc2", lit "text two")]
                                initial_state))))
     = [].
Proof.
  destruct (one_label_request_per_document unselective_world []
              (with_cache [(lit "doc1", lit "text one"); (lit "doc2", lit "text two")]
                          initial_state))
    as (_ & (k & _ & Hreq & Hk) & Hnone).
  split.
  - rewrite Hreq, Hk; [reflexivity|]. vm_compute. exact I.
  - by apply Hnone.
Defined.

(** ** The whole run *)

Lemma restoreCache_no_metadata w (s : Store (list (list N * list N))) :
  metadata_writes (calls (final_state (restoreCache w s)))
  = metadata_writes (calls s).
Proof.
  destruct (restoreCache_end w s) as (u & Hu & _ & -> & _).
  rewrite any_restoreCache_eq in Hu. cbn [calls untyped with_cache] in Hu.
  destruct (getFile w (calls s)) as [url|]; [|by injection Hu as <-].
  destruct (fetchText w _ url) as [x|].
  2:{ injection Hu as <-. cbn. rewrite metadata_writes_app. cbn.
      by rewrite app_nil_r. }
  cbn zeta in Hu.
  destruct (run_lines _ _) as [m [e|]]; injection Hu as <-; cbn;
    rewrite !metadata_writes_app; cbn; by rewrite !app_nil_r.
Qed.

Lemma loop_calls_no_metadata considered cache new :
  Forall (loop_call considered cache) new -> metadata_writes new = [].
Proof.
  induction 1 as [|c new Hc _ IH]; [done|].
  destruct Hc as [(f & _ & _ & ->)|[t ->]]; exact IH.
Qed.

(** X11. A run of main that completes has restored the cache, ingested,
    synthesised the categories and labelled, in this order; synthesis and
    labelling leave the cache as ingestion left it, and ingestion only
    appends to what was restored.  Its metadata writes are one per entry
    of that cache, in cache order, for the documents restored from the
    cache file as well as for those ingested in this run, each carrying
    the candidate list of the synthesised categories (none at all when no
    category was found). *)
Theorem main_labels_the_whole_cache w s s' :
  main w s = Ok tt s' ->
  exists s1 s2 s3 categories,
    restoreCache w s = Ok tt s1
    /\ fetchAllContent w s1 = Ok tt s2
    /\ generateListOfCategories w s2 = Ok categories s3
    /\ labelFilesFromCategories w categories s3 = Ok tt s'
    /\ fileContentCache s1 `prefix_of` fileContentCache s2
    /\ fileContentCache s' = fileContentCache s2
    /\ metadata_writes (calls s')
       = metadata_writes (calls s)
         ++ (if 0 <? length categories
             then map (fun e => (e.1, candidate_labels categories))
                      (fileContentCache s2)
             else []).
Proof.
  unfold main. unfold bind at 1.
  pose proof (restoreCache_no_metadata w s) as Hrestore.
  destruct (restoreCache w s) as [[] s1| |]; [|done..]. unfold bind at 1.
  destruct (fetchAllContent w s1) as [[] s2| |] eqn:Hfetch; [|done..].
  unfold bind at 1.
  destruct (generateListOfCategories w s2) as [categories s3| |] eqn:Hgen; [|done..].
  intros Hlabel. exists s1, s2, s3, categories.
  split; [done|]. split; [done|]. split; [done|]. split; [done|].
  assert (Hlist : exists files, listFiles w (calls s1) = Some files).
  { rewrite fetchAllContent_eq in Hfetch.
    destruct (listFiles w (calls s1)); [eauto|done]. }
  destruct Hlist as [files Hlist].
  destruct (fetchAllContent_footprint w s1 files Hlist)
    as (new & added & Hc2 & Hm2 & Hnew & _).
  rewrite Hfetch in Hc2, Hm2. cbn [final_state] in Hc2, Hm2.
  assert (Hs3 : fileContentCache s3 = fileContentCache s2
                /\ metadata_writes (calls s3) = metadata_writes (calls s2)).
  { revert Hgen.
    unfold generateListOfCategories, bind, get_cache, external, console_log, ret.
    cbn [calls add_call add_message fileContentCache].
    destruct (summarize w _ _ _) as [text|]; [|done].
    cbn [calls add_call add_message fileContentCache].
    destruct (extract w _ _) as [names|]; [|done].
    intros [= <- <-]. cbn. split; [done|].
    rewrite !metadata_writes_app. cbn. by rewrite !app_nil_r. }
  destruct Hs3 as [Hm3 Hc3].
  destruct (label_run_calls w categories s3) as (n & extra & _ & Hcalls & _ & Hok).
  destruct (label_loop_calls w categories (fileContentCache s3) s3)
    as (_ & _ & _ & _ & _ & Hcache & _).
  change (label_loop w categories (fileContentCache s3) s3)
    with (labelFilesFromCategories w categories s3) in Hcache.
  rewrite Hlabel in Hcalls, Hok, Hcache. cbn [final_state] in Hcalls, Hcache.
  destruct (Hok I) as [-> ->].
  split; [rewrite Hm2; by apply prefix_app_r|].
  split; [by rewrite Hcache|].
  rewrite Hcalls, !metadata_writes_app, metadata_writes_steps, Hc3, Hc2.
  rewrite metadata_writes_app.
  change (metadata_writes (ListFiles :: new)) with (metadata_writes new).
  rewrite (loop_calls_no_metadata _ _ _ Hnew).
  cbn [final_state] in Hrestore. rewrite Hrestore.
  change (metadata_writes []) with (@nil (list N * list (list N * list N))).
  rewrite firstn_all, Hm3, !app_nil_r. done.
Qed.

Lemma main_labels_the_whole_cache_witness :
  metadata_writes (calls (final_state (main complete_world initial_state)))
  = [([0%N], [(lit "Billing_Invoices", lit "Billing & Invoices"); (lit "API", lit "API")]);
     ([1%N], [(lit "Billing_Invoices", lit "Billing & Invoices"); (lit "API", lit "API")])].
Proof.
  assert (Hrun : main complete_world initial_state
                 = Ok tt (final_state (main complete_world initial_state)))
    by (by vm_compute).
  destruct (main_labels_the_whole_cache _ _ _ Hrun)
    as (s1 & s2 & s3 & categories & H1 & H2 & H3 & _ & _ & _ & ->).
  vm_compute in H1. injection H1 as <-.
  vm_compute in H2. injection H2 as <-.
  vm_compute in H3. injection H3 as <- <-.
  by vm_compute.
Defined.

(** ** What a completed run guarantees *)

(** X12. After a run of fetchAllContent that completes, every one of the
    first MAX_FILES_TO_PROCESS listed documents has its key in the cache;
    when the listing has at most MAX_FILES_TO_PROCESS documents, every
    listed document has. *)
Theorem completed_run_caches_the_considered w s s' files :
  listFiles w (calls s) = Some files ->
  fetchAllContent w s = Ok tt s' ->
  (forall f, f ∈ take MAX_FILES_TO_PROCESS files ->
             map_has (file_key f) (fileContentCache s') = true)
  /\ (length files <= MAX_FILES_TO_PROCESS ->
      forall f, f ∈ files -> map_has (file_key f) (fileContentCache s') = true).
Proof.
  intros Hlist Hrun.
  assert (H : forall f, f ∈ take MAX_FILES_TO_PROCESS files ->
                        map_has (file_key f) (fileContentCache s') = true).
  { rewrite fetchAllContent_eq, Hlist in Hrun. cbn zeta in Hrun.
    pose proof (ingest_loop_ok w (length files) files 0 0
                  (add_message (TotalFiles (length files)) (add_call ListFiles s)))
      as Hok. cbv zeta in Hok. rewrite Nat.sub_0_r in Hok.
    destruct (ingest_loop _ _ _ _ _ _) as [n s1|e s1|s1]; [|done..].
    destruct (Hok n s1 eq_refl) as (_ & Hf & _).
    intros f Hin. specialize (Hf f Hin).
    destruct (0 <? n); [|by simplify_eq].
    rewrite saveCache_eq in Hrun. cbn zeta in Hrun.
    destruct (uploadFile w _ _) as [[]|]; [|done]. by simplify_eq. }
  split; [exact H|]. intros Hlen f Hf. apply H. by rewrite take_ge.
Qed.

Lemma completed_run_caches_the_considered_witness :
  Forall (fun f => map_has (file_key f)
                     (fileContentCache
                        (final_state (fetchAllContent (steady_world 12) initial_state)))
                   = true)
         (numbered_files 12).
Proof.
  apply Forall_forall.
  apply (proj2 (completed_run_caches_the_considered (steady_world 12) initial_state
                  _ (numbered_files 12) eq_refl
                  ltac:(by vm_compute))).
  vm_compute. lia.
Defined.

Lemma checkpoints_count m : forall np,
  length (filter (fun c => c = Persisted) (checkpoints np m)) + (np + 9) / 10
  = (np + m + 9) / 10
  /\ length (filter (fun c => c = Assembled) (checkpoints np m)) = m.
Proof.
  induction m as [|m IH]; intros np.
  { cbn [checkpoints]. rewrite !filter_nil. cbn [length].
    by rewrite Nat.add_0_r. }
  cbn [checkpoints]. destruct (IH (S np)) as [IHp IHa].
  rewrite filter_cons_False by done. rewrite filter_cons_True by done.
  destruct (Nat.eqb_spec (np mod 10) 0) as [Hz|Hz]; cbn [app].
  - rewrite filter_cons_True by done. rewrite filter_cons_False by done.
    cbn [length]. split; [lia|by rewrite IHa].
  - cbn [length]. split; [lia|by rewrite IHa].
Qed.

Lemma fetchAllContent_completed_cadence w s s' :
  fetchAllContent w s = Ok tt s' ->
  exists new m,
    calls s' = calls s ++ new
    /\ cadence new = checkpoints 0 m ++ (if 0 <? m then [Persisted] else []).
Proof.
  rewrite fetchAllContent_eq. destruct (listFiles w (calls s)) as [files|]; [|done].
  cbn zeta. set (s0 := add_message _ _).
  destruct (ingest_loop_cadence w (length files) files 0 0 s0)
    as (new & m & Hc & _ & Hr).
  destruct (ingest_loop _ _ _ _ _ _) as [n s1|e s1|s1]; [|done..].
  destruct Hr as [-> Hr]. cbn [final_state Nat.add] in *.
  subst s0. cbn [calls add_call add_message] in Hc.
  destruct (Nat.ltb_spec 0 m) as [Hm|Hm].
  - rewrite saveCache_eq. cbn zeta. destruct (uploadFile w _ _) as [[]|]; [|done].
    intros [= <-]. eexists (ListFiles :: new ++ [UploadFile _]), m.
    cbn [calls add_call add_message]. rewrite Hc.
    split; [by rewrite <- !app_assoc|].
    change (cadence (ListFiles :: ?l)) with (cadence l).
    assert (Hlt : (0 <? m) = true) by by apply Nat.ltb_lt.
    by rewrite Hlt, cadence_app, Hr.
  - intros [= <-]. exists (ListFiles :: new), m. rewrite Hc.
    split; [by rewrite <- !app_assoc|].
    change (cadence (ListFiles :: ?l)) with (cadence l).
    assert (Hlt : (0 <? m) = false) by (apply Nat.ltb_ge; lia).
    by rewrite Hlt, Hr, app_nil_r.
Qed.

(** X13. A run of fetchAllContent that completes and newly processes [m]
    documents uploads the cache file m/10 rounded up times during the
    loop and once more at the end: not at all when [m] is 0, twice for 1
    to 10 new documents, three times for 11 to 20. *)
Theorem uploads_of_a_completed_run w s s' :
  fetchAllContent w s = Ok tt s' ->
  exists new m,
    calls s' = calls s ++ new
    /\ length (filter (fun c => c = Assembled) (cadence new)) = m
    /\ length (filter (fun c => c = Persisted) (cadence new))
       = (m + 9) / 10 + (if 0 <? m then 1 else 0).
Proof.
  intros (new & m & Hc & Hcad)%fetchAllContent_completed_cadence.
  exists new, m. split; [done|]. rewrite Hcad, !filter_app, !length_app.
  destruct (checkpoints_count m 0) as [Hp Ha]. cbn [Nat.add] in Hp.
  rewrite Ha. change (9 / 10) with 0 in Hp. rewrite Nat.add_0_r in Hp.
  rewrite Hp. destruct (0 <? m).
  - rewrite filter_cons_False by done. rewrite filter_cons_True by done.
    rewrite !filter_nil. cbn [length]. split; lia.
  - rewrite !filter_nil. cbn [length]. split; lia.
Qed.

Lemma uploads_of_a_completed_run_witness :
  exists new,
    calls (final_state (fetchAllContent (steady_world 12) initial_state)) = new
    /\ length (filter (fun c => c = Persisted) (cadence new)) = 3.
Proof.
  destruct (uploads_of_a_completed_run (steady_world 12) initial_state
              (final_state (fetchAllContent (steady_world 12) initial_state))
              ltac:(by vm_compute))
    as (new & m & Hc & Hm & Hp).
  exists new. split; [exact Hc|].
  cbn [calls initial_state app] in Hc. subst new. by vm_compute.
Defined.
